(** * zzzwe: a shallow embedding of [index.js] and its specification

    The live half of [index.js] (lines 1-1150: [Color], [V2], the two
    renderers, the entities, [Tutorial], [Trail], [Player], [Game]) is
    embedded class by class, one [Module] per class, every method under
    its own name.  Methods that only format a string or draw on the
    canvas ([Color.toRgba], [Renderer2D.drawLine], the shaders) are left
    out.  The start-up code (the frame loop and the listeners) is
    [Module Loop]; of it the choice of the renderer and the
    [orientationchange] listener, which only talk to the browser, are
    left out.  The second half of the file is the superseded copy of the
    game and is not modelled.

    Numbers.  A JavaScript number is modelled as a real ([R]): [+], [-],
    [*], [/], [Math.sqrt], [Math.min], [Math.max], [Math.cos], [Math.sin]
    are the operations of [Reals], comparisons are decided by [Rle_dec]
    and [Rlt_dec].  Rounding, overflow and infinities are therefore
    outside the model.  [NaN] is modelled where a string decides it
    ([parseInt] in [Color.hex]), through the type [jsnum].

    Effects.  Objects that the code mutates in place are records that are
    passed and returned; an array of objects that is mutated while it is
    scanned ([Game.enemies], [Game.bullets]) is a list read and written
    by index.  [Math.random], [performance.now], [window.localStorage] and
    [window.matchMedia] are the environment: a sequence of draws with a
    cursor, a clock reading handed to [Game.update], one storage slot, and
    one flag. *)

From Stdlib Require Import Reals Lra Lia ZArith Bool Ascii String DecimalString Sorted.
From stdpp Require Import base list.

Open Scope R_scope.

(** ** JavaScript numbers *)

(** [a <= b], [a < b] and [a === b] on numbers, as booleans. *)
Definition Rleb (a b : R) : bool := if Rle_dec a b then true else false.
Definition Rltb (a b : R) : bool := if Rlt_dec a b then true else false.
Definition Reqb (a b : R) : bool := if Req_dec_T a b then true else false.

(** A number that may be [NaN]. *)
Inductive jsnum : Type :=
| NaN
| Num (v : R).

(** [a / b] where [a] may be [NaN] and [b] is a non-zero literal. *)
Definition jsdiv (a : jsnum) (b : R) : jsnum :=
  match a with
  | NaN => NaN
  | Num v => Num (v / b)
  end.

(** [a + b], [a - b] and [a * b] where an operand may be [NaN]. *)
Definition jsadd (a b : jsnum) : jsnum :=
  match a, b with
  | Num u, Num v => Num (u + v)
  | _, _ => NaN
  end.

Definition jssub (a b : jsnum) : jsnum :=
  match a, b with
  | Num u, Num v => Num (u - v)
  | _, _ => NaN
  end.

Definition jsmul (a b : jsnum) : jsnum :=
  match a, b with
  | Num u, Num v => Num (u * v)
  | _, _ => NaN
  end.

(** [function lerp(a, b, t)] *)
Definition lerp (a b t : jsnum) : jsnum := jsadd a (jsmul (jssub b a) t).

(** ** Exceptions *)

(** [throw new Error(msg)], and the [TypeError] that the engine raises
    when a property of [undefined] is read or a value that is not a
    function is called. *)
Inductive exn : Type :=
| Error (msg : string)
| TypeError (msg : string).

Inductive result (A : Type) : Type :=
| Ok (v : A)
| Throw (e : exn).

Arguments Ok {A} v.
Arguments Throw {A} e.

(** ** class Color *)
Module Color.

Record t : Type := mk { r : jsnum; g : jsnum; b : jsnum; a : jsnum }.

Definition withAlpha (this : t) (a' : R) : t :=
  mk (r this) (g this) (b this) (Num a').

Definition grayScale (this : t) (t : R) : Color.t :=
  let x := jsdiv (jsadd (jsadd (r this) (g this)) (b this)) 3 in
  mk (lerp (r this) x (Num t))
     (lerp (g this) x (Num t))
     (lerp (b this) x (Num t))
     (a this).

(** Character classes of the pattern.  Under the flag [i] (and without
    the flag [u]) the class [[0-9a-z]] accepts the ASCII digits and the
    ASCII letters of both cases. *)
Definition in_range (lo hi : nat) (c : ascii) : bool :=
  (lo <=? nat_of_ascii c)%nat && (nat_of_ascii c <=? hi)%nat.

Definition is_0_9 (c : ascii) : bool := in_range 48 57 c.
Definition is_a_z (c : ascii) : bool := in_range 97 122 c.
Definition is_A_Z (c : ascii) : bool := in_range 65 90 c.

Definition class_0_9a_z_i (c : ascii) : bool := is_0_9 c || is_a_z c || is_A_Z c.

(** The pattern [#([0-9a-z]{2})([0-9a-z]{2})([0-9a-z]{2})] tried at the
    first character of [s]: the three captured groups. *)
Definition match_here (s : string) : option (string * string * string) :=
  match s with
  | String "#" (String c1 (String c2 (String c3 (String c4 (String c5 (String c6 _)))))) =>
      if forallb class_0_9a_z_i [c1; c2; c3; c4; c5; c6]
      then Some (String c1 (String c2 EmptyString),
                 String c3 (String c4 EmptyString),
                 String c5 (String c6 EmptyString))
      else None
  | _ => None
  end.

(** [hexcolor.match(pattern)] for a pattern without the flag [g]: the
    match at the leftmost position where the pattern matches, [None]
    ([null]) when there is none. *)
Fixpoint match_ (s : string) : option (string * string * string) :=
  match match_here s with
  | Some m => Some m
  | None =>
      match s with
      | EmptyString => None
      | String _ s' => match_ s'
      end
  end.

(** The value of a digit of radix 16. *)
Definition digit16 (c : ascii) : option Z :=
  if is_0_9 c then Some (Z.of_nat (nat_of_ascii c) - 48)%Z
  else if in_range 97 102 c then Some (Z.of_nat (nat_of_ascii c) - 87)%Z
  else if in_range 65 70 c then Some (Z.of_nat (nat_of_ascii c) - 55)%Z
  else None.

(** The longest prefix of [s] made of digits of radix 16, read as a
    number; [acc] is [None] until a digit has been read. *)
Fixpoint digits16 (acc : option Z) (s : string) : option Z :=
  match s with
  | EmptyString => acc
  | String c s' =>
      match digit16 c with
      | Some d => digits16 (Some (16 * default 0%Z acc + d)%Z) s'
      | None => acc
      end
  end.

(** [parseInt] with radix 16 removes one leading [0x] or [0X]. *)
Definition strip0x (s : string) : string :=
  match s with
  | String "0" (String c s') =>
      if (Ascii.eqb c "x" || Ascii.eqb c "X")%bool then s' else s
  | _ => s
  end.

(** [parseInt(s, 16)] on the strings [Color.hex] passes to it: letters
    and digits only, so there is no white space and no sign to skip. *)
Definition parseInt16 (s : string) : jsnum :=
  match digits16 None (strip0x s) with
  | Some n => Num (IZR n)
  | None => NaN
  end.

Definition hex (hexcolor : string) : result t :=
  match match_ hexcolor with
  | Some (r, g, b) =>
      Ok (mk (jsdiv (parseInt16 r) 255)
             (jsdiv (parseInt16 g) 255)
             (jsdiv (parseInt16 b) 255)
             (Num 1))
  | None =>
      Throw (Error ("Could not parse " ++ hexcolor ++ " as color"))
  end.

End Color.

(** ** class V2 *)
Module V2.

Record t : Type := mk { x : R; y : R }.

Definition add (this that : t) : t := mk (x this + x that) (y this + y that).

Definition sub (this that : t) : t := mk (x this - x that) (y this - y that).

Definition scale (this : t) (s : R) : t := mk (x this * s) (y this * s).

Definition len (this : t) : R := sqrt (x this * x this + y this * y this).

Definition normalize (this : t) : t :=
  let n := len this in
  if Reqb n 0 then mk 0 0 else mk (x this / n) (y this / n).

Definition dist (this that : t) : R := len (sub this that).

Definition polar (mag dir : R) : t := mk (cos dir * mag) (sin dir * mag).

End V2.

(** ** Constants *)

Definition TRIANGLE_PAIR : nat := 2.
Definition TRIANGLE_VERTICIES : nat := 3.
Definition VEC2_COUNT : nat := 2.
Definition VEC2_X : nat := 0.
Definition VEC2_Y : nat := 1.
Definition RGBA_COUNT : nat := 4.
Definition RGBA_R : nat := 0.
Definition RGBA_G : nat := 1.
Definition RGBA_B : nat := 2.
Definition RGBA_A : nat := 3.
Definition DEFAULT_RESOLUTION_w : R := 3840.
Definition DEFAULT_RESOLUTION_h : R := 2160.
(** [Color.hex("#f43841")], see [ColorFacts.PLAYER_COLOR_hex]. *)
Definition PLAYER_COLOR : Color.t :=
  Color.mk (Num (244 / 255)) (Num (56 / 255)) (Num (65 / 255)) (Num 1).
Definition PLAYER_SPEED : R := 1000.
Definition PLAYER_RADIUS : R := 69.
Definition PLAYER_MAX_HEALTH : R := 100.
Definition PLAYER_SHOOT_COOLDOWN : R := 0.25.
Definition PLAYER_TRAIL_RATE : R := 3.
Definition TUTORIAL_POPUP_SPEED : R := 1.7.
Definition BULLET_RADIUS : R := 42.
Definition BULLET_SPEED : R := 2000.
Definition BULLET_LIFETIME : R := 5.
Definition ENEMY_SPEED : R := PLAYER_SPEED / 3.
Definition ENEMY_RADIUS : R := PLAYER_RADIUS.
Definition ENEMY_SPAWN_ANIMATION_SPEED : R := ENEMY_RADIUS * 8.
(** [Color.hex("#9e95c7")], see [ColorFacts.ENEMY_COLOR_hex]. *)
Definition ENEMY_COLOR : Color.t :=
  Color.mk (Num (158 / 255)) (Num (149 / 255)) (Num (199 / 255)) (Num 1).
Definition ENEMY_SPAWN_COOLDOWN : R := 1.
Definition ENEMY_SPAWN_GROWTH : R := 1.01.
Definition ENEMY_SPAWN_DISTANCE : R := 1500.
Definition ENEMY_DESPAWN_DISTANCE : R := ENEMY_SPAWN_DISTANCE * 2.
Definition ENEMY_DAMAGE : R := PLAYER_MAX_HEALTH / 5.
Definition ENEMY_KILL_HEAL : R := PLAYER_MAX_HEALTH / 10.
Definition ENEMY_KILL_SCORE : Z := 100.
Definition ENEMY_TRAIL_RATE : R := 2.
Definition PARTICLES_COUNT_RANGE : R * R := (0, 50).
Definition PARTICLE_RADIUS_RANGE : R * R := (10, 20).
Definition PARTICLE_MAG_RANGE : R * R := (0, BULLET_SPEED).
Definition PARTICLE_MAX_LIFETIME : R := 1.
Definition PARTICLE_LIFETIME_RANGE : R * R := (0, PARTICLE_MAX_LIFETIME).
(** [Color.hex("#ffffff")], see [ColorFacts.MESSAGE_COLOR_hex]. *)
Definition MESSAGE_COLOR : Color.t :=
  Color.mk (Num (255 / 255)) (Num (255 / 255)) (Num (255 / 255)) (Num 1).
Definition TRAIL_COOLDOWN : R := 1 / 60.
Definition CIRCLE_BATCH_CAPACITY : nat := 1024.

(** [key in directionMap] and [directionMap[key]], for the values a
    keyboard event gives to [event.code]. *)
Definition directionMap (key : string) : option V2.t :=
  if String.eqb key "KeyS" then Some (V2.mk 0 1)
  else if String.eqb key "KeyW" then Some (V2.mk 0 (-1))
  else if String.eqb key "KeyA" then Some (V2.mk (-1) 0)
  else if String.eqb key "KeyD" then Some (V2.mk 1 0)
  else None.

(** ** class RendererWebGL *)

(** The fields that the methods read and write: the camera, the
    instance counter and the three per-instance [Float32Array]s.  A
    write [array[i] = v] inside the bounds stores [v] (its rounding to
    single precision is outside the model), a write outside the bounds
    of a typed array does nothing: this is [<[i := v]>] on lists.  The
    calls on [gl] and [ext] act on the GPU and are not part of the
    state; [present] returns the arguments of its draw call. *)
Module RendererWebGL.

Record t : Type := mk {
  cameraPos : V2.t;
  cameraVel : V2.t;
  (** [grayness] is not declared by the class: it is [undefined] until
      [Game.update] assigns it. *)
  grayness : option R;
  circlesCount : nat;
  circleCenterBufferData : list R;
  circleRadiusBufferData : list R;
  circleColorBufferData : list jsnum;
}.

(** [new RendererWebGL(gl, ext)]: a [Float32Array] is created filled
    with zeros. *)
Definition new : t :=
  {| cameraPos := V2.mk 0 0;
     cameraVel := V2.mk 0 0;
     grayness := None;
     circlesCount := 0;
     circleCenterBufferData := replicate (VEC2_COUNT * CIRCLE_BATCH_CAPACITY) 0;
     circleRadiusBufferData := replicate CIRCLE_BATCH_CAPACITY 0;
     circleColorBufferData := replicate (RGBA_COUNT * CIRCLE_BATCH_CAPACITY) (Num 0) |}.

Definition set_cameraPos (p : V2.t) (this : t) : t :=
  mk p (cameraVel this) (grayness this) (circlesCount this)
     (circleCenterBufferData this) (circleRadiusBufferData this) (circleColorBufferData this).

Definition set_cameraVel (v : V2.t) (this : t) : t :=
  mk (cameraPos this) v (grayness this) (circlesCount this)
     (circleCenterBufferData this) (circleRadiusBufferData this) (circleColorBufferData this).

Definition set_grayness (g : R) (this : t) : t :=
  mk (cameraPos this) (cameraVel this) (Some g) (circlesCount this)
     (circleCenterBufferData this) (circleRadiusBufferData this) (circleColorBufferData this).

Definition setTarget (target : V2.t) (this : t) : t :=
  set_cameraVel (V2.sub target (cameraPos this)) this.

Definition update (dt : R) (this : t) : t :=
  set_cameraPos (V2.add (cameraPos this) (V2.scale (cameraVel this) dt)) this.

(** The instanced draw call of [present]: the number of vertices of the
    mesh and the number of instances. *)
Definition present (this : t) : nat * nat :=
  (TRIANGLE_PAIR * TRIANGLE_VERTICIES, circlesCount this)%nat.

Definition clear (this : t) : t :=
  mk (cameraPos this) (cameraVel this) (grayness this) 0
     (circleCenterBufferData this) (circleRadiusBufferData this) (circleColorBufferData this).

Definition background (this : t) : t := this.

Definition fillCircle (center : V2.t) (radius : R) (color : Color.t) (this : t) : t :=
  if (circlesCount this <? CIRCLE_BATCH_CAPACITY)%nat then
    let n := circlesCount this in
    mk (cameraPos this) (cameraVel this) (grayness this)
       (n + 1)
       (<[(n * VEC2_COUNT + VEC2_Y)%nat := V2.y center]>
          (<[(n * VEC2_COUNT + VEC2_X)%nat := V2.x center]>
             (circleCenterBufferData this)))
       (<[n := radius]> (circleRadiusBufferData this))
       (<[(n * RGBA_COUNT + RGBA_A)%nat := Color.a color]>
          (<[(n * RGBA_COUNT + RGBA_B)%nat := Color.b color]>
             (<[(n * RGBA_COUNT + RGBA_G)%nat := Color.g color]>
                (<[(n * RGBA_COUNT + RGBA_R)%nat := Color.r color]>
                   (circleColorBufferData this)))))
  else this.

Definition fillMessage (text : option string) (color : Color.t) (this : t) : t := this.

End RendererWebGL.

(** ** class Renderer2D *)

(** The fields of the object, and the size of the canvas it draws on
    ([context2d.canvas.width] and [height], which the frame loop sets).
    The drawing calls on [context2d] act on the canvas and leave these
    fields unchanged. *)
Module Renderer2D.

Record t : Type := mk {
  cameraPos : V2.t;
  cameraVel : V2.t;
  grayness : R;
  unitsPerPixel : R;
  canvas_width : R;
  canvas_height : R;
}.

(** [new Renderer2D(context2d)] on a canvas of the given size. *)
Definition new (canvas_width canvas_height : R) : t :=
  mk (V2.mk 0 0) (V2.mk 0 0) 0 1 canvas_width canvas_height.

Definition set_cameraPos (p : V2.t) (this : t) : t :=
  mk p (cameraVel this) (grayness this) (unitsPerPixel this)
     (canvas_width this) (canvas_height this).

Definition set_cameraVel (v : V2.t) (this : t) : t :=
  mk (cameraPos this) v (grayness this) (unitsPerPixel this)
     (canvas_width this) (canvas_height this).

Definition set_grayness (g : R) (this : t) : t :=
  mk (cameraPos this) (cameraVel this) g (unitsPerPixel this)
     (canvas_width this) (canvas_height this).

Definition update (dt : R) (this : t) : t :=
  set_cameraPos (V2.add (cameraPos this) (V2.scale (cameraVel this) dt)) this.

Definition width (this : t) : R := canvas_width this * unitsPerPixel this.

Definition height (this : t) : R := canvas_height this * unitsPerPixel this.

Definition screenToWorld (point : V2.t) (this : t) : V2.t :=
  let width := canvas_width this in
  let height := canvas_height this in
  V2.add
    (V2.scale (V2.sub point (V2.mk (width / 2) (height / 2))) (unitsPerPixel this))
    (cameraPos this).

Definition getScreenWorldBounds (this : t) : V2.t * V2.t :=
  let topLeft := screenToWorld (V2.mk 0 0) this in
  let bottomRight := screenToWorld (V2.mk (canvas_width this) (canvas_height this)) this in
  (topLeft, bottomRight).

Definition worldToCamera (point : V2.t) (this : t) : V2.t :=
  let width := width this in
  let height := height this in
  V2.add (V2.sub point (cameraPos this)) (V2.mk (width / 2) (height / 2)).

Definition setTarget (target : V2.t) (this : t) : t :=
  set_cameraVel (V2.sub target (cameraPos this)) this.

Definition setViewport (width height : R) (this : t) : t :=
  let scale := Rmin (width / DEFAULT_RESOLUTION_w) (height / DEFAULT_RESOLUTION_h) in
  mk (cameraPos this) (cameraVel this) (grayness this) (1 / scale)
     (canvas_width this) (canvas_height this).

(** The drawing methods change the canvas, not the object.
    [fillMessage] calls [text.split], which raises on [undefined]. *)
Definition clear (this : t) : t := this.

Definition background (this : t) : t := this.

Definition fillCircle (center : V2.t) (radius : R) (color : Color.t) (this : t) : t := this.

Definition fillMessage (text : option string) (color : Color.t) (this : t) : result t :=
  match text with
  | Some _ => Ok this
  | None => Throw (TypeError "Cannot read properties of undefined (reading 'split')")
  end.

End Renderer2D.

(** ** The renderer of a game *)

(** [Game.renderer] is an object of one of the two classes; a method
    call on it goes to the method of its class.  [RendererWebGL] has no
    method [screenToWorld]: calling it raises a [TypeError]. *)
Inductive Renderer : Type :=
| Canvas2D (r : Renderer2D.t)
| WebGL (r : RendererWebGL.t).

Module RendererI.

Definition cameraPos (this : Renderer) : V2.t :=
  match this with
  | Canvas2D r => Renderer2D.cameraPos r
  | WebGL r => RendererWebGL.cameraPos r
  end.

Definition cameraVel (this : Renderer) : V2.t :=
  match this with
  | Canvas2D r => Renderer2D.cameraVel r
  | WebGL r => RendererWebGL.cameraVel r
  end.

Definition set_cameraPos (p : V2.t) (this : Renderer) : Renderer :=
  match this with
  | Canvas2D r => Canvas2D (Renderer2D.set_cameraPos p r)
  | WebGL r => WebGL (RendererWebGL.set_cameraPos p r)
  end.

Definition set_cameraVel (v : V2.t) (this : Renderer) : Renderer :=
  match this with
  | Canvas2D r => Canvas2D (Renderer2D.set_cameraVel v r)
  | WebGL r => WebGL (RendererWebGL.set_cameraVel v r)
  end.

Definition set_grayness (g : R) (this : Renderer) : Renderer :=
  match this with
  | Canvas2D r => Canvas2D (Renderer2D.set_grayness g r)
  | WebGL r => WebGL (RendererWebGL.set_grayness g r)
  end.

Definition setTarget (target : V2.t) (this : Renderer) : Renderer :=
  match this with
  | Canvas2D r => Canvas2D (Renderer2D.setTarget target r)
  | WebGL r => WebGL (RendererWebGL.setTarget target r)
  end.

Definition update (dt : R) (this : Renderer) : Renderer :=
  match this with
  | Canvas2D r => Canvas2D (Renderer2D.update dt r)
  | WebGL r => WebGL (RendererWebGL.update dt r)
  end.

Definition screenToWorld (point : V2.t) (this : Renderer) : result V2.t :=
  match this with
  | Canvas2D r => Ok (Renderer2D.screenToWorld point r)
  | WebGL _ => Throw (TypeError "this.renderer.screenToWorld is not a function")
  end.

Definition clear (this : Renderer) : Renderer :=
  match this with
  | Canvas2D r => Canvas2D (Renderer2D.clear r)
  | WebGL r => WebGL (RendererWebGL.clear r)
  end.

Definition background (this : Renderer) : Renderer :=
  match this with
  | Canvas2D r => Canvas2D (Renderer2D.background r)
  | WebGL r => WebGL (RendererWebGL.background r)
  end.

Definition fillCircle (center : V2.t) (radius : R) (color : Color.t) (this : Renderer)
    : Renderer :=
  match this with
  | Canvas2D r => Canvas2D (Renderer2D.fillCircle center radius color r)
  | WebGL r => WebGL (RendererWebGL.fillCircle center radius color r)
  end.

Definition fillMessage (text : option string) (color : Color.t) (this : Renderer)
    : result Renderer :=
  match this with
  | Canvas2D r =>
      match Renderer2D.fillMessage text color r with
      | Ok r => Ok (Canvas2D r)
      | Throw err => Throw err
      end
  | WebGL r => Ok (WebGL (RendererWebGL.fillMessage text color r))
  end.

(** [setViewport] of the frame loop; on a canvas the loop first sets the
    size of the canvas to that of the window. *)
Definition setViewport (width height : R) (this : Renderer) : Renderer :=
  match this with
  | Canvas2D r =>
      Canvas2D (Renderer2D.setViewport width height
                  (Renderer2D.mk (Renderer2D.cameraPos r) (Renderer2D.cameraVel r)
                     (Renderer2D.grayness r) (Renderer2D.unitsPerPixel r) width height))
  | WebGL r => WebGL r
  end.

End RendererI.

(** ** The environment *)

(** What the game reads and writes outside its own objects: the value
    stored under the key ["tutorial"] of [window.localStorage] ([None]
    when [getItem] returns [null]) and the number of calls made to
    [Math.random] so far.  The values that [Math.random] returns are a
    sequence [rnd : nat -> R], the [n]-th call returning [rnd n]; each is
    in the interval from 0 (included) to 1 (excluded). *)
Module Env.

Record t : Type := mk { localStorage : option string; draws : nat }.

Definition getItem (e : t) : option string := localStorage e.

Definition setItem (value : string) (e : t) : t := mk (Some value) (draws e).

Definition drawn (e : t) : t := mk (localStorage e) (S (draws e)).

Definition valid (rnd : nat -> R) : Prop := forall n, 0 <= rnd n < 1.

End Env.

(** [function randomBetween(min, max)] *)
Definition randomBetween (rnd : nat -> R) (range : R * R) (e : Env.t) : R * Env.t :=
  (rnd (Env.draws e) * (snd range - fst range) + fst range, Env.drawn e).

(** [const randomAngle] *)
Definition randomAngle (rnd : nat -> R) (e : Env.t) : R * Env.t :=
  randomBetween rnd (0, 2 * PI) e.

(** The number of times the body of [for (let i = 0; i < N; ++i)] runs:
    the number of naturals below [N] (see [loop_count_spec]). *)
Definition loop_count (N : R) : nat := Z.to_nat (Zceil N).

(** ** Values that are a number or a string *)

(** [Tutorial.state] is the number 0 or the string that [getItem]
    returned; the operators the code applies to it are those of
    JavaScript on such a value.  The strings the game stores are
    strings of decimal digits; [StringToNumber] reads these (the empty
    string as 0) and takes any other string for [NaN]. *)
Inductive jsval : Type :=
| VNum (n : Z)
| VStr (s : string).

Module JsVal.

Definition StringToNumber (s : string) : option Z :=
  option_map Z.of_uint (DecimalString.NilEmpty.uint_of_string s).

Definition NumberToString (n : Z) : string :=
  DecimalString.NilZero.string_of_int (Z.to_int n).

(** [String(v)] *)
Definition ToString (v : jsval) : string :=
  match v with
  | VNum n => NumberToString n
  | VStr s => s
  end.

(** [v == k] for a number [k] *)
Definition loose_eq (v : jsval) (k : Z) : bool :=
  match v with
  | VNum n => Z.eqb n k
  | VStr s =>
      match StringToNumber s with
      | Some n => Z.eqb n k
      | None => false
      end
  end.

(** [v += 1]: addition on a number, concatenation on a string. *)
Definition plus_one (v : jsval) : jsval :=
  match v with
  | VNum n => VNum (n + 1)
  | VStr s => VStr (s ++ "1")
  end.

(** [array[v]] on an array of strings, for [v] a number or a string of
    digits: the element whose index is written [String(v)], [undefined]
    when there is none. *)
Definition index (array : list string) (v : jsval) : option string :=
  match find (fun i => String.eqb (NumberToString (Z.of_nat i)) (ToString v))
             (seq 0 (length array)) with
  | Some i => array !! i
  | None => None
  end.

End JsVal.

(** ** class Particle *)
Module Particle.

Record t : Type := mk {
  pos : V2.t;
  vel : V2.t;
  lifetime : R;
  radius : R;
  color : Color.t;
}.

Definition render (renderer : Renderer) (this : t) : Renderer :=
  let a := lifetime this / PARTICLE_MAX_LIFETIME in
  RendererI.fillCircle (pos this) (radius this) (Color.withAlpha (color this) a) renderer.

Definition update (dt : R) (this : t) : t :=
  mk (V2.add (pos this) (V2.scale (vel this) dt))
     (vel this)
     (lifetime this - dt)
     (radius this)
     (color this).

End Particle.

(** The body of the loop of [particleBurst], run [n] times. *)
Fixpoint particleBurst_loop (rnd : nat -> R) (n : nat) (particles : list Particle.t)
    (center : V2.t) (color : Color.t) (e : Env.t) : list Particle.t * Env.t :=
  match n with
  | O => (particles, e)
  | S n' =>
      let '(mag, e) := randomBetween rnd PARTICLE_MAG_RANGE e in
      let '(dir, e) := randomAngle rnd e in
      let '(lifetime, e) := randomBetween rnd PARTICLE_LIFETIME_RANGE e in
      let '(radius, e) := randomBetween rnd PARTICLE_RADIUS_RANGE e in
      particleBurst_loop rnd n'
        (particles ++ [Particle.mk center (V2.polar mag dir) lifetime radius color])
        center color e
  end.

(** [function particleBurst(particles, center, color)] *)
Definition particleBurst (rnd : nat -> R) (particles : list Particle.t)
    (center : V2.t) (color : Color.t) (e : Env.t) : list Particle.t * Env.t :=
  let '(N, e) := randomBetween rnd PARTICLES_COUNT_RANGE e in
  particleBurst_loop rnd (loop_count N) particles center color e.

(** ** class Trail *)
Module Trail.

Record dot : Type := mkDot { pos : V2.t; a : R }.

Record t : Type := mk {
  trail : list dot;
  cooldown : R;
  disabled : bool;
  radius : R;
  color : Color.t;
  rate : R;
}.

Definition new (radius : R) (color : Color.t) (rate : R) : t :=
  mk [] 0 false radius color rate.

Definition set_disabled (d : bool) (this : t) : t :=
  mk (trail this) (cooldown this) d (radius this) (color this) (rate this).

Definition render (renderer : Renderer) (this : t) : Renderer :=
  foldl (fun renderer d =>
           RendererI.fillCircle (pos d) (radius this * a d)
             (Color.withAlpha (color this) (0.2 * a d)) renderer)
        renderer (trail this).

(** [while (trail.length > 0 && trail[0].a <= 0.0) trail.shift()] *)
Fixpoint shift_while (trail : list dot) : list dot :=
  match trail with
  | [] => []
  | d :: rest => if Rleb (a d) 0 then shift_while rest else trail
  end.

Definition update (dt : R) (this : t) : t :=
  let decayed := map (fun d => mkDot (pos d) (a d - rate this * dt)) (trail this) in
  mk (shift_while decayed) (cooldown this - dt) (disabled this)
     (radius this) (color this) (rate this).

Definition push (p : V2.t) (this : t) : t :=
  if negb (disabled this) && Rleb (cooldown this) 0 then
    mk (trail this ++ [mkDot p 1]) TRAIL_COOLDOWN (disabled this)
       (radius this) (color this) (rate this)
  else this.

End Trail.

(** ** class Enemy *)
Module Enemy.

Record t : Type := mk {
  trail : Trail.t;
  pos : V2.t;
  ded : bool;
  radius : R;
}.

Definition new (pos : V2.t) : t :=
  mk (Trail.new ENEMY_RADIUS ENEMY_COLOR ENEMY_TRAIL_RATE) pos false 0.

Definition set_ded (d : bool) (this : t) : t :=
  mk (trail this) (pos this) d (radius this).

Definition set_trail (tr : Trail.t) (this : t) : t :=
  mk tr (pos this) (ded this) (radius this).

Definition update (dt : R) (followPos : V2.t) (this : t) : t :=
  let vel := V2.scale (V2.normalize (V2.sub followPos (pos this))) (ENEMY_SPEED * dt) in
  let trail1 := Trail.push (pos this) (trail this) in
  let pos1 := V2.add (pos this) vel in
  let trail2 := Trail.update dt trail1 in
  let radius1 :=
    if Rltb (radius this) ENEMY_RADIUS
    then radius this + ENEMY_SPAWN_ANIMATION_SPEED * dt
    else ENEMY_RADIUS in
  mk trail2 pos1 (ded this) radius1.

Definition render (renderer : Renderer) (this : t) : Renderer :=
  RendererI.fillCircle (pos this) (radius this) ENEMY_COLOR
    (Trail.render renderer (trail this)).

End Enemy.

(** ** class Bullet *)
Module Bullet.

Record t : Type := mk {
  pos : V2.t;
  vel : V2.t;
  lifetime : R;
}.

Definition new (pos vel : V2.t) : t := mk pos vel BULLET_LIFETIME.

Definition set_lifetime (l : R) (this : t) : t := mk (pos this) (vel this) l.

Definition update (dt : R) (this : t) : t :=
  mk (V2.add (pos this) (V2.scale (vel this) dt)) (vel this) (lifetime this - dt).

Definition render (renderer : Renderer) (this : t) : Renderer :=
  RendererI.fillCircle (pos this) BULLET_RADIUS PLAYER_COLOR renderer.

End Bullet.

(** ** class TutorialPopup *)

(** The callbacks [onFadedOut] and [onFadedIn] are assigned once, by the
    constructor of [Tutorial], and read the tutorial at the time of the
    call: they are arguments of [update], [None] for [undefined]. *)
Module TutorialPopup.

Record t : Type := mk {
  alpha : R;
  dalpha : R;
  (** [None] when [TutorialMessages[state]] is [undefined] *)
  text : option string;
}.

Definition new (text : option string) : t := mk 0 0 text.

Definition set_text (text : option string) (this : t) : t :=
  mk (alpha this) (dalpha this) text.

Definition fadeIn (this : t) : t := mk (alpha this) TUTORIAL_POPUP_SPEED (text this).

Definition fadeOut (this : t) : t := mk (alpha this) (- TUTORIAL_POPUP_SPEED) (text this).

Definition call (f : option (t -> t)) (this : t) : t :=
  match f with
  | Some f => f this
  | None => this
  end.

Definition update (dt : R) (onFadedOut onFadedIn : option (t -> t)) (this : t) : t :=
  let alpha1 := alpha this + dalpha this * dt in
  if Rltb (dalpha this) 0 && Rleb alpha1 0 then
    call onFadedOut (mk 0 0 (text this))
  else if Rltb 0 (dalpha this) && Rleb 1 alpha1 then
    call onFadedIn (mk 1 0 (text this))
  else mk alpha1 (dalpha this) (text this).

Definition render (renderer : Renderer) (this : t) : result Renderer :=
  RendererI.fillMessage (text this) (Color.withAlpha MESSAGE_COLOR (alpha this)) renderer.

End TutorialPopup.

Module TutorialState.
Definition LearningMovement : Z := 0.
Definition LearningShooting : Z := 1.
Definition Finished : Z := 2.
End TutorialState.

(** [coarse] is [window.matchMedia("(pointer: coarse)").matches]. *)
Definition TutorialMessages (coarse : bool) : list string :=
  if coarse then
    ["Drag left side of screen to move";
     "Drag or tap right side of screen to shoot";
     ""]%string
  else
    ["WASD to move";
     "Left Mouse Click to shoot";
     ""]%string.

(** ** class Tutorial *)
Module Tutorial.

Record t : Type := mk {
  state : jsval;
  popup : TutorialPopup.t;
}.

Definition new (coarse : bool) (e : Env.t) : t :=
  let state :=
    match Env.getItem e with
    | Some s => VStr s
    | None => VNum 0
    end in
  mk state
     (TutorialPopup.fadeIn (TutorialPopup.new (JsVal.index (TutorialMessages coarse) state))).

(** The callback that the constructor assigns to [popup.onFadedOut]. *)
Definition onFadedOut (coarse : bool) (state : jsval) (popup : TutorialPopup.t) : TutorialPopup.t :=
  TutorialPopup.fadeIn
    (TutorialPopup.set_text (JsVal.index (TutorialMessages coarse) state) popup).

Definition update (coarse : bool) (dt : R) (this : t) : t :=
  mk (state this)
     (TutorialPopup.update dt (Some (onFadedOut coarse (state this))) None (popup this)).

Definition render (renderer : Renderer) (this : t) : result Renderer :=
  TutorialPopup.render renderer (popup this).

Definition playerMoved (this : t) (e : Env.t) : t * Env.t :=
  if JsVal.loose_eq (state this) TutorialState.LearningMovement then
    let state1 := JsVal.plus_one (state this) in
    (mk state1 (TutorialPopup.fadeOut (popup this)),
     Env.setItem (JsVal.ToString state1) e)
  else (this, e).

Definition playerShot (this : t) (e : Env.t) : t * Env.t :=
  if JsVal.loose_eq (state this) TutorialState.LearningShooting then
    let state1 := JsVal.plus_one (state this) in
    (mk state1 (TutorialPopup.fadeOut (popup this)),
     Env.setItem (JsVal.ToString state1) e)
  else (this, e).

End Tutorial.

(** ** class Player *)
Module Player.

Record t : Type := mk {
  health : R;
  target : V2.t;
  shootCooldown : R;
  lastShoot : R;
  trail : Trail.t;
  pos : V2.t;
  accuracy : Z;
  shootCount : Z;
  (** [shooting] is [undefined] until a handler assigns it; only its
      truth value is read, so [undefined] is [false] here. *)
  shooting : bool;
}.

Definition new (pos : V2.t) (e : Env.t) : t :=
  {| health := PLAYER_MAX_HEALTH;
     target := V2.mk 0 0;
     shootCooldown := PLAYER_SHOOT_COOLDOWN;
     lastShoot := 0;
     trail := Trail.new PLAYER_RADIUS PLAYER_COLOR PLAYER_TRAIL_RATE;
     pos := pos;
     accuracy := 0;
     shootCount :=
       match Env.getItem e with
       | Some s => if JsVal.loose_eq (VStr s) TutorialState.Finished then 0%Z else (-1)%Z
       | None => (-1)%Z
       end;
     shooting := false |}.

Definition set_health (h : R) (this : t) : t :=
  mk h (target this) (shootCooldown this) (lastShoot this) (trail this) (pos this)
     (accuracy this) (shootCount this) (shooting this).

Definition set_target (p : V2.t) (this : t) : t :=
  mk (health this) p (shootCooldown this) (lastShoot this) (trail this) (pos this)
     (accuracy this) (shootCount this) (shooting this).

Definition set_lastShoot (now : R) (this : t) : t :=
  mk (health this) (target this) (shootCooldown this) now (trail this) (pos this)
     (accuracy this) (shootCount this) (shooting this).

Definition set_trail (tr : Trail.t) (this : t) : t :=
  mk (health this) (target this) (shootCooldown this) (lastShoot this) tr (pos this)
     (accuracy this) (shootCount this) (shooting this).

Definition set_accuracy (n : Z) (this : t) : t :=
  mk (health this) (target this) (shootCooldown this) (lastShoot this) (trail this) (pos this)
     n (shootCount this) (shooting this).

Definition set_shooting (s : bool) (this : t) : t :=
  mk (health this) (target this) (shootCooldown this) (lastShoot this) (trail this) (pos this)
     (accuracy this) (shootCount this) s.

Definition update (dt : R) (vel : V2.t) (this : t) : t :=
  let trail1 := Trail.push (pos this) (trail this) in
  let pos1 := V2.add (pos this) (V2.scale vel dt) in
  let trail2 := Trail.update dt trail1 in
  mk (health this) (target this) (shootCooldown this) (lastShoot this) trail2 pos1
     (accuracy this) (shootCount this) (shooting this).

Definition render (renderer : Renderer) (this : t) : Renderer :=
  let renderer := Trail.render renderer (trail this) in
  if Rltb 0 (health this)
  then RendererI.fillCircle (pos this) PLAYER_RADIUS PLAYER_COLOR renderer
  else renderer.

(** [shoot()] returns the bullet; the player is returned with its
    [shootCount] incremented. *)
Definition shoot (this : t) : Bullet.t * t :=
  let bulletDir := V2.normalize (V2.sub (target this) (pos this)) in
  let bulletVel := V2.scale bulletDir BULLET_SPEED in
  let bulletPos := V2.add (pos this) (V2.scale bulletDir (PLAYER_RADIUS + BULLET_RADIUS)) in
  (Bullet.new bulletPos bulletVel,
   mk (health this) (target this) (shootCooldown this) (lastShoot this) (trail this) (pos this)
      (accuracy this) (shootCount this + 1) (shooting this)).

Definition damage (value : R) (this : t) : t :=
  set_health (Rmax (health this - value) 0) this.

Definition heal (value : R) (this : t) : t :=
  if Rltb 0 (health this)
  then set_health (Rmin (health this + value) PLAYER_MAX_HEALTH) this
  else this.

End Player.

(** ** class Game *)

(** A touch of [event.changedTouches]. *)
Record Touch : Type := mkTouch { identifier : Z; clientX : R; clientY : R }.

Module Game.

Record t : Type := mk {
  player : Player.t;
  score : Z;
  mousePos : V2.t;
  movingTouchId : option Z;
  movingTouchStart : V2.t;
  movingTouchDirection : V2.t;
  shootingTouchId : option Z;
  shootingTouchStart : V2.t;
  shootingTouchDirection : V2.t;
  (** a [Set] of key codes, in the order of insertion *)
  pressedKeys : list string;
  tutorial : Tutorial.t;
  bullets : list Bullet.t;
  enemies : list Enemy.t;
  particles : list Particle.t;
  enemySpawnRate : R;
  enemySpawnCooldown : R;
  paused : bool;
  renderer : Renderer;
  (** the field [camera] that [mouseMove] reads: [None] is [undefined] *)
  camera : option Renderer;
}.

Definition set_player (v : Player.t) (g : t) : t :=
  mk v (score g) (mousePos g) (movingTouchId g) (movingTouchStart g)
     (movingTouchDirection g) (shootingTouchId g) (shootingTouchStart g)
     (shootingTouchDirection g) (pressedKeys g) (tutorial g) (bullets g) (enemies g)
     (particles g) (enemySpawnRate g) (enemySpawnCooldown g) (paused g) (renderer g)
     (camera g).

Definition set_score (v : Z) (g : t) : t :=
  mk (player g) v (mousePos g) (movingTouchId g) (movingTouchStart g)
     (movingTouchDirection g) (shootingTouchId g) (shootingTouchStart g)
     (shootingTouchDirection g) (pressedKeys g) (tutorial g) (bullets g) (enemies g)
     (particles g) (enemySpawnRate g) (enemySpawnCooldown g) (paused g) (renderer g)
     (camera g).

Definition set_movingTouch (id : option Z) (start direction : V2.t) (g : t) : t :=
  mk (player g) (score g) (mousePos g) id start
     direction (shootingTouchId g) (shootingTouchStart g)
     (shootingTouchDirection g) (pressedKeys g) (tutorial g) (bullets g) (enemies g)
     (particles g) (enemySpawnRate g) (enemySpawnCooldown g) (paused g) (renderer g)
     (camera g).

Definition set_shootingTouch (id : option Z) (start direction : V2.t) (g : t) : t :=
  mk (player g) (score g) (mousePos g) (movingTouchId g) (movingTouchStart g)
     (movingTouchDirection g) id start
     direction (pressedKeys g) (tutorial g) (bullets g) (enemies g)
     (particles g) (enemySpawnRate g) (enemySpawnCooldown g) (paused g) (renderer g)
     (camera g).

Definition set_pressedKeys (v : list string) (g : t) : t :=
  mk (player g) (score g) (mousePos g) (movingTouchId g) (movingTouchStart g)
     (movingTouchDirection g) (shootingTouchId g) (shootingTouchStart g)
     (shootingTouchDirection g) v (tutorial g) (bullets g) (enemies g)
     (particles g) (enemySpawnRate g) (enemySpawnCooldown g) (paused g) (renderer g)
     (camera g).

Definition set_tutorial (v : Tutorial.t) (g : t) : t :=
  mk (player g) (score g) (mousePos g) (movingTouchId g) (movingTouchStart g)
     (movingTouchDirection g) (shootingTouchId g) (shootingTouchStart g)
     (shootingTouchDirection g) (pressedKeys g) v (bullets g) (enemies g)
     (particles g) (enemySpawnRate g) (enemySpawnCooldown g) (paused g) (renderer g)
     (camera g).

Definition set_bullets (v : list Bullet.t) (g : t) : t :=
  mk (player g) (score g) (mousePos g) (movingTouchId g) (movingTouchStart g)
     (movingTouchDirection g) (shootingTouchId g) (shootingTouchStart g)
     (shootingTouchDirection g) (pressedKeys g) (tutorial g) v (enemies g)
     (particles g) (enemySpawnRate g) (enemySpawnCooldown g) (paused g) (renderer g)
     (camera g).

Definition set_enemies (v : list Enemy.t) (g : t) : t :=
  mk (player g) (score g) (mousePos g) (movingTouchId g) (movingTouchStart g)
     (movingTouchDirection g) (shootingTouchId g) (shootingTouchStart g)
     (shootingTouchDirection g) (pressedKeys g) (tutorial g) (bullets g) v
     (particles g) (enemySpawnRate g) (enemySpawnCooldown g) (paused g) (renderer g)
     (camera g).

Definition set_particles (v : list Particle.t) (g : t) : t :=
  mk (player g) (score g) (mousePos g) (movingTouchId g) (movingTouchStart g)
     (movingTouchDirection g) (shootingTouchId g) (shootingTouchStart g)
     (shootingTouchDirection g) (pressedKeys g) (tutorial g) (bullets g) (enemies g)
     v (enemySpawnRate g) (enemySpawnCooldown g) (paused g) (renderer g)
     (camera g).

Definition set_enemySpawnRate (v : R) (g : t) : t :=
  mk (player g) (score g) (mousePos g) (movingTouchId g) (movingTouchStart g)
     (movingTouchDirection g) (shootingTouchId g) (shootingTouchStart g)
     (shootingTouchDirection g) (pressedKeys g) (tutorial g) (bullets g) (enemies g)
     (particles g) v (enemySpawnCooldown g) (paused g) (renderer g)
     (camera g).

Definition set_enemySpawnCooldown (v : R) (g : t) : t :=
  mk (player g) (score g) (mousePos g) (movingTouchId g) (movingTouchStart g)
     (movingTouchDirection g) (shootingTouchId g) (shootingTouchStart g)
     (shootingTouchDirection g) (pressedKeys g) (tutorial g) (bullets g) (enemies g)
     (particles g) (enemySpawnRate g) v (paused g) (renderer g)
     (camera g).

Definition set_paused (v : bool) (g : t) : t :=
  mk (player g) (score g) (mousePos g) (movingTouchId g) (movingTouchStart g)
     (movingTouchDirection g) (shootingTouchId g) (shootingTouchStart g)
     (shootingTouchDirection g) (pressedKeys g) (tutorial g) (bullets g) (enemies g)
     (particles g) (enemySpawnRate g) (enemySpawnCooldown g) v (renderer g)
     (camera g).

Definition set_renderer (v : Renderer) (g : t) : t :=
  mk (player g) (score g) (mousePos g) (movingTouchId g) (movingTouchStart g)
     (movingTouchDirection g) (shootingTouchId g) (shootingTouchStart g)
     (shootingTouchDirection g) (pressedKeys g) (tutorial g) (bullets g) (enemies g)
     (particles g) (enemySpawnRate g) (enemySpawnCooldown g) (paused g) v
     (camera g).

Section Methods.

(** [Math.random] and [matchMedia("(pointer: coarse)").matches] *)
Variable rnd : nat -> R.
Variable coarse : bool.

(** The assignments of [restart()], on an object whose fields [renderer]
    and [camera] are as given: [restart] assigns neither. *)
Definition restart_fields (renderer : Renderer) (camera : option Renderer) (e : Env.t) : t :=
  {| player := Player.new (V2.mk 0 0) e;
     score := 0;
     mousePos := V2.mk 0 0;
     movingTouchId := None;
     movingTouchStart := V2.mk 0 0;
     movingTouchDirection := V2.mk 0 0;
     shootingTouchId := None;
     shootingTouchStart := V2.mk 0 0;
     shootingTouchDirection := V2.mk 0 0;
     pressedKeys := [];
     tutorial := Tutorial.new coarse e;
     bullets := [];
     enemies := [];
     particles := [];
     enemySpawnRate := ENEMY_SPAWN_COOLDOWN;
     enemySpawnCooldown := ENEMY_SPAWN_COOLDOWN;
     paused := false;
     renderer :=
       RendererI.set_cameraVel (V2.mk 0 0) (RendererI.set_cameraPos (V2.mk 0 0) renderer);
     camera := camera |}.

Definition restart (this : t) (e : Env.t) : t :=
  restart_fields (renderer this) (camera this) e.

(** [new Game(renderer)] *)
Definition new (renderer : Renderer) (e : Env.t) : t :=
  restart_fields renderer None e.

(** [update], lines 827-834: the velocity asked by the pressed keys. *)
Definition keysVelocity (this : t) : V2.t * bool :=
  foldl (fun '(vel, moved) key =>
           match directionMap key with
           | Some d => (V2.add vel d, true)
           | None => (vel, moved)
           end)
        (V2.mk 0 0, false) (pressedKeys this).

(** [update], lines 841-848, when [player.shooting] holds; [now_ms] is
    the value of [performance.now()]. *)
Definition shootStep (now_ms : R) (this : t) (e : Env.t) : t * Env.t :=
  let now := now_ms / 1000 in
  if Rltb (Player.shootCooldown (player this)) (now - Player.lastShoot (player this)) then
    let this := set_player (Player.set_lastShoot now (player this)) this in
    let '(tut, e) := Tutorial.playerShot (tutorial this) e in
    let this := set_tutorial tut this in
    let '(bullet, p) := Player.shoot (player this) in
    (set_bullets (bullets this ++ [bullet]) (set_player p this), e)
  else (this, e).

(** [update], lines 855-862: the body of the scan of the bullets, for
    the enemy at index [i] and the bullet at index [j]. *)
Definition hitBullet (i j : nat) (s : t * Env.t) : t * Env.t :=
  let '(this, e) := s in
  match enemies this !! i, bullets this !! j with
  | Some enemy, Some bullet =>
      if Rleb (V2.dist (Enemy.pos enemy) (Bullet.pos bullet)) (BULLET_RADIUS + ENEMY_RADIUS)
      then
        let this := set_score (score this + ENEMY_KILL_SCORE) this in
        let this := set_player (Player.heal ENEMY_KILL_HEAL (player this)) this in
        let this :=
          set_player (Player.set_accuracy (Player.accuracy (player this) + 1) (player this))
                     this in
        let this := set_bullets (alter (Bullet.set_lifetime 0) j (bullets this)) this in
        let this := set_enemies (alter (Enemy.set_ded true) i (enemies this)) this in
        let '(ps, e) := particleBurst rnd (particles this) (Enemy.pos enemy) ENEMY_COLOR e in
        (set_particles ps this, e)
      else s
  | _, _ => s
  end.

(** [update], lines 853-864: [for (let bullet of this.bullets)] under
    [if (!enemy.ded)]. *)
Definition scanBullets (i : nat) (s : t * Env.t) : t * Env.t :=
  match enemies (fst s) !! i with
  | Some enemy =>
      if negb (Enemy.ded enemy)
      then foldl (fun s j => hitBullet i j s) s (seq 0 (length (bullets (fst s))))
      else s
  | None => s
  end.

(** [update], lines 866-878: the enemy at index [i] against the player. *)
Definition hitPlayer (i : nat) (s : t * Env.t) : t * Env.t :=
  let '(this, e) := s in
  match enemies this !! i with
  | Some enemy =>
      if Rltb 0 (Player.health (player this)) && negb (Enemy.ded enemy) then
        if Rleb (V2.dist (Enemy.pos enemy) (Player.pos (player this)))
                (PLAYER_RADIUS + ENEMY_RADIUS)
        then
          let this := set_player (Player.damage ENEMY_DAMAGE (player this)) this in
          let this :=
            if Rleb (Player.health (player this)) 0 then
              let this :=
                set_player
                  (Player.set_trail (Trail.set_disabled true (Player.trail (player this)))
                                    (player this))
                  this in
              set_enemies
                (map (fun en => Enemy.set_trail (Trail.set_disabled true (Enemy.trail en)) en)
                     (enemies this))
                this
            else this in
          let this := set_enemies (alter (Enemy.set_ded true) i (enemies this)) this in
          let '(ps, e) := particleBurst rnd (particles this) (Enemy.pos enemy) PLAYER_COLOR e in
          (set_particles ps this, e)
        else s
      else s
  | None => s
  end.

(** [update], lines 852-879: [for (let enemy of this.enemies)]. *)
Definition collisions (s : t * Env.t) : t * Env.t :=
  foldl (fun s i => hitPlayer i (scanBullets i s)) s (seq 0 (length (enemies (fst s)))).

(** [update], lines 881-896 *)
Definition prune (dt : R) (this : t) : t :=
  let this :=
    set_bullets
      (List.filter (fun bullet => Rltb 0 (Bullet.lifetime bullet))
                   (map (Bullet.update dt) (bullets this)))
      this in
  let this :=
    set_particles
      (List.filter (fun particle => Rltb 0 (Particle.lifetime particle))
                   (map (Particle.update dt) (particles this)))
      this in
  set_enemies
    (List.filter
       (fun enemy =>
          negb (Enemy.ded enemy)
          && Rltb (V2.dist (Enemy.pos enemy) (Player.pos (player this))) ENEMY_DESPAWN_DISTANCE)
       (map (Enemy.update dt (Player.pos (player this))) (enemies this)))
    this.

Definition spawnEnemy (this : t) (e : Env.t) : t * Env.t :=
  let '(dir, e) := randomAngle rnd e in
  (set_enemies
     (enemies this
      ++ [Enemy.new (V2.add (Player.pos (player this)) (V2.polar ENEMY_SPAWN_DISTANCE dir))])
     this,
   e).

(** [update], lines 898-905 *)
Definition spawnStep (dt : R) (this : t) (e : Env.t) : t * Env.t :=
  if JsVal.loose_eq (Tutorial.state (tutorial this)) TutorialState.Finished then
    let this := set_enemySpawnCooldown (enemySpawnCooldown this - dt) this in
    if Rleb (enemySpawnCooldown this) 0 then
      let '(this, e) := spawnEnemy this e in
      let this := set_enemySpawnCooldown (enemySpawnRate this) this in
      (set_enemySpawnRate (enemySpawnRate this / ENEMY_SPAWN_GROWTH) this, e)
    else (this, e)
  else (this, e).

(** [update], lines 817-896: what a call that is not paused does before
    it comes to the spawn of enemies; the frame time that the rest of
    the call uses is returned with the game. *)
Definition simulate (now_ms : R) (dt : R) (this : t) (e : Env.t) : R * t * Env.t :=
  let this :=
    set_renderer
      (RendererI.set_grayness (1 - Player.health (player this) / PLAYER_MAX_HEALTH)
                              (renderer this))
      this in
  let dt := if Rleb (Player.health (player this)) 0 then dt / 50 else dt in
  let this :=
    set_renderer
      (RendererI.update dt (RendererI.setTarget (Player.pos (player this)) (renderer this)))
      this in
  let '(vel, moved) := keysVelocity this in
  let vel := V2.scale (V2.normalize (V2.add vel (movingTouchDirection this))) PLAYER_SPEED in
  let '(this, e) :=
    if moved : bool then
      let '(tut, e) := Tutorial.playerMoved (tutorial this) e in
      (set_tutorial tut this, e)
    else (this, e) in
  let this := set_player (Player.update dt vel (player this)) this in
  let '(this, e) :=
    if Player.shooting (player this) then shootStep now_ms this e else (this, e) in
  let this := set_tutorial (Tutorial.update coarse dt (tutorial this)) this in
  let '(this, e) := collisions (this, e) in
  (dt, prune dt this, e).

(** [update(dt)]; [now_ms] is what [performance.now()] returns if the
    call reads it. *)
Definition update (now_ms : R) (dt : R) (this : t) (e : Env.t) : t * Env.t :=
  if paused this then
    (set_renderer (RendererI.set_grayness 1 (renderer this)) this, e)
  else
    let '(dt, this, e) := simulate now_ms dt this e in
    spawnStep dt this e.

(** [render()]: only the renderer changes.  The text of the two fixed
    messages is a string; its content does not matter to the renderer
    ([present] changes no field either). *)
Definition render (this : t) : result t :=
  let r := RendererI.clear (renderer this) in
  let r := RendererI.background r in
  let r := Player.render r (player this) in
  let r := foldl Bullet.render r (bullets this) in
  let r := foldl Particle.render r (particles this) in
  let r := foldl Enemy.render r (enemies this) in
  let message :=
    if paused this then
      RendererI.fillMessage (Some "PAUSED (SPACE or touch to resume)"%string) MESSAGE_COLOR r
    else if Rleb (Player.health (player this)) 0 then
      RendererI.fillMessage (Some "YOUR SCORE"%string) MESSAGE_COLOR r
    else Tutorial.render r (tutorial this) in
  match message with
  | Ok r => Ok (set_renderer r this)
  | Throw err => Throw err
  end.

Definition togglePause (this : t) : t := set_paused (negb (paused this)) this.

(** [pressedKeys.add(code)] and [pressedKeys.delete(code)] *)
Definition Set_add (code : string) (keys : list string) : list string :=
  if existsb (String.eqb code) keys then keys else keys ++ [code].

Definition Set_delete (code : string) (keys : list string) : list string :=
  List.filter (fun k => negb (String.eqb code k)) keys.

Definition keyDown (code : string) (this : t) (e : Env.t) : t :=
  if Rleb (Player.health (player this)) 0 && String.eqb code "Space" then
    restart this e
  else
    let this := if String.eqb code "Space" then togglePause this else this in
    set_pressedKeys (Set_add code (pressedKeys this)) this.

Definition keyUp (code : string) (this : t) : t :=
  set_pressedKeys (Set_delete code (pressedKeys this)) this.

(** A handler that raises leaves the game as it was: the handlers below
    raise before their first assignment. *)
Definition mouseMove (offsetX offsetY : R) (this : t) : result t :=
  if negb (paused this) && Player.shooting (player this) then
    let mousePos := V2.mk offsetX offsetY in
    match camera this with
    | None =>
        Throw (TypeError "Cannot read properties of undefined (reading 'screenToWorld')")
    | Some camera =>
        match RendererI.screenToWorld mousePos camera with
        | Ok p => Ok (set_player (Player.set_target p (player this)) this)
        | Throw err => Throw err
        end
    end
  else Ok this.

Definition mouseDown (offsetX offsetY : R) (this : t) : result t :=
  if paused this then Ok (set_paused false this)
  else if Rleb (Player.health (player this)) 0 then Ok this
  else
    let mousePos := V2.mk offsetX offsetY in
    match RendererI.screenToWorld mousePos (renderer this) with
    | Ok p =>
        let this := set_player (Player.set_target p (player this)) this in
        Ok (set_player (Player.set_shooting true (player this)) this)
    | Throw err => Throw err
    end.

Definition mouseUp (this : t) : t :=
  set_player (Player.set_shooting false (player this)) this.

(** [touch.identifier === id], where [id] may be [undefined] *)
Definition same_touch (touch : Touch) (id : option Z) : bool :=
  match id with
  | Some n => Z.eqb (identifier touch) n
  | None => false
  end.

Definition touchMove (changedTouches : list Touch) (this : t) : t :=
  foldl
    (fun this touch =>
       let this :=
         if same_touch touch (movingTouchId this) then
           set_movingTouch (movingTouchId this) (movingTouchStart this)
             (V2.sub (V2.mk (clientX touch) (clientY touch)) (movingTouchStart this))
             this
         else this in
       if same_touch touch (shootingTouchId this) then
         let this :=
           set_shootingTouch (shootingTouchId this) (shootingTouchStart this)
             (V2.scale (V2.sub (V2.mk (clientX touch) (clientY touch)) (shootingTouchStart this))
                       1000)
             this in
         let this :=
           set_player
             (Player.set_target (V2.add (Player.pos (player this)) (shootingTouchDirection this))
                                (player this))
             this in
         set_player (Player.set_shooting true (player this)) this
       else this)
    this changedTouches.

(** [innerWidth] is [window.innerWidth]. *)
Definition touchDown (innerWidth : R) (changedTouches : list Touch) (this : t) (e : Env.t)
    : t * Env.t :=
  if paused this then (set_paused false this, e)
  else if Rleb (Player.health (player this)) 0 then (restart this e, e)
  else
    let '(tut, e) := Tutorial.playerMoved (tutorial this) e in
    let this := set_tutorial tut this in
    (foldl
       (fun this touch =>
          if Rltb (clientX touch) (innerWidth / 2) then
            match movingTouchId this with
            | None =>
                set_movingTouch (Some (identifier touch))
                  (V2.mk (clientX touch) (clientY touch)) (movingTouchDirection this) this
            | Some _ => this
            end
          else
            match shootingTouchId this with
            | None =>
                set_shootingTouch (Some (identifier touch))
                  (V2.mk (clientX touch) (clientY touch)) (shootingTouchDirection this) this
            | Some _ => this
            end)
       this changedTouches,
     e).

Definition touchUp (changedTouches : list Touch) (this : t) : t :=
  foldl
    (fun this touch =>
       let this :=
         if same_touch touch (movingTouchId this) then
           set_movingTouch None (movingTouchStart this) (V2.mk 0 0) this
         else this in
       if same_touch touch (shootingTouchId this) then
         let this :=
           set_shootingTouch None (shootingTouchStart this) (shootingTouchDirection this) this in
         set_player (Player.set_shooting false (player this)) this
       else this)
    this changedTouches.

(** The listener of [blur] in the start-up code. *)
Definition blur (this : t) : t :=
  if Rltb 0 (Player.health (player this)) then set_paused true this else this.

(** The calls that reach the game: [update] and [render] from the frame
    loop, with the change of viewport that the loop makes after a
    resize, and the listeners. *)
Inductive event : Type :=
| Update (now_ms dt : R)
| Render
| Resize (width height : R)
| KeyDown (code : string)
| KeyUp (code : string)
| MouseMove (offsetX offsetY : R)
| MouseDown (offsetX offsetY : R)
| MouseUp
| TouchMove (changedTouches : list Touch)
| TouchDown (innerWidth : R) (changedTouches : list Touch)
| TouchUp (changedTouches : list Touch)
| Blur.

Definition handle (ev : event) (s : t * Env.t) : result (t * Env.t) :=
  let '(this, e) := s in
  match ev with
  | Update now_ms dt => Ok (update now_ms dt this e)
  | Render =>
      match render this with
      | Ok this => Ok (this, e)
      | Throw err => Throw err
      end
  | Resize width height =>
      Ok (set_renderer (RendererI.setViewport width height (renderer this)) this, e)
  | KeyDown code => Ok (keyDown code this e, e)
  | KeyUp code => Ok (keyUp code this, e)
  | MouseMove offsetX offsetY =>
      match mouseMove offsetX offsetY this with
      | Ok this => Ok (this, e)
      | Throw err => Throw err
      end
  | MouseDown offsetX offsetY =>
      match mouseDown offsetX offsetY this with
      | Ok this => Ok (this, e)
      | Throw err => Throw err
      end
  | MouseUp => Ok (mouseUp this, e)
  | TouchMove changedTouches => Ok (touchMove changedTouches this, e)
  | TouchDown innerWidth changedTouches => Ok (touchDown innerWidth changedTouches this e)
  | TouchUp changedTouches => Ok (touchUp changedTouches this, e)
  | Blur => Ok (blur this, e)
  end.

(** A call that raises leaves the game and the environment as they
    were. *)
Definition step (s : t * Env.t) (ev : event) : t * Env.t :=
  match handle ev s with
  | Ok s' => s'
  | Throw _ => s
  end.

Definition run (evs : list event) (s : t * Env.t) : t * Env.t := foldl step s evs.

End Methods.

End Game.

(** ** The start-up code *)

(** The frame loop and the listeners that the start-up code installs
    (lines 1046-1150).  [start] is the time of the last frame ([None]
    for [undefined]) and [windowWasResized] the flag that the listener
    of [resize] sets.  [scheduled] tells whether a call of [step] is
    requested: [step] requests the next call as its last statement,
    which a call that raises does not reach.  The listener of
    [orientationchange] asks for the full screen and touches nothing
    of the game; it is left out. *)
Module Loop.

Record t : Type := mk {
  game : Game.t;
  env : Env.t;
  start : option R;
  windowWasResized : bool;
  scheduled : bool;
}.

(** What the browser delivers: a frame, with the readings of
    [performance.now()], [window.innerWidth] and [window.innerHeight]
    that the call makes, or an event to one of the listeners. *)
Inductive input : Type :=
| AnimationFrame (timestamp now_ms innerWidth innerHeight : R)
| Keydown (code : string)
| Keyup (code : string)
| Mousemove (offsetX offsetY : R)
| Mousedown (offsetX offsetY : R)
| Mouseup
| Touchmove (changedTouches : list Touch)
| Touchstart (innerWidth : R) (changedTouches : list Touch)
| Touchend (changedTouches : list Touch)
| Resize
| Blur
| Focus (now_ms : R).

Section Methods.

Variable rnd : nat -> R.
Variable coarse : bool.

(** The state when the start-up code has run. *)
Definition init (renderer : Renderer) (e : Env.t) : t :=
  mk (Game.new coarse renderer e) e None true true.

(** [dt] of [step(timestamp)] *)
Definition dt (timestamp : R) (l : t) : R :=
  let start :=
    match start l with
    | Some start => start
    | None => timestamp
    end in
  (timestamp - start) * 0.001.

(** [step(timestamp)] *)
Definition step (timestamp now_ms innerWidth innerHeight : R) (l : t) : t :=
  let dt := dt timestamp l in
  let g :=
    if windowWasResized l then
      Game.set_renderer
        (RendererI.setViewport innerWidth innerHeight (Game.renderer (game l))) (game l)
    else game l in
  let '(g, e) := Game.update rnd coarse now_ms dt g (env l) in
  match Game.render g with
  | Ok g => mk g e (Some timestamp) false true
  | Throw _ => mk g e (Some timestamp) false false
  end.

(** A listener that calls a method of the game. *)
Definition listener (ev : Game.event) (l : t) : t :=
  let '(g, e) := Game.step rnd coarse (game l, env l) ev in
  mk g e (start l) (windowWasResized l) (scheduled l).

Definition handle (l : t) (i : input) : t :=
  match i with
  | AnimationFrame timestamp now_ms innerWidth innerHeight =>
      if scheduled l then step timestamp now_ms innerWidth innerHeight l else l
  | Keydown code => listener (Game.KeyDown code) l
  | Keyup code => listener (Game.KeyUp code) l
  | Mousemove offsetX offsetY => listener (Game.MouseMove offsetX offsetY) l
  | Mousedown offsetX offsetY => listener (Game.MouseDown offsetX offsetY) l
  | Mouseup => listener Game.MouseUp l
  | Touchmove changedTouches => listener (Game.TouchMove changedTouches) l
  | Touchstart innerWidth changedTouches =>
      listener (Game.TouchDown innerWidth changedTouches) l
  | Touchend changedTouches => listener (Game.TouchUp changedTouches) l
  | Resize => mk (game l) (env l) (start l) true (scheduled l)
  | Blur => listener Game.Blur l
  | Focus now_ms =>
      mk (game l) (env l) (Some (now_ms - 1000 / 60)) (windowWasResized l) (scheduled l)
  end.

Definition run (inputs : list input) (l : t) : t := foldl handle l inputs.

End Methods.

End Loop.

(** ** Properties *)

Lemma Rleb_true a b : Rleb a b = true <-> a <= b.
Proof. unfold Rleb. destruct (Rle_dec a b); split; auto; discriminate. Qed.

Lemma Rleb_false a b : Rleb a b = false <-> b < a.
Proof. unfold Rleb. destruct (Rle_dec a b); split; try discriminate; auto; lra. Qed.

Lemma Rltb_true a b : Rltb a b = true <-> a < b.
Proof. unfold Rltb. destruct (Rlt_dec a b); split; auto; discriminate. Qed.

Lemma Rltb_false a b : Rltb a b = false <-> b <= a.
Proof. unfold Rltb. destruct (Rlt_dec a b); split; try discriminate; auto; lra. Qed.

Lemma Reqb_true a b : Reqb a b = true <-> a = b.
Proof. unfold Reqb. destruct (Req_dec_T a b); split; auto; discriminate. Qed.

Lemma Reqb_false a b : Reqb a b = false <-> a <> b.
Proof. unfold Reqb. destruct (Req_dec_T a b); split; auto; try discriminate; contradiction. Qed.

(** [loop_count N] is the number of naturals below [N]. *)
Lemma loop_count_spec (N : R) (i : nat) : (i < loop_count N)%nat <-> INR i < N.
Proof.
  unfold loop_count. pose proof (Zceil_bound N) as [Hlo Hhi].
  rewrite INR_IZR_INZ. split; intros H.
  - assert (Hz : (Z.of_nat i < Zceil N)%Z) by lia.
    assert (Hr : IZR (Z.of_nat i) <= IZR (Zceil N) - 1).
    { rewrite <- minus_IZR. apply IZR_le. lia. }
    lra.
  - assert (Hr : IZR (Z.of_nat i) < IZR (Zceil N)) by lra.
    apply lt_IZR in Hr. lia.
Qed.

(** A burst has at most 50 particles. *)
Lemma particles_count_bound rnd e :
  Env.valid rnd ->
  (loop_count (fst (randomBetween rnd PARTICLES_COUNT_RANGE e)) <= 50)%nat.
Proof.
  intros Hv. destruct (Hv (Env.draws e)) as [H0 H1].
  unfold randomBetween, PARTICLES_COUNT_RANGE. cbn [fst snd].
  destruct (Nat.le_gt_cases (loop_count (rnd (Env.draws e) * (50 - 0) + 0)) 50) as [H|H];
    [exact H|].
  apply loop_count_spec in H. cbn [INR] in H. lra.
Qed.

Module V2Facts.
Import V2.

Lemma len_nonneg v : 0 <= len v.
Proof. apply sqrt_pos. Qed.

Lemma normalize_nonzero v :
  len v <> 0 -> normalize v = mk (x v / len v) (y v / len v).
Proof.
  intros Hn. unfold normalize. cbv zeta.
  apply Reqb_false in Hn. now rewrite Hn.
Qed.

Lemma normalize_zero_len v : len v = 0 -> normalize v = mk 0 0.
Proof.
  intros Hn. unfold normalize. cbv zeta.
  apply Reqb_true in Hn. now rewrite Hn.
Qed.

Lemma len_sq v : len v * len v = x v * x v + y v * y v.
Proof. unfold len. apply sqrt_sqrt. nra. Qed.




(** *** Lengths and distances *)

Lemma len_zero_inv v : len v = 0 -> v = mk 0 0.
Proof.
  intros H. pose proof (len_sq v) as Hsq. rewrite H in Hsq.
  destruct v as [a b]. cbn [x y] in Hsq.
  assert (a = 0) by nra. assert (b = 0) by nra. now subst.
Qed.

Lemma len_normalize v : v <> mk 0 0 -> len (normalize v) = 1.
Proof.
  intros Hv.
  assert (Hn : len v <> 0) by (intros H0; apply Hv; now apply len_zero_inv).
  rewrite (normalize_nonzero v Hn).
  pose proof (len_sq v) as Hsq. unfold len at 1. cbn [x y].
  replace (x v / len v * (x v / len v) + y v / len v * (y v / len v))
    with ((x v * x v + y v * y v) / (len v * len v)) by (field; assumption).
  rewrite <- Hsq. replace (len v * len v / (len v * len v)) with 1 by (field; assumption).
  apply sqrt_1.
Qed.

Lemma normalize_zero : normalize (mk 0 0) = mk 0 0.
Proof.
  apply normalize_zero_len. unfold len. cbn [x y].
  replace (0 * 0 + 0 * 0) with 0 by ring. apply sqrt_0.
Qed.

Lemma len_scale v s : len (scale v s) = Rabs s * len v.
Proof.
  unfold len, scale. cbn [x y].
  replace (x v * s * (x v * s) + y v * s * (y v * s))
    with (Rsqr s * (x v * x v + y v * y v)) by (unfold Rsqr; ring).
  rewrite sqrt_mult; [|apply Rle_0_sqr|nra].
  now rewrite sqrt_Rsqr_abs.
Qed.

Lemma len_polar mag dir : len (polar mag dir) = Rabs mag.
Proof.
  unfold len, polar. cbn [x y].
  replace (cos dir * mag * (cos dir * mag) + sin dir * mag * (sin dir * mag))
    with (Rsqr mag * (Rsqr (sin dir) + Rsqr (cos dir))) by (unfold Rsqr; ring).
  rewrite sin2_cos2, Rmult_1_r. apply sqrt_Rsqr_abs.
Qed.

Lemma sub_eq_zero p q : sub p q = mk 0 0 <-> p = q.
Proof.
  destruct p as [a b], q as [c d]. unfold sub. cbn [x y]. split.
  - intros [= H1 H2]. f_equal; lra.
  - intros [= -> ->]. f_equal; ring.
Qed.

Lemma add_sub_cancel p v : sub (add p v) p = v.
Proof.
  destruct p as [a b], v as [c d]. unfold sub, add. cbn [x y]. f_equal; ring.
Qed.

Lemma dist_add p v : dist (add p v) p = len v.
Proof. unfold dist. now rewrite add_sub_cancel. Qed.

Lemma dist_sym p q : dist p q = dist q p.
Proof. unfold dist, len, sub. cbn [x y]. f_equal. ring. Qed.

Lemma dist_zero p q : dist p q = 0 <-> p = q.
Proof.
  split.
  - intros H. apply len_zero_inv in H. now apply sub_eq_zero.
  - intros ->. unfold dist.
    replace (sub q q) with (mk 0 0) by (symmetry; now apply sub_eq_zero).
    unfold len. cbn [x y]. replace (0 * 0 + 0 * 0) with 0 by ring. apply sqrt_0.
Qed.

Lemma len_add_le u v : len (add u v) <= len u + len v.
Proof.
  pose proof (len_nonneg u) as Hu. pose proof (len_nonneg v) as Hv.
  pose proof (len_nonneg (add u v)) as Huv.
  pose proof (len_sq u) as Su. pose proof (len_sq v) as Sv.
  assert (Suv : len (add u v) * len (add u v)
                = (x u + x v) * (x u + x v) + (y u + y v) * (y u + y v))
    by apply (len_sq (add u v)).
  assert (Hcs : x u * x v + y u * y v <= len u * len v).
  { destruct (Rle_dec (x u * x v + y u * y v) 0) as [Hneg|Hpos]; [nra|].
    apply Rnot_le_lt in Hpos.
    apply Rsqr_incr_0_var; [|nra]. unfold Rsqr.
    replace (len u * len v * (len u * len v)) with ((len u * len u) * (len v * len v)) by ring.
    rewrite Su, Sv.
    pose proof (Rle_0_sqr (x u * y v - y u * x v)) as Hd. unfold Rsqr in Hd. nra. }
  apply Rsqr_incr_0_var; [|lra]. unfold Rsqr. nra.
Qed.



End V2Facts.

Module ColorFacts.
Import Color.

Lemma PLAYER_COLOR_hex : hex "#f43841" = Ok PLAYER_COLOR.
Proof. reflexivity. Qed.

Lemma ENEMY_COLOR_hex : hex "#9e95c7" = Ok ENEMY_COLOR.
Proof. reflexivity. Qed.

Lemma MESSAGE_COLOR_hex : hex "#ffffff" = Ok MESSAGE_COLOR.
Proof. reflexivity. Qed.

(** A string with no [#] raises. *)
Lemma hex_no_hash : hex "f43841" = Throw (Error "Could not parse f43841 as color").
Proof. reflexivity. Qed.

(** A digit of radix 16 is in the class of the pattern, and is neither
    [x] nor [X]. *)
Lemma digit16_class c d : digit16 c = Some d -> class_0_9a_z_i c = true.
Proof.
  unfold digit16, class_0_9a_z_i, is_0_9, is_a_z, is_A_Z, in_range.
  repeat match goal with
         | |- context [(?a <=? ?b)%nat] => destruct (Nat.leb_spec a b)
         end;
    cbn; intros Hd; try reflexivity; try discriminate Hd; lia.
Qed.

Lemma digit16_not_x c d :
  digit16 c = Some d -> (Ascii.eqb c "x" || Ascii.eqb c "X")%bool = false.
Proof.
  intros H. destruct (Ascii.eqb c "x") eqn:Ex.
  - apply Ascii.eqb_eq in Ex. subst c. discriminate H.
  - destruct (Ascii.eqb c "X") eqn:EX; [|reflexivity].
    apply Ascii.eqb_eq in EX. subst c. discriminate H.
Qed.

(** [parseInt] of two digits of radix 16 is their value. *)
Lemma parseInt16_two c1 c2 d1 d2 :
  digit16 c1 = Some d1 -> digit16 c2 = Some d2 ->
  parseInt16 (String c1 (String c2 EmptyString)) = Num (IZR (16 * d1 + d2)).
Proof.
  intros H1 H2. unfold parseInt16.
  assert (Hs : strip0x (String c1 (String c2 EmptyString)) = String c1 (String c2 EmptyString)).
  { unfold strip0x. destruct (Ascii.eqb c1 "0") eqn:E0.
    - apply Ascii.eqb_eq in E0. subst c1. now rewrite (digit16_not_x _ _ H2).
    - destruct c1 as [[] [] [] [] [] [] [] []]; try reflexivity; discriminate E0. }
  rewrite Hs. cbn [digits16]. rewrite H1, H2. cbn.
  repeat f_equal; lia.
Qed.

(** Where the claim holds: a string that starts with [#] and six digits
    of radix 16 is parsed to the three bytes divided by 255, with alpha
    1. *)
Lemma hex_six_digits c1 c2 c3 c4 c5 c6 d1 d2 d3 d4 d5 d6 rest :
  digit16 c1 = Some d1 -> digit16 c2 = Some d2 -> digit16 c3 = Some d3 ->
  digit16 c4 = Some d4 -> digit16 c5 = Some d5 -> digit16 c6 = Some d6 ->
  hex (String "#" (String c1 (String c2 (String c3 (String c4 (String c5 (String c6 rest)))))))
  = Ok (mk (Num (IZR (16 * d1 + d2) / 255))
           (Num (IZR (16 * d3 + d4) / 255))
           (Num (IZR (16 * d5 + d6) / 255))
           (Num 1)).
Proof.
  intros H1 H2 H3 H4 H5 H6. unfold hex. cbn [match_ match_here forallb].
  rewrite (digit16_class _ _ H1), (digit16_class _ _ H2), (digit16_class _ _ H3),
    (digit16_class _ _ H4), (digit16_class _ _ H5), (digit16_class _ _ H6).
  cbn [andb].
  now rewrite (parseInt16_two _ _ _ _ H1 H2), (parseInt16_two _ _ _ _ H3 H4),
    (parseInt16_two _ _ _ _ H5 H6).
Qed.

(** [hex] raises exactly when the pattern matches nowhere. *)
Lemma hex_throws_iff s :
  (exists e, hex s = Throw e) <-> match_ s = None.
Proof.
  unfold hex. destruct (match_ s) as [[[r g] b]|]; split; intros H.
  - destruct H as [e H]. discriminate H.
  - discriminate H.
  - reflexivity.
  - eexists. reflexivity.
Qed.

(** C5. The pattern accepts every letter, not only the digits of radix
    16: on ["#zzzzzz"], which holds no colour of six such digits,
    [Color.hex] raises nothing and returns a colour whose three channels
    are [NaN]. *)
Theorem hex_accepts_any_letter :
  hex "#zzzzzz" = Ok (mk NaN NaN NaN (Num 1)).
Proof. reflexivity. Qed.

(** A pattern that matches earlier hides a colour that follows it. *)
Lemma hex_leftmost_match :
  hex "#zzzzzz #f43841" = Ok (mk NaN NaN NaN (Num 1)).
Proof. reflexivity. Qed.


(** *** Strings that hold a colour *)

Lemma digit16_range c d : digit16 c = Some d -> (0 <= d <= 15)%Z.
Proof.
  unfold digit16, is_0_9, in_range.
  repeat match goal with
         | |- context [(?a <=? ?b)%nat] => destruct (Nat.leb_spec a b)
         end;
    cbn; intros Hd; try discriminate Hd; injection Hd as <-; lia.
Qed.

Lemma byte_range d1 d2 :
  (0 <= d1 <= 15)%Z -> (0 <= d2 <= 15)%Z -> 0 <= IZR (16 * d1 + d2) / 255 <= 1.
Proof.
  intros H1 H2.
  assert (Hlo : 0 <= IZR (16 * d1 + d2)) by (apply IZR_le; lia).
  assert (Hhi : IZR (16 * d1 + d2) <= 255) by (apply IZR_le; lia).
  split.
  - apply Rmult_le_pos; [exact Hlo|]. lra.
  - lra.
Qed.

(** X3. On a string that starts with [#] and six digits of radix 16, of
    either case and followed by anything, [Color.hex] returns the colour
    whose channels are the three bytes divided by 255, each between 0
    and 1, with alpha 1. *)
Theorem hex_bytes c1 c2 c3 c4 c5 c6 d1 d2 d3 d4 d5 d6 rest :
  digit16 c1 = Some d1 -> digit16 c2 = Some d2 -> digit16 c3 = Some d3 ->
  digit16 c4 = Some d4 -> digit16 c5 = Some d5 -> digit16 c6 = Some d6 ->
  let red := IZR (16 * d1 + d2) / 255 in
  let green := IZR (16 * d3 + d4) / 255 in
  let blue := IZR (16 * d5 + d6) / 255 in
  hex (String "#" (String c1 (String c2 (String c3 (String c4 (String c5 (String c6 rest)))))))
  = Ok (mk (Num red) (Num green) (Num blue) (Num 1)) /\
  0 <= red <= 1 /\ 0 <= green <= 1 /\ 0 <= blue <= 1.
Proof.
  intros H1 H2 H3 H4 H5 H6. cbv zeta.
  split; [now apply hex_six_digits|].
  repeat split; apply byte_range; eauto using digit16_range.
Qed.

(** The property on an upper-case colour followed by a semicolon. *)
Lemma hex_bytes_witness :
  hex "#F43841;"
  = Ok (mk (Num (IZR (16 * 15 + 4) / 255)) (Num (IZR (16 * 3 + 8) / 255))
           (Num (IZR (16 * 4 + 1) / 255)) (Num 1))
  /\ 0 <= IZR (16 * 15 + 4) / 255 <= 1
  /\ 0 <= IZR (16 * 3 + 8) / 255 <= 1
  /\ 0 <= IZR (16 * 4 + 1) / 255 <= 1.
Proof.
  apply (hex_bytes "F" "4" "3" "8" "4" "1" 15 4 3 8 4 1 ";"); reflexivity.
Defined.

(** The pattern is searched for in the string, not anchored to its
    ends. *)
Lemma match_here_not_hash c s : c <> "#"%char -> match_here (String c s) = None.
Proof.
  intros Hc. destruct c as [[] [] [] [] [] [] [] []]; try reflexivity. now elim Hc.
Qed.

Lemma match_here_length s m : match_here s = Some m -> (7 <= String.length s)%nat.
Proof.
  destruct s as [|c0 s]; [discriminate|].
  destruct (Ascii.eqb_spec c0 "#") as [->|Hc]; [|now rewrite match_here_not_hash].
  destruct s as [|c1 [|c2 [|c3 [|c4 [|c5 [|c6 s]]]]]]; try discriminate.
  intros _. cbn [String.length]. lia.
Qed.

Lemma match_here_app s post m :
  match_here s = Some m -> match_here (s ++ post) = Some m.
Proof.
  destruct s as [|c0 s]; [discriminate|].
  destruct (Ascii.eqb_spec c0 "#") as [->|Hc]; [|now rewrite match_here_not_hash].
  destruct s as [|c1 [|c2 [|c3 [|c4 [|c5 [|c6 s]]]]]]; try discriminate.
  intros H. exact H.
Qed.

Lemma match_here_app_none s post :
  (7 <= String.length s)%nat -> match_here s = None -> match_here (s ++ post) = None.
Proof.
  destruct s as [|c0 s]; [cbn; lia|].
  destruct (Ascii.eqb_spec c0 "#") as [->|Hc];
    [|intros _ _; cbn [append]; now rewrite match_here_not_hash].
  destruct s as [|c1 [|c2 [|c3 [|c4 [|c5 [|c6 s]]]]]]; cbn [String.length]; try lia.
  intros _ H. exact H.
Qed.

Lemma match_length s m : match_ s = Some m -> (7 <= String.length s)%nat.
Proof.
  induction s as [|c s IH]; [discriminate|].
  cbn [match_]. destruct (match_here (String c s)) as [m'|] eqn:E.
  - intros _. now apply match_here_length in E.
  - intros H. apply IH in H. cbn [String.length]. lia.
Qed.

Lemma match_app s post m : match_ s = Some m -> match_ (s ++ post) = Some m.
Proof.
  induction s as [|c s IH]; [discriminate|].
  cbn [match_]. destruct (match_here (String c s)) as [m'|] eqn:E.
  - intros [= <-]. cbn [append match_].
    change (String c (s ++ post)) with (String c s ++ post)%string.
    now rewrite (match_here_app _ post _ E).
  - intros H. cbn [append match_].
    change (String c (s ++ post)) with (String c s ++ post)%string.
    rewrite match_here_app_none; [now apply IH | | exact E].
    apply match_length in H. cbn [String.length]. lia.
Qed.

Lemma match_skip pre s :
  (forall c, In c (list_ascii_of_string pre) -> c <> "#"%char) ->
  match_ (pre ++ s) = match_ s.
Proof.
  induction pre as [|c pre IH]; intros Hpre; [reflexivity|].
  cbn [append match_]. rewrite match_here_not_hash.
  - apply IH. intros c' Hc'. apply Hpre. right. exact Hc'.
  - apply Hpre. left. reflexivity.
Qed.

(** X4. The colour that [Color.hex] reads from a string is read from
    that string with any text after it and any text without [#] before
    it: the pattern is not anchored. *)
Theorem hex_unanchored pre s post c :
  (forall ch, In ch (list_ascii_of_string pre) -> ch <> "#"%char) ->
  hex s = Ok c -> hex (pre ++ s ++ post) = Ok c.
Proof.
  intros Hpre. unfold hex. rewrite (match_skip _ _ Hpre).
  destruct (match_ s) as [[[r g] b]|] eqn:E; [|discriminate].
  now rewrite (match_app _ post _ E).
Qed.

(** The property on a declaration of a style sheet. *)
Lemma hex_unanchored_witness :
  hex "color: #f43841;" = Ok PLAYER_COLOR.
Proof.
  apply (hex_unanchored "color: " "#f43841" ";" PLAYER_COLOR).
  - intros ch Hin. cbn in Hin.
    repeat (destruct Hin as [<-|Hin]; [discriminate|]). destruct Hin.
  - reflexivity.
Defined.


End ColorFacts.

Module EnemyFacts.
Import Enemy.

Lemma update_radius dt followPos e :
  radius (update dt followPos e) =
  if Rltb (radius e) ENEMY_RADIUS
  then radius e + ENEMY_SPAWN_ANIMATION_SPEED * dt
  else ENEMY_RADIUS.
Proof. reflexivity. Qed.

Lemma update_radius_grow dt followPos e :
  radius e < ENEMY_RADIUS ->
  radius (update dt followPos e) = radius e + ENEMY_SPAWN_ANIMATION_SPEED * dt.
Proof. intros H. rewrite update_radius. apply Rltb_true in H. now rewrite H. Qed.

Lemma update_radius_clamp dt followPos e :
  ENEMY_RADIUS <= radius e -> radius (update dt followPos e) = ENEMY_RADIUS.
Proof. intros H. rewrite update_radius. apply Rltb_false in H. now rewrite H. Qed.

(** The radius after [n] frames of 1/60 s, while it grows. *)
Lemma radius_frames followPos p n :
  (n <= 8)%nat ->
  radius (Nat.iter n (update (1 / 60) followPos) (new p)) = INR n * 9.2.
Proof.
  induction n as [|n IH]; intros Hn.
  - cbn. lra.
  - rewrite Nat.iter_succ. rewrite update_radius_grow; rewrite IH by lia.
    + rewrite S_INR. unfold ENEMY_SPAWN_ANIMATION_SPEED, ENEMY_RADIUS, PLAYER_RADIUS. lra.
    + assert (H7 : INR n <= INR 7) by (apply le_INR; lia).
      cbn [INR] in H7. unfold ENEMY_RADIUS, PLAYER_RADIUS. lra.
Qed.

(** C7. An enemy spawned at [p] and updated for 8 frames of 1/60 s has
    radius 73.6, above the full radius 69: the update that crosses the
    full radius does not clamp, the next one does. *)
Theorem update_radius_overshoot followPos p :
  let e := Nat.iter 8 (update (1 / 60) followPos) (new p) in
  radius e = 73.6 /\ ENEMY_RADIUS < radius e /\
  radius (update (1 / 60) followPos e) = ENEMY_RADIUS.
Proof.
  cbv zeta.
  assert (H : radius (Nat.iter 8 (update (1 / 60) followPos) (new p)) = 73.6).
  { rewrite radius_frames by lia. cbn [INR]. lra. }
  split; [exact H|]. split.
  - rewrite H. unfold ENEMY_RADIUS, PLAYER_RADIUS. lra.
  - apply update_radius_clamp. rewrite H. unfold ENEMY_RADIUS, PLAYER_RADIUS. lra.
Qed.

(** What holds of the radius: a frame of non-negative time from a radius
    within the full radius ends within the full radius plus the growth
    of one frame. *)
Lemma update_radius_bound dt followPos e :
  0 <= dt -> radius e <= ENEMY_RADIUS ->
  radius (update dt followPos e) <= ENEMY_RADIUS + ENEMY_SPAWN_ANIMATION_SPEED * dt.
Proof.
  intros Hdt Hr. rewrite update_radius.
  assert (0 <= ENEMY_SPAWN_ANIMATION_SPEED * dt).
  { unfold ENEMY_SPAWN_ANIMATION_SPEED, ENEMY_RADIUS, PLAYER_RADIUS. lra. }
  destruct (Rltb (radius e) ENEMY_RADIUS); lra.
Qed.


(** *** The chase *)


End EnemyFacts.

Module TrailFacts.
Import Trail.

(** The samples are in the order of their insertion when none is
    brighter than a later one. *)
Definition chronological (l : list dot) : Prop :=
  StronglySorted (fun d1 d2 => a d1 <= a d2) l.

(** The trails the program builds: created by the constructor with a
    decay rate that is not negative (the player's is 3, a bullet's 2),
    then changed by [push], by [update] with any [dt], and by the
    assignments to [disabled]. *)
Inductive built : t -> Prop :=
| built_new radius color rate : 0 <= rate -> built (new radius color rate)
| built_push p t : built t -> built (push p t)
| built_update dt t : built t -> built (update dt t)
| built_set_disabled d t : built t -> built (set_disabled d t).

(** The samples of [update], before the eviction. *)
Definition decayed (dt : R) (t : Trail.t) : list dot :=
  map (fun d => mkDot (pos d) (a d - rate t * dt)) (trail t).

Lemma update_trail dt t : trail (update dt t) = shift_while (decayed dt t).
Proof. reflexivity. Qed.

Lemma shift_while_drop l :
  exists k, shift_while l = drop k l /\ Forall (fun d => a d <= 0) (take k l).
Proof.
  induction l as [|d l IH].
  - exists 0%nat. split; [reflexivity | constructor].
  - cbn [shift_while]. destruct (Rleb (a d) 0) eqn:E.
    + destruct IH as [k [Hk Hall]]. exists (S k). split; [exact Hk|].
      cbn [take]. constructor; [now apply Rleb_true | exact Hall].
    + exists 0%nat. split; [reflexivity | constructor].
Qed.

Lemma shift_while_positive l :
  chronological l -> Forall (fun d => 0 < a d) (shift_while l).
Proof.
  induction l as [|d l IH]; intros Hs.
  - constructor.
  - apply StronglySorted_inv in Hs. destruct Hs as [Hl Hd].
    cbn [shift_while]. destruct (Rleb (a d) 0) eqn:E.
    + now apply IH.
    + apply Rleb_false in E. constructor; [exact E|].
      eapply Forall_impl; [exact Hd|]. cbn. intros d' Hle. lra.
Qed.

Lemma shift_while_nonpos l :
  Forall (fun d => a d <= 0) l -> shift_while l = [].
Proof.
  induction 1 as [|d l Hd _ IH]; [reflexivity|].
  cbn [shift_while]. apply Rleb_true in Hd. now rewrite Hd.
Qed.

Lemma chronological_decayed dt t :
  chronological (trail t) -> chronological (decayed dt t).
Proof.
  unfold chronological, decayed. induction 1 as [|d l Hl IH Hd]; cbn [map].
  - constructor.
  - constructor; [exact IH|]. apply Forall_map.
    eapply Forall_impl; [exact Hd|]. cbn. intros d' Hle. lra.
Qed.

Lemma chronological_drop k l : chronological l -> chronological (drop k l).
Proof.
  unfold chronological. revert l. induction k as [|k IH]; intros l Hl.
  - now rewrite drop_0.
  - destruct l as [|d l]; [constructor|]. cbn [drop].
    apply IH. now apply StronglySorted_inv in Hl.
Qed.

Lemma chronological_snoc l d :
  chronological l -> Forall (fun d' => a d' <= a d) l -> chronological (l ++ [d]).
Proof.
  unfold chronological. induction 1 as [|d0 l Hl IH Hd0]; intros Hall; cbn [app].
  - repeat constructor.
  - apply Forall_cons in Hall. destruct Hall as [Hd Hall].
    constructor; [now apply IH|].
    apply Forall_app. split; [exact Hd0|]. constructor; [exact Hd | constructor].
Qed.

(** The invariant of the trails the program builds.  [push] adds a
    sample only when the cooldown has run out, so a sample already in
    the trail has decayed by the time since then: every intensity is
    above 0 and at most [1 - rate * (TRAIL_COOLDOWN - cooldown)], and
    the samples are chronological, whatever the sign of [dt]. *)
Definition wf (t : Trail.t) : Prop :=
  0 <= rate t /\
  chronological (trail t) /\
  Forall (fun d => 0 < a d <= 1 - rate t * (TRAIL_COOLDOWN - cooldown t)) (trail t).

Lemma wf_at_most_1 t :
  wf t -> cooldown t <= 0 -> Forall (fun d => a d <= 1) (trail t).
Proof.
  intros [Hr [_ Ha]] Hc. eapply Forall_impl; [exact Ha|].
  cbn. intros d [_ Hd]. unfold TRAIL_COOLDOWN in Hd. nra.
Qed.

Lemma Forall_and_r {A} (P Q : A -> Prop) l :
  Forall P l -> Forall Q l -> Forall (fun x => P x /\ Q x) l.
Proof.
  induction 1 as [|x l Hx _ IH]; intros HQ; constructor;
    apply Forall_cons in HQ; destruct HQ as [Hq HQ]; [now split | now apply IH].
Qed.

Lemma trail_built_wf t : built t -> wf t.
Proof.
  induction 1 as [radius color rate Hr | p t _ IH | dt t _ [Hr [Hs Ha]] | d t _ IH].
  - split; [exact Hr | split; constructor].
  - unfold push. destruct (negb (disabled t) && Rleb (cooldown t) 0) eqn:E; [|exact IH].
    apply andb_true_iff in E. destruct E as [_ Hc]. apply Rleb_true in Hc.
    pose proof (wf_at_most_1 t IH Hc) as H1.
    destruct IH as [Hr [Hs Ha]].
    split; [exact Hr | split]; cbn [trail rate cooldown].
    + apply chronological_snoc; [exact Hs | exact H1].
    + apply Forall_app. split.
      * apply Forall_and_r.
        -- eapply Forall_impl; [exact Ha|]. cbn. intros d' Hd'. lra.
        -- eapply Forall_impl; [exact H1|]. cbn. intros d' Hd'. lra.
      * constructor; [cbn; lra | constructor].
  - pose proof (chronological_decayed dt t Hs) as Hsd.
    assert (Hle : Forall (fun d => a d <= 1 - rate t * (TRAIL_COOLDOWN - (cooldown t - dt)))
                         (decayed dt t)).
    { unfold decayed. apply Forall_map. eapply Forall_impl; [exact Ha|].
      cbn. intros d' Hd'. lra. }
    destruct (shift_while_drop (decayed dt t)) as [k [Hk _]].
    split; [exact Hr | split]; rewrite update_trail; cbn [rate cooldown update].
    + rewrite Hk. now apply chronological_drop.
    + apply Forall_and_r.
      * now apply shift_while_positive.
      * rewrite Hk. now apply Forall_drop.
  - exact IH.
Qed.

(** C4. On every trail that the program built and for every [dt],
    [update] subtracts [rate * dt] from every intensity and removes from
    the front the samples that are then at or below 0; no sample at or
    below 0 is left; and a sample pushed just before an update with
    [rate * dt >= 1] is removed by that update. *)
Theorem update_evicts t dt :
  built t ->
  (exists k,
      trail (update dt t) = drop k (decayed dt t) /\
      Forall (fun d => a d <= 0) (take k (decayed dt t))) /\
  Forall (fun d => 0 < a d) (trail (update dt t)) /\
  (forall p,
      disabled t = false -> cooldown t <= 0 -> 1 <= rate t * dt ->
      trail (push p t) = trail t ++ [mkDot p 1] /\
      trail (update dt (push p t)) = []).
Proof.
  intros Hb. pose proof (trail_built_wf t Hb) as Hwf.
  destruct Hwf as [Hr [Hs Ha]].
  split; [|split].
  - rewrite update_trail. apply shift_while_drop.
  - rewrite update_trail. apply shift_while_positive.
    now apply chronological_decayed.
  - intros p Hd Hc Hdt.
    assert (Hp : push p t =
                 mk (trail t ++ [mkDot p 1]) TRAIL_COOLDOWN (disabled t)
                    (radius t) (color t) (rate t)).
    { unfold push. rewrite Hd. apply Rleb_true in Hc. now rewrite Hc. }
    rewrite Hp. split; [reflexivity|].
    rewrite update_trail. apply shift_while_nonpos.
    unfold decayed. cbn [trail rate]. apply Forall_map, Forall_app. split.
    + eapply Forall_impl; [exact (wf_at_most_1 t (trail_built_wf t Hb) Hc)|].
      cbn. intros d' Hd'. lra.
    + constructor; [cbn; lra | constructor].
Qed.

(** The claim on the trail of a new player, one sample pushed, then a
    frame of one second at rate 3. *)
Lemma update_evicts_witness :
  trail (update 1 (push (V2.mk 0 0) (new PLAYER_RADIUS PLAYER_COLOR PLAYER_TRAIL_RATE))) = [].
Proof.
  assert (Hr : 0 <= PLAYER_TRAIL_RATE) by (unfold PLAYER_TRAIL_RATE; lra).
  apply (update_evicts (new PLAYER_RADIUS PLAYER_COLOR PLAYER_TRAIL_RATE) 1
           (built_new _ _ _ Hr)).
  - reflexivity.
  - cbn. lra.
  - cbn. unfold PLAYER_TRAIL_RATE. lra.
Defined.

(** Without the order of insertion the eviction from the front is not
    enough: a trail assembled by hand keeps a sample below 0. *)
Lemma update_unordered :
  trail (update 1 (mk [mkDot (V2.mk 0 0) 2; mkDot (V2.mk 0 0) 1] 0 false 1 PLAYER_COLOR 1.5))
  = [mkDot (V2.mk 0 0) (2 - 1.5 * 1); mkDot (V2.mk 0 0) (1 - 1.5 * 1)].
Proof.
  rewrite update_trail. unfold decayed. cbn [map trail rate a pos shift_while].
  assert (E : Rleb (2 - 1.5 * 1) 0 = false) by (apply Rleb_false; lra).
  now rewrite E.
Qed.


(** *** The number of samples *)

(** Consecutive samples are at least [g] apart in intensity. *)
Definition spaced (g : R) (l : list dot) : Prop :=
  forall i j d d', l !! i = Some d -> l !! j = Some d' -> (i <= j)%nat ->
                   a d + INR (j - i) * g <= a d'.

(** The brightest sample is less than 1 above the faintest. *)
Definition span (l : list dot) : Prop :=
  forall d d', d ∈ l -> d' ∈ l -> a d' - a d < 1.

Lemma spaced_nil g : spaced g [].
Proof. intros i j d d' H. discriminate H. Qed.

Lemma spaced_decayed dt t g : spaced g (trail t) -> spaced g (decayed dt t).
Proof.
  unfold decayed. intros Hs i j d d' Hi Hj Hij.
  rewrite list_lookup_fmap in Hi, Hj.
  destruct (trail t !! i) as [di|] eqn:Ei; [|discriminate].
  destruct (trail t !! j) as [dj|] eqn:Ej; [|discriminate].
  injection Hi as <-. injection Hj as <-. cbn [a].
  pose proof (Hs i j di dj Ei Ej Hij). lra.
Qed.

Lemma spaced_drop k l g : spaced g l -> spaced g (drop k l).
Proof.
  intros Hs i j d d' Hi Hj Hij. rewrite lookup_drop in Hi, Hj.
  replace (j - i)%nat with (k + j - (k + i))%nat by lia.
  apply (Hs _ _ _ _ Hi Hj). lia.
Qed.

Lemma spaced_snoc l g d0 :
  0 <= g -> spaced g l -> Forall (fun d => a d + g <= a d0) l -> spaced g (l ++ [d0]).
Proof.
  intros Hg Hs Hall i j d d' Hi Hj Hij.
  apply lookup_app_Some in Hi, Hj.
  destruct Hj as [Hj | [Hjn Hj]].
  - destruct Hi as [Hi | [Hin Hi]].
    + now apply (Hs i j).
    + apply lookup_lt_Some in Hj. lia.
  - apply list_lookup_singleton_Some in Hj. destruct Hj as [Hj0 <-].
    destruct Hi as [Hi | [Hin Hi]].
    + pose proof (lookup_lt_Some _ _ _ Hi) as Hlt.
      assert (Hlast : is_Some (l !! (length l - 1)%nat)) by (apply lookup_lt_is_Some_2; lia).
      destruct Hlast as [dl Hdl].
      pose proof (Hs i (length l - 1)%nat d dl Hi Hdl ltac:(lia)) as H1.
      assert (H2 : a dl + g <= a d0).
      { rewrite Forall_forall in Hall. apply Hall. eapply list_elem_of_lookup_2. exact Hdl. }
      assert (j = length l) by lia. subst j.
      replace (length l - i)%nat with (S (length l - 1 - i)) by lia.
      rewrite S_INR. lra.
    + apply list_lookup_singleton_Some in Hi. destruct Hi as [Hi0 <-].
      replace (j - i)%nat with 0%nat by lia. cbn [INR]. lra.
Qed.

Lemma span_decayed dt t : span (trail t) -> span (decayed dt t).
Proof.
  unfold decayed. intros Hs d d' Hd Hd'.
  apply list_elem_of_fmap in Hd, Hd'.
  destruct Hd as [e [-> He]]. destruct Hd' as [e' [-> He']]. cbn [a].
  pose proof (Hs e e' He He'). lra.
Qed.

Lemma span_drop k l : span l -> span (drop k l).
Proof.
  intros Hs d d' Hd Hd'. apply Hs; eapply (subseteq_drop k l); eassumption.
Qed.

(** [push] waits for the cooldown, during which the last sample decays
    by [rate * TRAIL_COOLDOWN]: the samples of a trail that the program
    built are that far apart, and the first was above 0 when the last
    was pushed at 1. *)
Lemma built_spaced t :
  built t -> spaced (rate t * TRAIL_COOLDOWN) (trail t) /\ span (trail t).
Proof.
  induction 1 as [radius color rate Hr | p t Hb IH | dt t Hb IH | d t Hb IH].
  - split; [apply spaced_nil|]. intros d d' Hd. apply elem_of_nil in Hd. destruct Hd.
  - pose proof (trail_built_wf t Hb) as Hwf.
    unfold push. destruct (negb (disabled t) && Rleb (cooldown t) 0) eqn:E; [|exact IH].
    apply andb_true_iff in E. destruct E as [_ Hc]. apply Rleb_true in Hc.
    pose proof (wf_at_most_1 t Hwf Hc) as H1.
    destruct Hwf as [Hr [Hs Ha]]. destruct IH as [Hg Hsp].
    assert (Hgap : 0 <= rate t * TRAIL_COOLDOWN) by (unfold TRAIL_COOLDOWN; lra).
    split; cbn [trail rate].
    + apply spaced_snoc; [exact Hgap | exact Hg |].
      eapply Forall_impl; [exact Ha|]. cbn. intros d [_ Hd]. nra.
    + intros d d' Hd Hd'. rewrite Forall_forall in Ha, H1.
      apply elem_of_app in Hd, Hd'.
      destruct Hd as [Hd|Hd]; destruct Hd' as [Hd'|Hd'].
      * now apply Hsp.
      * apply list_elem_of_singleton in Hd'. subst d'. cbn [a].
        pose proof (Ha d Hd). lra.
      * apply list_elem_of_singleton in Hd. subst d. cbn [a].
        pose proof (H1 d' Hd'). cbn in *. lra.
      * apply list_elem_of_singleton in Hd, Hd'. subst d d'. lra.
  - destruct IH as [Hg Hsp].
    destruct (shift_while_drop (decayed dt t)) as [k [Hk _]].
    split; rewrite update_trail, Hk; cbn [rate update].
    + now apply spaced_drop, spaced_decayed.
    + now apply span_drop, span_decayed.
  - exact IH.
Qed.

Lemma built_length t :
  built t ->
  (INR (length (trail t)) - 1) * (rate t * TRAIL_COOLDOWN) < 1 /\
  (rate t = PLAYER_TRAIL_RATE -> (length (trail t) <= 20)%nat) /\
  (rate t = ENEMY_TRAIL_RATE -> (length (trail t) <= 30)%nat).
Proof.
  intros Hb. destruct (built_spaced t Hb) as [Hg Hsp].
  destruct (trail_built_wf t Hb) as [Hr _].
  assert (Hmain : (INR (length (trail t)) - 1) * (rate t * TRAIL_COOLDOWN) < 1).
  { destruct (trail t) as [|d0 l] eqn:El.
    - cbn [length INR]. unfold TRAIL_COOLDOWN. lra.
    - assert (Hlast : is_Some ((d0 :: l) !! length l)).
      { apply lookup_lt_is_Some_2. cbn [length]. lia. }
      destruct Hlast as [dl Hdl].
      pose proof (Hg 0%nat (length l) d0 dl eq_refl Hdl ltac:(lia)) as H1.
      assert (H2 : a dl - a d0 < 1).
      { apply Hsp; [left | eapply list_elem_of_lookup_2; exact Hdl]. }
      cbn [length]. rewrite S_INR. rewrite Nat.sub_0_r in H1. lra. }
  split; [exact Hmain|]. split; intros Hrate; rewrite Hrate in Hmain;
    unfold PLAYER_TRAIL_RATE, ENEMY_TRAIL_RATE, TRAIL_COOLDOWN in Hmain.
  - assert (Hlt : INR (length (trail t)) < INR 21).
    { replace (INR 21) with 21 by (cbn; lra). lra. }
    apply INR_lt in Hlt. lia.
  - assert (Hlt : INR (length (trail t)) < INR 31).
    { replace (INR 31) with 31 by (cbn; lra). lra. }
    apply INR_lt in Hlt. lia.
Qed.



Lemma push_effective p t :
  disabled t = false -> cooldown t <= 0 ->
  push p t = mk (trail t ++ [mkDot p 1]) TRAIL_COOLDOWN false (radius t) (color t) (rate t).
Proof.
  intros Hd Hc. unfold push. apply Rleb_true in Hc. now rewrite Hd, Hc.
Qed.

Lemma push_noop p t : disabled t = true \/ 0 < cooldown t -> push p t = t.
Proof.
  intros [Hd|Hc]; unfold push.
  - now rewrite Hd.
  - apply Rleb_false in Hc. rewrite Hc. now rewrite andb_false_r.
Qed.

(** X8. [push] is limited by the cooldown: a second [push] right after
    a first changes nothing, whatever the trail; [push] changes nothing
    on a trail that is disabled or whose cooldown is above 0; and after
    a [push] that added a sample, a [push] that follows an [update] of
    less than [TRAIL_COOLDOWN] changes nothing. *)
Theorem push_rate_limited p q t :
  push q (push p t) = push p t /\
  (disabled t = true \/ 0 < cooldown t -> push p t = t) /\
  (forall dt, disabled t = false -> cooldown t <= 0 -> dt < TRAIL_COOLDOWN ->
              push q (update dt (push p t)) = update dt (push p t)).
Proof.
  split; [|split].
  - destruct (disabled t) eqn:Hd.
    + rewrite (push_noop p t) by now left. apply push_noop. now left.
    + destruct (Rle_dec (cooldown t) 0) as [Hc|Hc].
      * rewrite (push_effective p t Hd Hc). apply push_noop. right.
        cbn [cooldown]. unfold TRAIL_COOLDOWN. lra.
      * apply Rnot_le_lt in Hc.
        rewrite (push_noop p t) by now right. apply push_noop. now right.
  - apply push_noop.
  - intros dt Hd Hc Hdt. rewrite (push_effective p t Hd Hc). apply push_noop. right.
    unfold update. cbn [cooldown]. lra.
Qed.

End TrailFacts.

Module RendererWebGLFacts.
Import RendererWebGL.

(** The renderers the program builds: created by the constructor, then
    changed by the methods of the class and by the assignments that
    [Game] makes to [cameraPos], [cameraVel] and [grayness]. *)
Inductive built : t -> Prop :=
| built_new : built new
| built_set_cameraPos p this : built this -> built (set_cameraPos p this)
| built_set_cameraVel v this : built this -> built (set_cameraVel v this)
| built_set_grayness g this : built this -> built (set_grayness g this)
| built_setTarget target this : built this -> built (setTarget target this)
| built_update dt this : built this -> built (update dt this)
| built_clear this : built this -> built (clear this)
| built_background this : built this -> built (background this)
| built_fillCircle center radius color this :
    built this -> built (fillCircle center radius color this)
| built_fillMessage text color this : built this -> built (fillMessage text color this).

(** The buffers keep the size the constructor gave them, and the counter
    stays within the capacity. *)
Definition wf (this : t) : Prop :=
  (circlesCount this <= CIRCLE_BATCH_CAPACITY)%nat /\
  length (circleCenterBufferData this) = (VEC2_COUNT * CIRCLE_BATCH_CAPACITY)%nat /\
  length (circleRadiusBufferData this) = CIRCLE_BATCH_CAPACITY /\
  length (circleColorBufferData this) = (RGBA_COUNT * CIRCLE_BATCH_CAPACITY)%nat.

Lemma fillCircle_below center radius color this :
  (circlesCount this < CIRCLE_BATCH_CAPACITY)%nat ->
  fillCircle center radius color this =
  let n := circlesCount this in
  mk (cameraPos this) (cameraVel this) (grayness this)
     (n + 1)
     (<[(n * VEC2_COUNT + VEC2_Y)%nat := V2.y center]>
        (<[(n * VEC2_COUNT + VEC2_X)%nat := V2.x center]>
           (circleCenterBufferData this)))
     (<[n := radius]> (circleRadiusBufferData this))
     (<[(n * RGBA_COUNT + RGBA_A)%nat := Color.a color]>
        (<[(n * RGBA_COUNT + RGBA_B)%nat := Color.b color]>
           (<[(n * RGBA_COUNT + RGBA_G)%nat := Color.g color]>
              (<[(n * RGBA_COUNT + RGBA_R)%nat := Color.r color]>
                 (circleColorBufferData this))))).
Proof.
  intros Hn. unfold fillCircle. apply Nat.ltb_lt in Hn. now rewrite Hn.
Qed.

Lemma fillCircle_full center radius color this :
  (CIRCLE_BATCH_CAPACITY <= circlesCount this)%nat ->
  fillCircle center radius color this = this.
Proof.
  intros Hn. unfold fillCircle. apply Nat.ltb_ge in Hn. now rewrite Hn.
Qed.

Lemma fillCircle_wf center radius color this :
  wf this -> wf (fillCircle center radius color this).
Proof.
  intros (Hc & H1 & H2 & H3).
  destruct (Nat.lt_ge_cases (circlesCount this) CIRCLE_BATCH_CAPACITY) as [Hn|Hn].
  - rewrite fillCircle_below by exact Hn. cbv zeta.
    unfold wf. cbn [circlesCount circleCenterBufferData circleRadiusBufferData
                      circleColorBufferData].
    rewrite !length_insert. repeat split; try assumption. lia.
  - rewrite fillCircle_full by exact Hn. now repeat split.
Qed.

Lemma renderer_built_wf this : built this -> wf this.
Proof.
  induction 1 as [| | | | | | this _ IH | | center radius color this _ IH |];
    try assumption.
  - unfold wf, new. cbn [circlesCount circleCenterBufferData circleRadiusBufferData
                           circleColorBufferData].
    rewrite !length_replicate. repeat split; lia.
  - destruct IH as (Hc & H1 & H2 & H3). repeat split; try assumption.
    cbn [clear circlesCount]. lia.
  - now apply fillCircle_wf.
Qed.

(** The circle recorded in slot [i] of the three buffers. *)
Definition recorded (this : t) (i : nat) : option (V2.t * R * Color.t) :=
  match circleCenterBufferData this !! (i * VEC2_COUNT + VEC2_X)%nat,
        circleCenterBufferData this !! (i * VEC2_COUNT + VEC2_Y)%nat,
        circleRadiusBufferData this !! i,
        circleColorBufferData this !! (i * RGBA_COUNT + RGBA_R)%nat,
        circleColorBufferData this !! (i * RGBA_COUNT + RGBA_G)%nat,
        circleColorBufferData this !! (i * RGBA_COUNT + RGBA_B)%nat,
        circleColorBufferData this !! (i * RGBA_COUNT + RGBA_A)%nat with
  | Some x, Some y, Some radius, Some r, Some g, Some b, Some a =>
      Some (V2.mk x y, radius, Color.mk r g b a)
  | _, _, _, _, _, _, _ => None
  end.

Ltac unfold_layout :=
  unfold VEC2_COUNT, VEC2_X, VEC2_Y, RGBA_COUNT, RGBA_R, RGBA_G, RGBA_B, RGBA_A in *.

Ltac lookup_insert :=
  repeat first
    [ rewrite list_lookup_insert_eq by (rewrite ?length_insert; lia)
    | rewrite list_lookup_insert_ne by lia ].

(** [fillCircle] below the capacity records the circle in slot
    [circlesCount] and leaves the other slots as they were. *)
Lemma fillCircle_recorded center radius color this :
  wf this -> (circlesCount this < CIRCLE_BATCH_CAPACITY)%nat ->
  recorded (fillCircle center radius color this) (circlesCount this)
  = Some (center, radius, color) /\
  forall i, i <> circlesCount this ->
            recorded (fillCircle center radius color this) i = recorded this i.
Proof.
  intros (Hc & H1 & H2 & H3) Hn.
  rewrite fillCircle_below by exact Hn. cbv zeta. unfold recorded.
  cbn [circleCenterBufferData circleRadiusBufferData circleColorBufferData].
  unfold_layout. split.
  - lookup_insert. now destruct center, color.
  - intros i Hi. lookup_insert. reflexivity.
Qed.

(** The calls [fillCircle] of one frame, in order. *)
Definition fillCircles (requests : list (V2.t * R * Color.t)) (this : t) : t :=
  foldl (fun this '(center, radius, color) => fillCircle center radius color this)
        this requests.

Lemma fillCircles_wf requests this : wf this -> wf (fillCircles requests this).
Proof.
  revert this. induction requests as [|[[c r] col] requests IH]; intros this Hwf.
  - exact Hwf.
  - apply IH. now apply fillCircle_wf.
Qed.

Lemma fillCircles_full requests this :
  (CIRCLE_BATCH_CAPACITY <= circlesCount this)%nat -> fillCircles requests this = this.
Proof.
  intros Hn. induction requests as [|[[c r] col] requests IH]; [reflexivity|].
  unfold fillCircles. cbn [foldl]. rewrite fillCircle_full by exact Hn. exact IH.
Qed.

(** After the calls of a frame the counter has grown by their number, up
    to the capacity; the slots filled before are as they were, and the
    new slots hold the first requests, in order. *)
Lemma fillCircles_spec requests this :
  wf this ->
  circlesCount (fillCircles requests this)
  = Nat.min (circlesCount this + length requests) CIRCLE_BATCH_CAPACITY /\
  (forall i, (i < circlesCount this)%nat ->
             recorded (fillCircles requests this) i = recorded this i) /\
  (forall i, (circlesCount this + i < CIRCLE_BATCH_CAPACITY)%nat ->
             (i < length requests)%nat ->
             recorded (fillCircles requests this) (circlesCount this + i) = requests !! i).
Proof.
  revert this. induction requests as [|[[c r] col] requests IH]; intros this Hwf.
  - cbn [length fillCircles foldl]. destruct Hwf as [Hc _].
    split; [lia | split; [reflexivity | intros; lia]].
  - destruct (Nat.lt_ge_cases (circlesCount this) CIRCLE_BATCH_CAPACITY) as [Hn|Hn].
    + pose proof (fillCircle_wf c r col this Hwf) as Hwf'.
      destruct (fillCircle_recorded c r col this Hwf Hn) as [Hrec Hother].
      assert (Hcount : circlesCount (fillCircle c r col this) = S (circlesCount this)).
      { rewrite fillCircle_below by exact Hn. cbn. lia. }
      destruct (IH _ Hwf') as (IHc & IHold & IHnew).
      change (fillCircles ((c, r, col) :: requests) this)
        with (fillCircles requests (fillCircle c r col this)).
      rewrite Hcount in *. cbn [length]. split; [|split].
      * rewrite IHc. lia.
      * intros i Hi. rewrite IHold by lia. apply Hother. lia.
      * intros [|i] Hi Hlen.
        -- rewrite Nat.add_0_r. rewrite IHold by lia. exact Hrec.
        -- replace (circlesCount this + S i)%nat with (S (circlesCount this) + i)%nat by lia.
           cbn [length] in Hlen. rewrite IHnew by lia. reflexivity.
    + rewrite fillCircles_full by exact Hn. destruct Hwf as [Hc _].
      split; [lia | split; [reflexivity | intros; lia]].
Qed.

(** C8. On a renderer that the program built: below the capacity
    [fillCircle] writes the circle into the slot of index [circlesCount],
    every index written is inside its buffer, no other slot changes and
    the counter grows by one; at the capacity [fillCircle] changes
    nothing; [clear] sets the counter to zero; and after [clear], a frame
    that asks for at least [CIRCLE_BATCH_CAPACITY] circles ends with
    exactly that many recorded, the first ones asked, which is the
    number of instances [present] draws. *)
Theorem fillCircle_batch this center radius color :
  built this ->
  let n := circlesCount this in
  let this' := fillCircle center radius color this in
  ((n < CIRCLE_BATCH_CAPACITY)%nat ->
     circlesCount this' = S n /\
     (n * VEC2_COUNT + VEC2_Y < length (circleCenterBufferData this))%nat /\
     (n < length (circleRadiusBufferData this))%nat /\
     (n * RGBA_COUNT + RGBA_A < length (circleColorBufferData this))%nat /\
     recorded this' n = Some (center, radius, color) /\
     (forall i, i <> n -> recorded this' i = recorded this i)) /\
  ((CIRCLE_BATCH_CAPACITY <= n)%nat -> this' = this) /\
  circlesCount (clear this) = 0%nat /\
  (forall requests,
     (CIRCLE_BATCH_CAPACITY <= length requests)%nat ->
     let frame := fillCircles requests (clear this) in
     circlesCount frame = CIRCLE_BATCH_CAPACITY /\
     snd (present frame) = CIRCLE_BATCH_CAPACITY /\
     (forall i, (i < CIRCLE_BATCH_CAPACITY)%nat -> recorded frame i = requests !! i)).
Proof.
  intros Hb. cbv zeta. pose proof (renderer_built_wf this Hb) as Hwf.
  split; [|split; [|split]].
  - intros Hn. destruct Hwf as (Hc & H1 & H2 & H3).
    destruct (fillCircle_recorded center radius color this
                (conj Hc (conj H1 (conj H2 H3))) Hn) as [Hrec Hother].
    rewrite H1, H2, H3. unfold_layout.
    repeat split; try lia; try assumption.
    rewrite fillCircle_below by exact Hn. cbn. lia.
  - apply fillCircle_full.
  - reflexivity.
  - intros requests Hlen.
    pose proof (renderer_built_wf _ (built_clear this Hb)) as Hwf0.
    destruct (fillCircles_spec requests (clear this) Hwf0) as (Hc & _ & Hnew).
    cbn [clear circlesCount] in Hc, Hnew.
    assert (Hcount : circlesCount (fillCircles requests (clear this)) = CIRCLE_BATCH_CAPACITY)
      by (rewrite Hc; cbn; lia).
    repeat split; try exact Hcount.
    intros i Hi. apply (Hnew i); cbn; lia.
Qed.

(** The claim on the renderer as it is created. *)
Lemma fillCircle_batch_witness :
  circlesCount (fillCircle (V2.mk 1 2) 3 PLAYER_COLOR new) = 1%nat /\
  recorded (fillCircle (V2.mk 1 2) 3 PLAYER_COLOR new) 0 = Some (V2.mk 1 2, 3, PLAYER_COLOR).
Proof.
  destruct (fillCircle_batch new (V2.mk 1 2) 3 PLAYER_COLOR built_new) as [Hbelow _].
  destruct Hbelow as (Hc & _ & _ & _ & Hrec & _).
  - cbn. unfold CIRCLE_BATCH_CAPACITY. lia.
  - split; [exact Hc | exact Hrec].
Defined.

End RendererWebGLFacts.

(** ** The game *)

Arguments Rleb : simpl never.
Arguments Rltb : simpl never.
Arguments Reqb : simpl never.
Arguments CIRCLE_BATCH_CAPACITY : simpl never.

(** Decide the comparisons of numerals that stand in the goal. *)
Ltac Rdecide :=
  repeat match goal with
         | |- context [Rleb ?a ?b] =>
             first [ rewrite (proj2 (Rleb_true a b)) by lra
                   | rewrite (proj2 (Rleb_false a b)) by lra ]
         | |- context [Rltb ?a ?b] =>
             first [ rewrite (proj2 (Rltb_true a b)) by lra
                   | rewrite (proj2 (Rltb_false a b)) by lra ]
         end.

Ltac unfold_constants :=
  unfold PLAYER_MAX_HEALTH, PLAYER_SHOOT_COOLDOWN, PLAYER_RADIUS, BULLET_LIFETIME,
    BULLET_RADIUS, ENEMY_SPAWN_COOLDOWN, ENEMY_RADIUS, ENEMY_KILL_HEAL, ENEMY_DAMAGE,
    PLAYER_MAX_HEALTH in *.

(** Evaluate a call on a given state. *)
Ltac evaluate :=
  repeat (progress (cbn -[Rleb Rltb Reqb PI V2.normalize V2.dist]; unfold_constants; Rdecide)).

Lemma foldl_keeps {A B C : Type} (f : A -> B -> A) (proj : A -> C) (l : list B) (a : A) :
  (forall a b, proj (f a b) = proj a) -> proj (foldl f a l) = proj a.
Proof.
  intros Hf. revert a. induction l as [|b l IH]; intros a; [reflexivity|].
  cbn [foldl]. now rewrite IH.
Qed.

(** ** The canvas renderer and the camera *)

Module Renderer2DFacts.
Import Renderer2D.




End Renderer2DFacts.

Module CameraFacts.
Import RendererI.


End CameraFacts.

(** ** The player, the bullets and the particles *)

Module PlayerFacts.
Import Player.


End PlayerFacts.

Module FlightFacts.

(** The time of a sequence of frames. *)
Definition total (dts : list R) : R := foldr Rplus 0 dts.

Lemma bullet_updates dts b :
  foldl (fun b dt => Bullet.update dt b) b dts = Bullet.update (total dts) b.
Proof.
  revert b. induction dts as [|dt dts IH]; intros b; cbn [foldl total foldr].
  - destruct b as [[px py] [vx vy] l]. unfold Bullet.update, V2.add, V2.scale.
    cbn [Bullet.pos Bullet.vel Bullet.lifetime V2.x V2.y]. f_equal; [f_equal; ring | ring].
  - rewrite IH. fold (total dts).
    destruct b as [[px py] [vx vy] l]. unfold Bullet.update, V2.add, V2.scale.
    cbn [Bullet.pos Bullet.vel Bullet.lifetime V2.x V2.y]. f_equal; [f_equal; ring | ring].
Qed.

Lemma particle_updates dts p :
  foldl (fun p dt => Particle.update dt p) p dts = Particle.update (total dts) p.
Proof.
  revert p. induction dts as [|dt dts IH]; intros p; cbn [foldl total foldr].
  - destruct p as [[px py] [vx vy] l r c]. unfold Particle.update, V2.add, V2.scale.
    cbn [Particle.pos Particle.vel Particle.lifetime Particle.radius Particle.color V2.x V2.y].
    f_equal; [f_equal; ring | ring].
  - rewrite IH. fold (total dts).
    destruct p as [[px py] [vx vy] l r c]. unfold Particle.update, V2.add, V2.scale.
    cbn [Particle.pos Particle.vel Particle.lifetime Particle.radius Particle.color V2.x V2.y].
    f_equal; [f_equal; ring | ring].
Qed.


End FlightFacts.

(** ** The tutorial *)

Module TutorialFacts.
Import Tutorial.

(** X14. Over a frame of non-negative time, [Tutorial.update] keeps
    the state and keeps the opacity of the pop-up between 0 and 1; the
    text of the pop-up changes only at the end of a fade-out, to the
    message of the current state, with the opacity at 0 and the fade-in
    started. *)
Theorem update_popup coarse dt t :
  0 <= dt ->
  0 <= TutorialPopup.alpha (popup t) <= 1 ->
  let t' := update coarse dt t in
  state t' = state t /\
  0 <= TutorialPopup.alpha (popup t') <= 1 /\
  (TutorialPopup.text (popup t') <> TutorialPopup.text (popup t) ->
   TutorialPopup.alpha (popup t') = 0 /\
   TutorialPopup.dalpha (popup t') = TUTORIAL_POPUP_SPEED /\
   TutorialPopup.text (popup t') = JsVal.index (TutorialMessages coarse) (state t)).
Proof.
  intros Hdt Ha. cbv zeta. split; [reflexivity|].
  unfold update, TutorialPopup.update. cbn [popup state].
  destruct (Rltb (TutorialPopup.dalpha (popup t)) 0) eqn:Hneg; cbn [andb].
  - apply Rltb_true in Hneg.
    destruct (Rleb _ 0) eqn:Hz.
    + cbn [TutorialPopup.call onFadedOut TutorialPopup.fadeIn TutorialPopup.set_text
             TutorialPopup.alpha TutorialPopup.dalpha TutorialPopup.text].
      split; [lra|]. intros _. repeat split.
    + apply Rleb_false in Hz.
      assert (Hp : Rltb 0 (TutorialPopup.dalpha (popup t)) = false) by (apply Rltb_false; lra).
      rewrite Hp. cbn [andb TutorialPopup.alpha TutorialPopup.text].
      split; [nra|]. intros H. now elim H.
  - apply Rltb_false in Hneg.
    destruct (Rltb 0 (TutorialPopup.dalpha (popup t))) eqn:Hp; cbn [andb].
    + apply Rltb_true in Hp. destruct (Rleb 1 _) eqn:H1.
      * cbn [TutorialPopup.call TutorialPopup.alpha TutorialPopup.text].
        split; [lra|]. intros H. now elim H.
      * apply Rleb_false in H1. cbn [TutorialPopup.alpha TutorialPopup.text].
        split; [nra|]. intros H. now elim H.
    + apply Rltb_false in Hp. cbn [TutorialPopup.alpha TutorialPopup.text].
      assert (TutorialPopup.dalpha (popup t) = 0) by lra.
      split; [nra|]. intros H'. now elim H'.
Qed.

(** The property on the tutorial of a first session, over one frame. *)
Lemma update_popup_witness :
  let t := new false (Env.mk None 0) in
  let t' := update false (1 / 60) t in
  state t' = state t /\
  0 <= TutorialPopup.alpha (popup t') <= 1 /\
  (TutorialPopup.text (popup t') <> TutorialPopup.text (popup t) ->
   TutorialPopup.alpha (popup t') = 0 /\
   TutorialPopup.dalpha (popup t') = TUTORIAL_POPUP_SPEED /\
   TutorialPopup.text (popup t') = JsVal.index (TutorialMessages false) (state t)).
Proof.
  apply (update_popup false (1 / 60) (new false (Env.mk None 0))).
  - lra.
  - cbn. lra.
Defined.

End TutorialFacts.

(** ** Bursts of particles *)

Module BurstFacts.

(** What [particleBurst] gives a particle it adds: the centre and the
    colour of the burst, a lifetime below the maximum, a radius from 10
    to 20 and a speed below that of a bullet. *)
Definition burst_particle (center : V2.t) (color : Color.t) (p : Particle.t) : Prop :=
  Particle.pos p = center /\ Particle.color p = color /\
  0 <= Particle.lifetime p < PARTICLE_MAX_LIFETIME /\
  10 <= Particle.radius p < 20 /\
  V2.len (Particle.vel p) < BULLET_SPEED.

Section Burst.

Variable rnd : nat -> R.
Hypothesis Hrnd : Env.valid rnd.

Lemma particleBurst_loop_spec n particles center color e :
  exists added,
    particleBurst_loop rnd n particles center color e
    = (particles ++ added, Env.mk (Env.localStorage e) (Env.draws e + 4 * n)) /\
    length added = n /\
    Forall (burst_particle center color) added.
Proof using Hrnd.
  revert particles e. induction n as [|n IH]; intros particles e.
  - exists []. rewrite app_nil_r, Nat.mul_0_r, Nat.add_0_r. destruct e.
    repeat split. constructor.
  - cbn [particleBurst_loop]. unfold randomAngle, randomBetween, Env.drawn.
    cbn [Env.draws Env.localStorage fst snd].
    match goal with
    | |- context [particleBurst_loop rnd n ?ps center color ?e'] =>
        destruct (IH ps e') as (added & Heq & Hlen & Hall); rewrite Heq
    end.
    cbn [Env.draws Env.localStorage].
    eexists (_ :: added). split; [|split].
    + rewrite <- app_assoc. cbn [app]. do 2 f_equal. lia.
    + cbn [length]. now rewrite Hlen.
    + constructor; [|exact Hall].
      pose proof (Hrnd (Env.draws e)) as H0.
      pose proof (Hrnd (S (S (Env.draws e)))) as H2.
      pose proof (Hrnd (S (S (S (Env.draws e))))) as H3.
      unfold burst_particle, PARTICLE_MAG_RANGE, PARTICLE_LIFETIME_RANGE,
        PARTICLE_RADIUS_RANGE, PARTICLE_MAX_LIFETIME, BULLET_SPEED.
      cbn [Particle.pos Particle.color Particle.lifetime Particle.radius Particle.vel fst snd].
      repeat split; try lra.
      rewrite V2Facts.len_polar, Rabs_pos_eq; lra.
Qed.


End Burst.


End BurstFacts.


Module GameFacts.
Import Game.

Section Frames.

Variable rnd : nat -> R.
Variable coarse : bool.

(** A view of the game that the assignments of [update] leave alone:
    [update] assigns the fields [player], [score], [tutorial],
    [bullets], [enemies], [particles] and [renderer], and, in its last
    step only, the two fields of the spawn of enemies. *)
Record unwritten {C : Type} (proj : t -> C) : Prop := {
  unwritten_player : forall v g, proj (set_player v g) = proj g;
  unwritten_score : forall v g, proj (set_score v g) = proj g;
  unwritten_tutorial : forall v g, proj (set_tutorial v g) = proj g;
  unwritten_bullets : forall v g, proj (set_bullets v g) = proj g;
  unwritten_enemies : forall v g, proj (set_enemies v g) = proj g;
  unwritten_particles : forall v g, proj (set_particles v g) = proj g;
  unwritten_renderer : forall v g, proj (set_renderer v g) = proj g;
}.

Ltac keep H :=
  repeat first
    [ rewrite (unwritten_player _ H) | rewrite (unwritten_score _ H)
    | rewrite (unwritten_tutorial _ H) | rewrite (unwritten_bullets _ H)
    | rewrite (unwritten_enemies _ H) | rewrite (unwritten_particles _ H)
    | rewrite (unwritten_renderer _ H) ].

Section Unwritten.

Context {C : Type} (proj : t -> C) (Hproj : unwritten proj).

Lemma hitBullet_keeps i j s : proj (fst (hitBullet rnd i j s)) = proj (fst s).
Proof using Hproj.
  unfold hitBullet. destruct s as [this e].
  destruct (enemies this !! i) as [enemy|]; [|reflexivity].
  destruct (bullets this !! j) as [bullet|]; [|reflexivity].
  destruct (Rleb _ _); [|reflexivity].
  destruct (particleBurst _ _ _ _ _) as [ps e']. cbn [fst]. now keep Hproj.
Qed.

Lemma scanBullets_keeps i s : proj (fst (scanBullets rnd i s)) = proj (fst s).
Proof using Hproj.
  unfold scanBullets. destruct (enemies (fst s) !! i) as [enemy|]; [|reflexivity].
  destruct (negb (Enemy.ded enemy)); [|reflexivity].
  apply (foldl_keeps _ (fun s => proj (fst s))). intros a b. apply hitBullet_keeps.
Qed.

Lemma hitPlayer_keeps i s : proj (fst (hitPlayer rnd i s)) = proj (fst s).
Proof using Hproj.
  unfold hitPlayer. destruct s as [this e].
  destruct (enemies this !! i) as [enemy|]; [|reflexivity].
  destruct (_ && _); [|reflexivity].
  destruct (Rleb _ _); [|reflexivity].
  destruct (particleBurst _ _ _ _ _) as [ps e']. cbn [fst]. keep Hproj.
  destruct (Rleb _ _); now keep Hproj.
Qed.

Lemma collisions_keeps s : proj (fst (collisions rnd s)) = proj (fst s).
Proof using Hproj.
  unfold collisions. apply (foldl_keeps _ (fun s => proj (fst s))). intros a b.
  now rewrite hitPlayer_keeps, scanBullets_keeps.
Qed.

Lemma prune_keeps dt g : proj (prune dt g) = proj g.
Proof using Hproj. unfold prune. now keep Hproj. Qed.

Lemma shootStep_keeps now_ms g e : proj (fst (shootStep now_ms g e)) = proj g.
Proof using Hproj.
  unfold shootStep. destruct (Rltb _ _); [|reflexivity].
  destruct (Tutorial.playerShot _ _) as [tut e'].
  destruct (Player.shoot _) as [bullet p]. cbn [fst]. now keep Hproj.
Qed.

Lemma simulate_keeps now_ms dt g e :
  proj (snd (fst (simulate rnd coarse now_ms dt g e))) = proj g.
Proof using Hproj.
  unfold simulate.
  destruct (keysVelocity _) as [vel moved].
  match goal with
  | |- context [if moved then ?a else ?b] =>
      assert (Hm : proj (fst (if moved then a else b)) = proj g);
      [ destruct moved; [destruct (Tutorial.playerMoved _ _) as [tut e1]|];
        cbn [fst]; now keep Hproj
      | destruct (if moved then a else b) as [g1 e1] ]
  end.
  cbn [fst] in Hm.
  match goal with
  | |- context [if ?c then ?a else ?b] =>
      assert (Hs : proj (fst (if c then a else b)) = proj g);
      [ destruct c; [rewrite shootStep_keeps|]; cbn [fst]; keep Hproj; exact Hm
      | destruct (if c then a else b) as [g2 e2] ]
  end.
  cbn [fst] in Hs.
  match goal with
  | |- context [collisions rnd ?s] =>
      pose proof (collisions_keeps s) as Hc; destruct (collisions rnd s) as [g3 e3]
  end.
  cbn [fst snd] in *. rewrite prune_keeps, Hc. keep Hproj. exact Hs.
Qed.

End Unwritten.

Lemma unwritten_camera : unwritten camera.
Proof. now split. Qed.

Lemma unwritten_enemySpawnRate : unwritten enemySpawnRate.
Proof. now split. Qed.

Lemma unwritten_enemySpawnCooldown : unwritten enemySpawnCooldown.
Proof. now split. Qed.

Lemma unwritten_paused : unwritten paused.
Proof. now split. Qed.

(** C9. A call of [update] on a paused game sets the grayness of the
    renderer to 1 and changes nothing else: the environment, the
    position and velocity of the camera, the player, the score, the
    tutorial, the bullets, the enemies, the particles (and with them
    every trail), the two fields of the spawn of enemies and every
    other field of the game are as before the call. *)
Theorem update_paused now_ms dt g e :
  paused g = true ->
  let g' := fst (update rnd coarse now_ms dt g e) in
  update rnd coarse now_ms dt g e
  = (set_renderer (RendererI.set_grayness 1 (renderer g)) g, e) /\
  RendererI.cameraPos (renderer g') = RendererI.cameraPos (renderer g) /\
  RendererI.cameraVel (renderer g') = RendererI.cameraVel (renderer g) /\
  player g' = player g /\ score g' = score g /\ tutorial g' = tutorial g /\
  bullets g' = bullets g /\ enemies g' = enemies g /\ particles g' = particles g /\
  enemySpawnRate g' = enemySpawnRate g /\
  enemySpawnCooldown g' = enemySpawnCooldown g /\
  paused g' = paused g /\ pressedKeys g' = pressedKeys g /\ camera g' = camera g.
Proof.
  intros Hp. cbv zeta. unfold update. rewrite Hp. cbn [fst].
  split; [reflexivity|]. destruct (renderer g) as [r|r]; now repeat split.
Qed.

(** *** The field [camera] *)

Lemma spawnStep_camera dt g e : camera (fst (spawnStep rnd dt g e)) = camera g.
Proof.
  unfold spawnStep. destruct (JsVal.loose_eq _ _); [|reflexivity].
  destruct (Rleb _ _); [|reflexivity].
  unfold spawnEnemy. now destruct (randomAngle _ _).
Qed.

Lemma update_camera now_ms dt g e :
  camera (fst (update rnd coarse now_ms dt g e)) = camera g.
Proof.
  unfold update. destruct (paused g); [reflexivity|].
  pose proof (simulate_keeps camera unwritten_camera now_ms dt g e) as Hs.
  destruct (simulate _ _ _ _ _ _) as [[dt1 g1] e1]. cbn [fst snd] in Hs.
  now rewrite spawnStep_camera.
Qed.

Lemma touchMove_camera ts g : camera (touchMove ts g) = camera g.
Proof.
  unfold touchMove. apply foldl_keeps. intros a b.
  destruct (same_touch b (movingTouchId a)); now destruct (same_touch b _).
Qed.

Lemma touchDown_camera w ts g e : camera (fst (touchDown coarse w ts g e)) = camera g.
Proof.
  unfold touchDown. destruct (paused g); [reflexivity|].
  destruct (Rleb _ _); [reflexivity|].
  destruct (Tutorial.playerMoved _ _) as [tut e']. cbn [fst].
  rewrite foldl_keeps; [reflexivity|]. intros a b.
  destruct (Rltb _ _); [now destruct (movingTouchId a) | now destruct (shootingTouchId a)].
Qed.

Lemma touchUp_camera ts g : camera (touchUp ts g) = camera g.
Proof.
  unfold touchUp. apply foldl_keeps. intros a b.
  destruct (same_touch b (movingTouchId a)); now destruct (same_touch b _).
Qed.

(** No call assigns the field [camera]. *)
Lemma step_camera s ev : camera (fst (step rnd coarse s ev)) = camera (fst s).
Proof.
  destruct s as [g e]. change (fst (g, e)) with g.
  unfold step, handle. destruct ev.
  - apply update_camera.
  - unfold render. now destruct (if paused g then _ else _).
  - reflexivity.
  - unfold keyDown. destruct (_ && _); [reflexivity|]. now destruct (String.eqb _ _).
  - reflexivity.
  - unfold mouseMove. destruct (_ && _); [|reflexivity].
    destruct (camera g) as [c|] eqn:Hc; [|exact Hc].
    destruct (RendererI.screenToWorld _ _); exact Hc.
  - unfold mouseDown. destruct (paused g); [reflexivity|].
    destruct (Rleb _ _); [reflexivity|]. now destruct (RendererI.screenToWorld _ _).
  - reflexivity.
  - apply touchMove_camera.
  - apply touchDown_camera.
  - apply touchUp_camera.
  - unfold blur. now destruct (Rltb _ _).
Qed.

(** The states of a session: a game created on some renderer, whatever
    the storage holds, then any calls. *)
Inductive reachable : t * Env.t -> Prop :=
| reachable_new renderer storage :
    reachable (new coarse renderer (Env.mk storage 0), Env.mk storage 0)
| reachable_step s ev : reachable s -> reachable (step rnd coarse s ev).

(** C10. In every state of a session the field [camera] of the game is
    [undefined]; so whenever the game is not paused and the player is
    shooting, [mouseMove] raises a [TypeError] on reading
    [screenToWorld] from it, for every position of the pointer, and the
    aim of the player is not updated: the state after the call is the
    state before it. *)
Theorem mouseMove_faults s offsetX offsetY :
  reachable s ->
  camera (fst s) = None /\
  (paused (fst s) = false -> Player.shooting (player (fst s)) = true ->
   mouseMove offsetX offsetY (fst s)
   = Throw (TypeError "Cannot read properties of undefined (reading 'screenToWorld')") /\
   step rnd coarse s (MouseMove offsetX offsetY) = s).
Proof.
  intros Hr.
  assert (Hc : camera (fst s) = None).
  { induction Hr as [renderer storage | s ev _ IH]; [reflexivity|].
    now rewrite step_camera. }
  split; [exact Hc|]. intros Hp Hs.
  assert (Hm : mouseMove offsetX offsetY (fst s)
               = Throw (TypeError "Cannot read properties of undefined (reading 'screenToWorld')")).
  { unfold mouseMove. now rewrite Hp, Hs, Hc. }
  split; [exact Hm|]. unfold step, handle. destruct s as [g e]. cbn [fst] in Hm.
  now rewrite Hm.
Qed.

(** *** The spawn of enemies *)

(** This call of [update] spawns an enemy: the game is not paused and,
    when the call comes to the spawn, the tutorial is finished and the
    timer less the frame time is not above 0 (the tests of lines 813,
    898 and 900). *)
Definition spawns (now_ms dt : R) (g : t) (e : Env.t) : bool :=
  negb (paused g) &&
  let '(dt1, g1, _) := simulate rnd coarse now_ms dt g e in
  JsVal.loose_eq (Tutorial.state (tutorial g1)) TutorialState.Finished
  && Rleb (enemySpawnCooldown g1 - dt1) 0.

(** This call restarts the game (the tests of [keyDown] and
    [touchDown]). *)
Definition restarts (ev : event) (g : t) : bool :=
  match ev with
  | KeyDown code => Rleb (Player.health (player g)) 0 && String.eqb code "Space"
  | TouchDown _ _ => negb (paused g) && Rleb (Player.health (player g)) 0
  | _ => false
  end.

(** The values the timer was reset to by the spawns of a run since the
    game was last started, in order; [log] holds those of the calls
    made before [evs]. *)
Fixpoint spawnLog (evs : list event) (s : t * Env.t) (log : list R) : list R :=
  match evs with
  | [] => log
  | ev :: evs =>
      let s' := step rnd coarse s ev in
      let log' :=
        if restarts ev (fst s) then []
        else
          match ev with
          | Update now_ms dt =>
              if spawns now_ms dt (fst s) (snd s)
              then log ++ [enemySpawnCooldown (fst s')]
              else log
          | _ => log
          end in
      spawnLog evs s' log'
  end.

Lemma update_spawn now_ms dt g e :
  let g' := fst (update rnd coarse now_ms dt g e) in
  if spawns now_ms dt g e
  then enemySpawnCooldown g' = enemySpawnRate g /\
       enemySpawnRate g' = enemySpawnRate g / ENEMY_SPAWN_GROWTH
  else enemySpawnRate g' = enemySpawnRate g.
Proof.
  cbv zeta. unfold update, spawns. destruct (paused g); [reflexivity|]. cbn [negb andb].
  pose proof (simulate_keeps _ unwritten_enemySpawnRate now_ms dt g e) as Hr.
  destruct (simulate _ _ _ _ _ _) as [[dt1 g1] e1]. cbn [fst snd] in Hr.
  unfold spawnStep. destruct (JsVal.loose_eq _ _); [|exact Hr].
  cbn [andb enemySpawnCooldown set_enemySpawnCooldown].
  destruct (Rleb _ _); [|exact Hr].
  unfold spawnEnemy. destruct (randomAngle _ _) as [dir e2]. cbn. now rewrite Hr.
Qed.

Lemma step_restarts s ev :
  restarts ev (fst s) = true ->
  enemySpawnRate (fst (step rnd coarse s ev)) = ENEMY_SPAWN_COOLDOWN.
Proof.
  destruct s as [g e]. unfold step, handle, restarts. cbn [fst].
  destruct ev; try discriminate; intros Hr.
  - unfold keyDown. now rewrite Hr.
  - unfold touchDown. destruct (paused g); [discriminate|].
    cbn [negb andb] in Hr. now rewrite Hr.
Qed.

Lemma touchMove_rate ts g : enemySpawnRate (touchMove ts g) = enemySpawnRate g.
Proof.
  unfold touchMove. apply foldl_keeps. intros a b.
  destruct (same_touch b (movingTouchId a)); now destruct (same_touch b _).
Qed.

Lemma touchUp_rate ts g : enemySpawnRate (touchUp ts g) = enemySpawnRate g.
Proof.
  unfold touchUp. apply foldl_keeps. intros a b.
  destruct (same_touch b (movingTouchId a)); now destruct (same_touch b _).
Qed.

(** A call other than [update] that does not restart the game leaves
    the interval as it was. *)
Lemma step_rate s ev :
  restarts ev (fst s) = false -> (forall now_ms dt, ev <> Update now_ms dt) ->
  enemySpawnRate (fst (step rnd coarse s ev)) = enemySpawnRate (fst s).
Proof.
  destruct s as [g e]. change (fst (g, e)) with g.
  unfold step, handle, restarts. destruct ev; intros Hr Hu.
  - now destruct (Hu now_ms dt).
  - unfold render. now destruct (if paused g then _ else _).
  - reflexivity.
  - unfold keyDown. rewrite Hr. now destruct (String.eqb _ _).
  - reflexivity.
  - unfold mouseMove. destruct (_ && _); [|reflexivity].
    destruct (camera g) as [c|]; [|reflexivity].
    now destruct (RendererI.screenToWorld _ _).
  - unfold mouseDown. destruct (paused g); [reflexivity|].
    destruct (Rleb _ _); [reflexivity|]. now destruct (RendererI.screenToWorld _ _).
  - reflexivity.
  - apply touchMove_rate.
  - unfold touchDown. destruct (paused g); [reflexivity|].
    cbn [negb andb] in Hr. rewrite Hr.
    destruct (Tutorial.playerMoved _ _) as [tut e']. cbn [fst].
    rewrite foldl_keeps; [reflexivity|]. intros a b.
    destruct (Rltb _ _); [now destruct (movingTouchId a) | now destruct (shootingTouchId a)].
  - apply touchUp_rate.
  - unfold blur. now destruct (Rltb _ _).
Qed.

(** What a run keeps true of the interval and of the log. *)
Definition scheduled (s : t * Env.t) (log : list R) : Prop :=
  enemySpawnRate (fst s) = ENEMY_SPAWN_COOLDOWN / ENEMY_SPAWN_GROWTH ^ length log /\
  forall n x, log !! n = Some x -> x = ENEMY_SPAWN_COOLDOWN / ENEMY_SPAWN_GROWTH ^ n.

Lemma scheduled_step s log ev :
  scheduled s log ->
  scheduled (step rnd coarse s ev)
    (if restarts ev (fst s) then []
     else
       match ev with
       | Update now_ms dt =>
           if spawns now_ms dt (fst s) (snd s)
           then log ++ [enemySpawnCooldown (fst (step rnd coarse s ev))]
           else log
       | _ => log
       end).
Proof.
  intros [Hrate Hlog]. destruct (restarts ev (fst s)) eqn:Hr.
  - split; [|intros n x Hn; discriminate Hn].
    rewrite step_restarts by exact Hr. cbn [length pow]. field.
  - assert (Hother : (forall now_ms dt, ev <> Update now_ms dt) ->
                     scheduled (step rnd coarse s ev) log).
    { intros Hu. split; [|exact Hlog]. now rewrite step_rate. }
    destruct ev; try (apply Hother; intros; discriminate).
    destruct s as [g e]. cbn [fst snd] in *.
    pose proof (update_spawn now_ms dt g e) as Hu. cbv zeta in Hu.
    change (step rnd coarse (g, e) (Update now_ms dt)) with (update rnd coarse now_ms dt g e).
    destruct (spawns now_ms dt g e).
    + destruct Hu as [Hcd Hrt]. split.
      * rewrite Hrt, Hrate, length_app. cbn [length].
        replace (length log + 1)%nat with (S (length log)) by lia.
        cbn [pow]. unfold ENEMY_SPAWN_GROWTH. field.
        split; [apply pow_nonzero|]; lra.
      * intros n x Hn. apply lookup_app_Some in Hn.
        destruct Hn as [Hn | [Hlen Hn]]; [now apply Hlog|].
        apply list_lookup_singleton_Some in Hn. destruct Hn as [Hn <-].
        replace n with (length log) by lia. now rewrite Hcd.
    + split; [|exact Hlog]. now rewrite Hu.
Qed.

Lemma spawnLog_scheduled evs s log :
  scheduled s log ->
  forall n x, spawnLog evs s log !! n = Some x ->
              x = ENEMY_SPAWN_COOLDOWN / ENEMY_SPAWN_GROWTH ^ n.
Proof.
  revert s log. induction evs as [|ev evs IH]; intros s log Hs.
  - exact (proj2 Hs).
  - cbn [spawnLog]. apply IH. now apply scheduled_step.
Qed.

Lemma interval_positive n : 0 < ENEMY_SPAWN_COOLDOWN / ENEMY_SPAWN_GROWTH ^ n.
Proof.
  apply Rdiv_lt_0_compat; [unfold ENEMY_SPAWN_COOLDOWN; lra|].
  apply pow_lt. unfold ENEMY_SPAWN_GROWTH. lra.
Qed.

Lemma interval_decreasing n :
  ENEMY_SPAWN_COOLDOWN / ENEMY_SPAWN_GROWTH ^ S n
  < ENEMY_SPAWN_COOLDOWN / ENEMY_SPAWN_GROWTH ^ n.
Proof.
  pose proof (interval_positive n) as Hp.
  assert (Hg : ENEMY_SPAWN_GROWTH ^ n <> 0) by (apply pow_nonzero; unfold ENEMY_SPAWN_GROWTH; lra).
  replace (ENEMY_SPAWN_COOLDOWN / ENEMY_SPAWN_GROWTH ^ S n)
    with (ENEMY_SPAWN_COOLDOWN / ENEMY_SPAWN_GROWTH ^ n / ENEMY_SPAWN_GROWTH).
  - unfold ENEMY_SPAWN_GROWTH in *. lra.
  - cbn [pow]. field. split; [exact Hg | unfold ENEMY_SPAWN_GROWTH; lra].
Qed.


End Frames.

(** Two games with the same fields are the same game. *)
Lemma game_ext (a b : t) :
  player a = player b -> score a = score b -> mousePos a = mousePos b ->
  movingTouchId a = movingTouchId b -> movingTouchStart a = movingTouchStart b ->
  movingTouchDirection a = movingTouchDirection b ->
  shootingTouchId a = shootingTouchId b -> shootingTouchStart a = shootingTouchStart b ->
  shootingTouchDirection a = shootingTouchDirection b ->
  pressedKeys a = pressedKeys b -> tutorial a = tutorial b -> bullets a = bullets b ->
  enemies a = enemies b -> particles a = particles b ->
  enemySpawnRate a = enemySpawnRate b -> enemySpawnCooldown a = enemySpawnCooldown b ->
  paused a = paused b -> renderer a = renderer b -> camera a = camera b ->
  a = b.
Proof.
  destruct a, b.
  cbn [player score mousePos movingTouchId movingTouchStart movingTouchDirection
       shootingTouchId shootingTouchStart shootingTouchDirection pressedKeys tutorial
       bullets enemies particles enemySpawnRate enemySpawnCooldown paused renderer camera].
  intros. subst. reflexivity.
Qed.

(** *** The bullets against an enemy *)

Section Collisions.

Variable rnd : nat -> R.

(** The test of line 855. *)
Definition inRange (enemy : Enemy.t) (bullet : Bullet.t) : bool :=
  Rleb (V2.dist (Enemy.pos enemy) (Bullet.pos bullet)) (BULLET_RADIUS + ENEMY_RADIUS).

(** The number of bullets in range of an enemy. *)
Definition hits (enemy : Enemy.t) (bs : list Bullet.t) : nat :=
  length (List.filter (inRange enemy) bs).

(** What a scan does to a bullet. *)
Definition zap (enemy : Enemy.t) (bullet : Bullet.t) : Bullet.t :=
  if inRange enemy bullet then Bullet.set_lifetime 0 bullet else bullet.

(** What a hit does besides marking the enemy and the bullet (lines
    856-858 and 861), for an enemy at [center]. *)
Definition award (center : V2.t) (s : t * Env.t) : t * Env.t :=
  let '(g, e) := s in
  let g := set_score (score g + ENEMY_KILL_SCORE) g in
  let g := set_player (Player.heal ENEMY_KILL_HEAL (player g)) g in
  let g := set_player (Player.set_accuracy (Player.accuracy (player g) + 1) (player g)) g in
  let '(ps, e) := particleBurst rnd (particles g) center ENEMY_COLOR e in
  (set_particles ps g, e).

(** The state of a scan of the bullets for the enemy at index [i], when
    the bullets [done] have been met and the bullets [rest] are to
    come. *)
Definition scanned (i : nat) (enemy : Enemy.t) (s : t * Env.t) (done rest : list Bullet.t)
    : t * Env.t :=
  let k := hits enemy done in
  let '(g1, e1) := Nat.iter k (award (Enemy.pos enemy)) s in
  (set_enemies
     (if (0 <? k)%nat then alter (Enemy.set_ded true) i (enemies (fst s))
      else enemies (fst s))
     (set_bullets (map (zap enemy) done ++ rest) g1),
   e1).

Lemma hits_snoc enemy done b :
  hits enemy (done ++ [b]) = if inRange enemy b then S (hits enemy done) else hits enemy done.
Proof.
  unfold hits. rewrite List.filter_app, length_app. cbn [List.filter].
  destruct (inRange enemy b); cbn [length]; lia.
Qed.

Lemma alter_set_ded_twice i (es : list Enemy.t) :
  alter (Enemy.set_ded true) i (alter (Enemy.set_ded true) i es)
  = alter (Enemy.set_ded true) i es.
Proof.
  revert i. induction es as [|e0 es IH]; intros [|i]; cbn; try reflexivity.
  now rewrite IH.
Qed.

Lemma scanned_step i enemy g e done b rest :
  enemies g !! i = Some enemy ->
  hitBullet rnd i (length done) (scanned i enemy (g, e) done (b :: rest))
  = scanned i enemy (g, e) (done ++ [b]) rest.
Proof.
  intros Hi. unfold scanned. rewrite hits_snoc. cbn [fst].
  set (k := hits enemy done).
  assert (Hb : forall g1 : t,
             (map (zap enemy) done ++ b :: rest) !! length done = Some b).
  { intros _. apply list_lookup_middle. now rewrite length_map. }
  assert (He : exists enemy',
             (if (0 <? k)%nat then alter (Enemy.set_ded true) i (enemies g) else enemies g) !! i
             = Some enemy' /\ Enemy.pos enemy' = Enemy.pos enemy).
  { destruct (0 <? k)%nat.
    - exists (Enemy.set_ded true enemy). split; [|reflexivity].
      now rewrite list_lookup_alter_eq, Hi.
    - now exists enemy. }
  destruct He as [enemy' [He Hpos]].
  destruct (Nat.iter k (award (Enemy.pos enemy)) (g, e)) as [g1 e1] eqn:Hk.
  unfold hitBullet. cbn [enemies set_enemies bullets set_bullets].
  rewrite He, (Hb g1), Hpos.
  change (Rleb (V2.dist (Enemy.pos enemy) (Bullet.pos b)) (BULLET_RADIUS + ENEMY_RADIUS))
    with (inRange enemy b).
  destruct (inRange enemy b) eqn:Hr.
  - rewrite Nat.iter_succ, Hk. unfold award.
    cbn [particles set_score set_player set_bullets set_enemies player score].
    destruct (particleBurst rnd (particles g1) (Enemy.pos enemy) ENEMY_COLOR e1) as [ps e2].
    f_equal. apply game_ext; try reflexivity;
      cbn [bullets enemies set_particles set_enemies set_bullets set_player set_score].
    + assert (Hz : zap enemy b = Bullet.set_lifetime 0 b) by (unfold zap; now rewrite Hr).
      rewrite map_app. cbn [map]. rewrite Hz.
      rewrite <- app_assoc. cbn [app].
      replace (length done) with (length (map (zap enemy) done) + 0)%nat
        by (rewrite length_map; lia).
      now rewrite alter_app_r.
    + destruct (0 <? k)%nat; [apply alter_set_ded_twice | reflexivity].
  - assert (Hz : zap enemy b = b) by (unfold zap; now rewrite Hr).
    rewrite Hk. rewrite map_app. cbn [map]. rewrite Hz.
    now rewrite <- app_assoc.
Qed.

Lemma scanned_fold i enemy g e rest :
  enemies g !! i = Some enemy ->
  forall done,
    foldl (fun s j => hitBullet rnd i j s) (scanned i enemy (g, e) done rest)
          (seq (length done) (length rest))
    = scanned i enemy (g, e) (done ++ rest) [].
Proof.
  intros Hi. induction rest as [|b rest IH]; intros done.
  - now rewrite app_nil_r.
  - cbn [length seq foldl]. rewrite scanned_step by exact Hi.
    replace (S (length done)) with (length (done ++ [b])) by (rewrite length_app; cbn; lia).
    rewrite IH. now rewrite <- app_assoc.
Qed.

(** The scan of the bullets for an enemy that is not dead: one award
    for each bullet in range, every bullet in range with lifetime 0, and
    the enemy dead if there was one. *)
Lemma scanBullets_scanned i enemy g e :
  enemies g !! i = Some enemy -> Enemy.ded enemy = false ->
  scanBullets rnd i (g, e) = scanned i enemy (g, e) (bullets g) [].
Proof.
  intros Hi Hd. unfold scanBullets. cbn [fst]. rewrite Hi, Hd. cbn [negb].
  assert (H0 : (g, e) = scanned i enemy (g, e) [] (bullets g)).
  { unfold scanned. cbn. now destruct g. }
  rewrite H0 at 1. apply (scanned_fold i enemy g e (bullets g) Hi []).
Qed.

(** The awards of [k] hits. *)
Lemma award_score center k s :
  score (fst (Nat.iter k (award center) s)) = (score (fst s) + ENEMY_KILL_SCORE * Z.of_nat k)%Z.
Proof.
  induction k as [|k IH]; [cbn; lia|].
  rewrite Nat.iter_succ. destruct (Nat.iter k (award center) s) as [g1 e1].
  unfold award. destruct (particleBurst _ _ _ _ _) as [ps e2].
  cbn [fst score set_particles set_player set_score] in *. rewrite IH. lia.
Qed.

Lemma award_accuracy center k s :
  Player.accuracy (player (fst (Nat.iter k (award center) s)))
  = (Player.accuracy (player (fst s)) + Z.of_nat k)%Z.
Proof.
  induction k as [|k IH]; [cbn; lia|].
  rewrite Nat.iter_succ. destruct (Nat.iter k (award center) s) as [g1 e1].
  unfold award. destruct (particleBurst _ _ _ _ _) as [ps e2].
  cbn [fst player set_particles set_player Player.accuracy Player.set_accuracy] in *.
  assert (Hh : Player.accuracy (Player.heal ENEMY_KILL_HEAL (player (set_score (score g1 + ENEMY_KILL_SCORE) g1)))
               = Player.accuracy (player g1)).
  { unfold Player.heal. now destruct (Rltb _ _). }
  rewrite Hh, IH. lia.
Qed.

Lemma award_health_step center s :
  Player.health (player (fst (award center s)))
  = Player.health (Player.heal ENEMY_KILL_HEAL (player (fst s))).
Proof.
  destruct s as [g e]. unfold award. now destruct (particleBurst _ _ _ _ _).
Qed.

Lemma heal_dead value p :
  Player.health p <= 0 -> Player.heal value p = p.
Proof. intros H. unfold Player.heal. apply Rltb_false in H. now rewrite H. Qed.

Lemma heal_alive value p :
  0 < Player.health p ->
  Player.health (Player.heal value p) = Rmin (Player.health p + value) PLAYER_MAX_HEALTH.
Proof. intros H. unfold Player.heal. apply Rltb_true in H. now rewrite H. Qed.

Lemma award_health_dead center k s :
  Player.health (player (fst s)) <= 0 ->
  Player.health (player (fst (Nat.iter k (award center) s))) = Player.health (player (fst s)).
Proof.
  intros H. induction k as [|k IH]; [reflexivity|].
  rewrite Nat.iter_succ, award_health_step, heal_dead; [exact IH | now rewrite IH].
Qed.

Lemma award_health_alive center k s :
  0 < Player.health (player (fst s)) ->
  Player.health (player (fst (Nat.iter (S k) (award center) s)))
  = Rmin (Player.health (player (fst s)) + ENEMY_KILL_HEAL * INR (S k)) PLAYER_MAX_HEALTH.
Proof.
  intros H. induction k as [|k IH].
  - rewrite Nat.iter_succ, award_health_step. cbn [Nat.iter nat_rect INR].
    rewrite heal_alive by exact H. now rewrite Rmult_1_r.
  - rewrite Nat.iter_succ, award_health_step.
    assert (Hpos : 0 < Player.health (player (fst (Nat.iter (S k) (award center) s)))).
    { rewrite IH. unfold Rmin, ENEMY_KILL_HEAL, PLAYER_MAX_HEALTH.
      pose proof (pos_INR (S k)). destruct (Rle_dec _ _); lra. }
    rewrite heal_alive by exact Hpos. rewrite IH.
    rewrite (S_INR (S k)). unfold Rmin, ENEMY_KILL_HEAL, PLAYER_MAX_HEALTH.
    repeat destruct (Rle_dec _ _); lra.
Qed.

(** The particles and the environment after the awards of [k] hits: [k]
    bursts in the colour of the enemies. *)
Definition bursts (center : V2.t) (k : nat) (pe : list Particle.t * Env.t)
    : list Particle.t * Env.t :=
  Nat.iter k (fun pe => particleBurst rnd (fst pe) center ENEMY_COLOR (snd pe)) pe.

Lemma award_bursts center k s :
  (particles (fst (Nat.iter k (award center) s)), snd (Nat.iter k (award center) s))
  = bursts center k (particles (fst s), snd s).
Proof.
  unfold bursts. induction k as [|k IH]; [reflexivity|].
  rewrite !Nat.iter_succ, <- IH.
  destruct (Nat.iter k (award center) s) as [g1 e1].
  unfold award. cbn [particles set_score set_player fst snd].
  now destruct (particleBurst _ _ _ _ _).
Qed.

(** The fields of the state after a scan. *)
Lemma scanned_fields i enemy s bs :
  let k := hits enemy bs in
  let s' := scanned i enemy s bs [] in
  bullets (fst s') = map (zap enemy) bs /\
  enemies (fst s')
  = (if (0 <? k)%nat then alter (Enemy.set_ded true) i (enemies (fst s)) else enemies (fst s)) /\
  score (fst s') = (score (fst s) + ENEMY_KILL_SCORE * Z.of_nat k)%Z /\
  Player.accuracy (player (fst s')) = (Player.accuracy (player (fst s)) + Z.of_nat k)%Z /\
  Player.health (player (fst s'))
  = Player.health (player (fst (Nat.iter k (award (Enemy.pos enemy)) s))) /\
  (particles (fst s'), snd s') = bursts (Enemy.pos enemy) k (particles (fst s), snd s).
Proof.
  cbv zeta. unfold scanned.
  pose proof (award_score (Enemy.pos enemy) (hits enemy bs) s) as Hs.
  pose proof (award_accuracy (Enemy.pos enemy) (hits enemy bs) s) as Ha.
  pose proof (award_bursts (Enemy.pos enemy) (hits enemy bs) s) as Hb.
  destruct (Nat.iter (hits enemy bs) (award (Enemy.pos enemy)) s) as [g1 e1].
  cbn [fst snd] in *. rewrite app_nil_r. now repeat split.
Qed.

(** *** The whole pass *)

Lemma lookup_map {A B : Type} (f : A -> B) (l : list A) (k : nat) :
  map f l !! k = option_map f (l !! k).
Proof. revert k. induction l as [|a l IH]; intros [|k]; cbn; auto. Qed.

Lemma inRange_pos en en' b b' :
  Enemy.pos en' = Enemy.pos en -> Bullet.pos b' = Bullet.pos b ->
  inRange en' b' = inRange en b.
Proof. intros He Hb. unfold inRange. now rewrite He, Hb. Qed.

(** What the pass does to a bullet, given the enemies as they were
    before the pass. *)
Definition zapAll (es : list Enemy.t) (b : Bullet.t) : Bullet.t :=
  if existsb (fun en => negb (Enemy.ded en) && inRange en b) es
  then Bullet.set_lifetime 0 b
  else b.

(** The number of pairs of an enemy that is not dead and a bullet in
    range of it. *)
Definition totalHits (es : list Enemy.t) (bs : list Bullet.t) : nat :=
  list_sum (map (fun en => if Enemy.ded en then 0%nat else hits en bs) es).

Lemma zap_pos en b : Bullet.pos (zap en b) = Bullet.pos b.
Proof. unfold zap. now destruct (inRange en b). Qed.

Lemma zapAll_pos es b : Bullet.pos (zapAll es b) = Bullet.pos b.
Proof. unfold zapAll. now destruct (existsb _ es). Qed.

Lemma hits_map enemy enemy' (f : Bullet.t -> Bullet.t) bs :
  Enemy.pos enemy' = Enemy.pos enemy -> (forall b, Bullet.pos (f b) = Bullet.pos b) ->
  hits enemy' (map f bs) = hits enemy bs.
Proof.
  intros He Hf. unfold hits. induction bs as [|b bs IH]; [reflexivity|].
  cbn [map List.filter]. rewrite (inRange_pos enemy enemy' b (f b) He (Hf b)).
  destruct (inRange enemy b); cbn [length]; now rewrite IH.
Qed.

Lemma zapAll_snoc pre en en' b :
  Enemy.pos en' = Enemy.pos en ->
  (if Enemy.ded en then zapAll pre b else zap en' (zapAll pre b)) = zapAll (pre ++ [en]) b.
Proof.
  intros Hp. unfold zapAll. rewrite existsb_app. cbn [existsb]. rewrite orb_false_r.
  destruct (existsb _ pre) eqn:Hpre; cbn [orb].
  - destruct (Enemy.ded en); [reflexivity|]. unfold zap.
    now destruct (inRange en' (Bullet.set_lifetime 0 b)).
  - destruct (Enemy.ded en); [reflexivity|]. cbn [negb andb]. unfold zap.
    now rewrite (inRange_pos en en' b b Hp eq_refl).
Qed.

Lemma totalHits_snoc pre en bs :
  totalHits (pre ++ [en]) bs
  = (totalHits pre bs + (if Enemy.ded en then 0 else hits en bs))%nat.
Proof. unfold totalHits. rewrite map_app, list_sum_app. cbn [map list_sum fold_right]. lia. Qed.

(** What the scan of the bullets for the enemy at index [i] does to the
    fields the pass is about. *)
Lemma scanBullets_effect i s en :
  enemies (fst s) !! i = Some en ->
  let k := if Enemy.ded en then 0%nat else hits en (bullets (fst s)) in
  let s' := scanBullets rnd i s in
  bullets (fst s')
  = (if Enemy.ded en then bullets (fst s) else map (zap en) (bullets (fst s))) /\
  enemies (fst s')
  = (if (0 <? k)%nat then alter (Enemy.set_ded true) i (enemies (fst s)) else enemies (fst s)) /\
  score (fst s') = (score (fst s) + ENEMY_KILL_SCORE * Z.of_nat k)%Z /\
  Player.accuracy (player (fst s')) = (Player.accuracy (player (fst s)) + Z.of_nat k)%Z.
Proof.
  intros Hi. cbv zeta. destruct s as [g e]. cbn [fst] in Hi.
  destruct (Enemy.ded en) eqn:Hd.
  - unfold scanBullets. cbn [fst]. rewrite Hi, Hd. cbn [negb fst Nat.ltb Nat.leb].
    repeat split; lia.
  - rewrite (scanBullets_scanned i en g e Hi Hd).
    destruct (scanned_fields i en (g, e) (bullets g)) as (Hb & He & Hs & Ha & _).
    cbn [fst] in *. now repeat split.
Qed.

(** What the test of the enemy at index [i] against the player does to
    them. *)
Lemma hitPlayer_effect i s :
  let s' := hitPlayer rnd i s in
  bullets (fst s') = bullets (fst s) /\
  score (fst s') = score (fst s) /\
  Player.accuracy (player (fst s')) = Player.accuracy (player (fst s)) /\
  forall k en,
    enemies (fst s) !! k = Some en ->
    exists en',
      enemies (fst s') !! k = Some en' /\ Enemy.pos en' = Enemy.pos en /\
      (k <> i -> Enemy.ded en' = Enemy.ded en) /\
      (Enemy.ded en = true -> Enemy.ded en' = true).
Proof.
  cbv zeta. destruct s as [g e]. unfold hitPlayer.
  assert (Hsame : forall k en, enemies g !! k = Some en ->
            exists en', enemies g !! k = Some en' /\ Enemy.pos en' = Enemy.pos en /\
              (k <> i -> Enemy.ded en' = Enemy.ded en) /\
              (Enemy.ded en = true -> Enemy.ded en' = true)).
  { intros k en Hk. now exists en. }
  destruct (enemies g !! i) as [enemy|]; [|now repeat split].
  destruct (_ && _); [|now repeat split].
  destruct (Rleb _ _); [|now repeat split].
  destruct (particleBurst _ _ _ _ _) as [ps e'].
  destruct (Rleb _ _);
    cbn [fst bullets score player enemies set_particles set_enemies set_player
           Player.accuracy Player.damage Player.set_health Player.set_trail];
    (split; [reflexivity|]; split; [reflexivity|]; split; [reflexivity|]);
    intros k en Hk.
  - destruct (Nat.eq_dec k i) as [->|Hne].
    + eexists. rewrite list_lookup_alter_eq, lookup_map, Hk. now repeat split.
    + eexists. rewrite list_lookup_alter_ne, lookup_map, Hk by congruence.
      now repeat split.
  - destruct (Nat.eq_dec k i) as [->|Hne].
    + eexists. rewrite list_lookup_alter_eq, Hk. now repeat split.
    + exists en. rewrite list_lookup_alter_ne by congruence. now repeat split.
Qed.

(** The state of the pass after the enemies of index below [n]. *)
Definition passed (s : t * Env.t) (n : nat) : t * Env.t :=
  foldl (fun s i => hitPlayer rnd i (scanBullets rnd i s)) s (seq 0 n).

Lemma passed_succ s n :
  passed s (S n) = hitPlayer rnd n (scanBullets rnd n (passed s n)).
Proof. unfold passed. now rewrite seq_S, foldl_app. Qed.

Lemma passed_collisions s : collisions rnd s = passed s (length (enemies (fst s))).
Proof. reflexivity. Qed.

(** What holds after the enemies of index below [n], of the bullets, of
    the score, of the count of hits, and of each enemy: it is where it
    was; from index [n] on it is dead or not as it was; below [n] it is
    dead if it was not and a bullet was in range. *)
Definition pass_inv (g : t) (n : nat) (gn : t) : Prop :=
  bullets gn = map (zapAll (take n (enemies g))) (bullets g) /\
  score gn = (score g + ENEMY_KILL_SCORE * Z.of_nat (totalHits (take n (enemies g)) (bullets g)))%Z /\
  Player.accuracy (player gn)
  = (Player.accuracy (player g) + Z.of_nat (totalHits (take n (enemies g)) (bullets g)))%Z /\
  forall k en,
    enemies g !! k = Some en ->
    exists en',
      enemies gn !! k = Some en' /\ Enemy.pos en' = Enemy.pos en /\
      ((n <= k)%nat -> Enemy.ded en' = Enemy.ded en) /\
      ((k < n)%nat -> Enemy.ded en = false -> (0 < hits en (bullets g))%nat ->
       Enemy.ded en' = true).

Lemma pass_inv_passed g e n :
  (n <= length (enemies g))%nat -> pass_inv g n (fst (passed (g, e) n)).
Proof.
  induction n as [|n IH]; intros Hn.
  - unfold pass_inv, passed, totalHits. rewrite !take_0.
    cbn [seq foldl fst map list_sum fold_right Z.of_nat].
    split; [|split; [|split]].
    + unfold zapAll. cbn [existsb]. now rewrite map_id.
    + lia.
    + lia.
    + intros k en Hk. exists en. repeat split; [assumption | lia].
  - destruct (IH ltac:(lia)) as (Hb & Hs & Ha & He). clear IH.
    destruct (lookup_lt_is_Some_2 (enemies g) n ltac:(lia)) as [en Hen].
    destruct (He n en Hen) as (en' & Hen' & Hpos & Hded & _).
    specialize (Hded (Nat.le_refl n)).
    rewrite passed_succ. set (sn := passed (g, e) n) in *.
    destruct (scanBullets_effect n sn en' Hen') as (Sb & Se & Ss & Sa).
    destruct (hitPlayer_effect n (scanBullets rnd n sn)) as (Pb & Ps & Pa & Pe).
    cbv zeta in *.
    assert (Hk : (if Enemy.ded en' then 0%nat else hits en' (bullets (fst sn)))
                 = (if Enemy.ded en then 0%nat else hits en (bullets g))).
    { rewrite Hded. destruct (Enemy.ded en); [reflexivity|].
      rewrite Hb. apply hits_map; [exact Hpos | apply zapAll_pos]. }
    rewrite Hk in *. clear Hk.
    unfold pass_inv. rewrite (take_S_r _ _ _ Hen).
    split; [|split; [|split]].
    + rewrite Pb, Sb, Hded, Hb.
      destruct (Enemy.ded en) eqn:Hd.
      * apply map_ext. intros b. rewrite <- (zapAll_snoc _ en en' b Hpos). now rewrite Hd.
      * rewrite map_map. apply map_ext. intros b.
        rewrite <- (zapAll_snoc _ en en' b Hpos). now rewrite Hd.
    + rewrite Ps, Ss, Hs, totalHits_snoc. lia.
    + rewrite Pa, Sa, Ha, totalHits_snoc. lia.
    + intros k en0 Hk0.
      destruct (He k en0 Hk0) as (en1 & Hk1 & Hp1 & Hge1 & Hlt1).
      assert (Hscan : exists en2,
                 enemies (fst (scanBullets rnd n sn)) !! k = Some en2 /\
                 Enemy.pos en2 = Enemy.pos en1 /\
                 (k <> n -> Enemy.ded en2 = Enemy.ded en1) /\
                 (Enemy.ded en1 = true -> Enemy.ded en2 = true) /\
                 (k = n -> Enemy.ded en = false -> (0 < hits en (bullets g))%nat ->
                  Enemy.ded en2 = true)).
      { rewrite Se. destruct (0 <? _)%nat eqn:Hpos0.
        - destruct (Nat.eq_dec k n) as [->|Hne].
          + exists (Enemy.set_ded true en1). rewrite list_lookup_alter_eq, Hk1.
            now repeat split.
          + exists en1. rewrite list_lookup_alter_ne by congruence.
            repeat split; try assumption; intros; congruence.
        - exists en1. split; [exact Hk1|]. split; [reflexivity|]. split; [reflexivity|].
          split; [trivial|]. intros -> Hd Hh.
          rewrite Hen in Hk0. injection Hk0 as <-. rewrite Hd in Hpos0.
          apply Nat.ltb_ge in Hpos0. lia. }
      destruct Hscan as (en2 & Hk2 & Hp2 & Hne2 & Hmono2 & Hhit2).
      destruct (Pe k en2 Hk2) as (en3 & Hk3 & Hp3 & Hne3 & Hmono3).
      exists en3. split; [exact Hk3|]. split; [congruence|]. split.
      * intros Hle. rewrite Hne3, Hne2 by lia. apply Hge1. lia.
      * intros Hlt Hd Hh. apply Hmono3.
        destruct (Nat.eq_dec k n) as [->|Hne].
        { assert (en0 = en) by congruence. subst en0. now apply Hhit2. }
        apply Hmono2, Hlt1; [lia | assumption | assumption].
Qed.

(** The health of a dead player is not changed by the pass. *)
Lemma collisions_dead s :
  Player.health (player (fst s)) <= 0 ->
  Player.health (player (fst (collisions rnd s))) = Player.health (player (fst s)).
Proof.
  intros Hdead. unfold collisions.
  set (h := Player.health (player (fst s))) in *.
  assert (Hstep : forall a i, Player.health (player (fst a)) = h ->
            Player.health (player (fst (hitPlayer rnd i (scanBullets rnd i a)))) = h).
  { intros a i Ha.
    assert (Hscan : Player.health (player (fst (scanBullets rnd i a))) = h).
    { unfold scanBullets. destruct (enemies (fst a) !! i) as [enemy|]; [|exact Ha].
      destruct (negb (Enemy.ded enemy)); [|exact Ha].
      generalize (seq 0 (length (bullets (fst a)))). intros l. revert a Ha.
      induction l as [|j l IH]; intros a Ha; [exact Ha|].
      cbn [foldl]. apply IH. unfold hitBullet. destruct a as [g e]. cbn [fst] in Ha.
      destruct (enemies g !! i) as [en|]; [|exact Ha].
      destruct (bullets g !! j) as [b|]; [|exact Ha].
      destruct (Rleb _ _); [|exact Ha].
      destruct (particleBurst _ _ _ _ _) as [ps e'].
      cbn [fst player set_particles set_enemies set_bullets set_player set_score
             Player.health Player.set_accuracy].
      rewrite heal_dead; [exact Ha | rewrite Ha; exact Hdead]. }
    unfold hitPlayer. destruct (scanBullets rnd i a) as [g e]. cbn [fst] in Hscan.
    destruct (enemies g !! i) as [en|]; [|exact Hscan].
    assert (Hlt : Rltb 0 (Player.health (player g)) = false)
      by (apply Rltb_false; rewrite Hscan; exact Hdead).
    rewrite Hlt. exact Hscan. }
  generalize (seq 0 (length (enemies (fst s)))). intros l.
  assert (H0 : Player.health (player (fst s)) = h) by reflexivity.
  revert H0. generalize s at 1 2. induction l as [|i l IH]; intros a Ha; [exact Ha|].
  cbn [foldl]. apply IH. now apply Hstep.
Qed.

Lemma dist_self p : V2.dist p p = 0.
Proof.
  unfold V2.dist, V2.len, V2.sub. cbn [V2.x V2.y].
  replace ((V2.x p - V2.x p) * (V2.x p - V2.x p) + (V2.y p - V2.y p) * (V2.y p - V2.y p))
    with 0 by ring.
  apply sqrt_0.
Qed.

(** The particles of a burst are added at the end, at the centre and in
    the colour asked. *)
Lemma particleBurst_added particles center color e :
  exists added,
    fst (particleBurst rnd particles center color e) = particles ++ added /\
    Forall (fun p => Particle.pos p = center /\ Particle.color p = color) added.
Proof.
  unfold particleBurst. destruct (randomBetween rnd PARTICLES_COUNT_RANGE e) as [N e1].
  generalize (loop_count N). intros n. revert particles e1.
  induction n as [|n IH]; intros particles e1.
  - exists []. split; [now rewrite app_nil_r | constructor].
  - cbn [particleBurst_loop].
    destruct (randomBetween rnd PARTICLE_MAG_RANGE e1) as [mag e2].
    destruct (randomAngle rnd e2) as [dir e3].
    destruct (randomBetween rnd PARTICLE_LIFETIME_RANGE e3) as [lifetime e4].
    destruct (randomBetween rnd PARTICLE_RADIUS_RANGE e4) as [radius e5].
    destruct (IH (particles ++ [Particle.mk center (V2.polar mag dir) lifetime radius color]) e5)
      as (added & Hadd & Hall).
    eexists. split; [rewrite Hadd, <- app_assoc; reflexivity|].
    constructor; [now split | exact Hall].
Qed.

Lemma bursts_added center k pe :
  exists added,
    fst (bursts center k pe) = fst pe ++ added /\
    Forall (fun p => Particle.pos p = center /\ Particle.color p = ENEMY_COLOR) added.
Proof.
  unfold bursts. induction k as [|k IH].
  - exists []. split; [now rewrite app_nil_r | constructor].
  - rewrite Nat.iter_succ. destruct IH as (added & Hadd & Hall).
    destruct (particleBurst_added (fst (Nat.iter k
                 (fun pe => particleBurst rnd (fst pe) center ENEMY_COLOR (snd pe)) pe))
                center ENEMY_COLOR
                (snd (Nat.iter k
                 (fun pe => particleBurst rnd (fst pe) center ENEMY_COLOR (snd pe)) pe)))
      as (added' & Hadd' & Hall').
    exists (added ++ added'). split.
    + rewrite Hadd', Hadd. now rewrite app_assoc.
    + now apply Forall_app.
Qed.


End Collisions.

(** The health of a dead player is not changed by [update]. *)
Lemma update_dead rnd coarse now_ms dt g e :
  Player.health (player g) <= 0 ->
  Player.health (player (fst (update rnd coarse now_ms dt g e))) = Player.health (player g).
Proof.
  intros Hdead. unfold update. destruct (paused g); [reflexivity|].
  assert (Hsim : Player.health (player (snd (fst (simulate rnd coarse now_ms dt g e))))
                 = Player.health (player g)).
  { unfold simulate. destruct (keysVelocity _) as [vel moved].
    match goal with
    | |- context [if moved then ?a else ?b] =>
        assert (Hm : player (fst (if moved then a else b)) = player g);
        [ destruct moved; [destruct (Tutorial.playerMoved _ _) as [tut e1]|]; reflexivity
        | destruct (if moved then a else b) as [g1 e1] ]
    end.
    cbn [fst] in Hm.
    match goal with
    | |- context [if ?c then ?a else ?b] =>
        assert (Hs : Player.health (player (fst (if c then a else b)))
                     = Player.health (player g));
        [ destruct c;
          [ unfold shootStep; destruct (Rltb _ _);
            [ destruct (Tutorial.playerShot _ _) as [tut e2] |] |];
          cbn [fst player set_player set_bullets set_tutorial Player.shoot Player.health
                 Player.update Player.set_lastShoot];
          now rewrite Hm
        | destruct (if c then a else b) as [g2 e2] ]
    end.
    cbn [fst] in Hs.
    match goal with
    | |- context [collisions rnd ?s] =>
        pose proof (collisions_dead rnd s) as Hc; destruct (collisions rnd s) as [g3 e3]
    end.
    cbn [fst snd player set_tutorial] in *. unfold prune.
    cbn [player set_enemies set_particles set_bullets].
    rewrite Hc; [exact Hs | rewrite Hs; exact Hdead]. }
  destruct (simulate _ _ _ _ _ _) as [[dt1 g1] e1]. cbn [fst snd] in Hsim.
  rewrite <- Hsim. unfold spawnStep. destruct (JsVal.loose_eq _ _); [|reflexivity].
  destruct (Rleb _ _); [|reflexivity].
  unfold spawnEnemy. now destruct (randomAngle _ _).
Qed.

(** *** Two runs *)

Lemma foldl_ext_fun {A B : Type} (f g : A -> B -> A) (l : list B) (a : A) :
  (forall a b, f a b = g a b) -> foldl f a l = foldl g a l.
Proof.
  intros Hfg. revert a. induction l as [|b l IH]; intros a; [reflexivity|].
  cbn [foldl]. now rewrite Hfg, IH.
Qed.

Section TwoRuns.

(** Two sequences of values of [Math.random] that agree. *)
Variables rnd1 rnd2 : nat -> R.
Hypothesis Hrnd : forall n, rnd1 n = rnd2 n.
Variable coarse : bool.

Lemma randomBetween_ext range e : randomBetween rnd1 range e = randomBetween rnd2 range e.
Proof using Hrnd. unfold randomBetween. now rewrite Hrnd. Qed.

Lemma randomAngle_ext e : randomAngle rnd1 e = randomAngle rnd2 e.
Proof using Hrnd. apply randomBetween_ext. Qed.

Lemma particleBurst_loop_ext n particles center color e :
  particleBurst_loop rnd1 n particles center color e
  = particleBurst_loop rnd2 n particles center color e.
Proof using Hrnd.
  revert particles e. induction n as [|n IH]; intros particles e; [reflexivity|].
  cbn [particleBurst_loop]. rewrite randomBetween_ext.
  destruct (randomBetween rnd2 PARTICLE_MAG_RANGE e) as [mag e1].
  rewrite randomAngle_ext. destruct (randomAngle rnd2 e1) as [dir e2].
  rewrite randomBetween_ext.
  destruct (randomBetween rnd2 PARTICLE_LIFETIME_RANGE e2) as [lifetime e3].
  rewrite randomBetween_ext.
  destruct (randomBetween rnd2 PARTICLE_RADIUS_RANGE e3) as [radius e4].
  apply IH.
Qed.

Lemma particleBurst_ext particles center color e :
  particleBurst rnd1 particles center color e = particleBurst rnd2 particles center color e.
Proof using Hrnd.
  unfold particleBurst. rewrite randomBetween_ext.
  destruct (randomBetween rnd2 PARTICLES_COUNT_RANGE e) as [N e1].
  apply particleBurst_loop_ext.
Qed.

Lemma hitBullet_ext i j s : hitBullet rnd1 i j s = hitBullet rnd2 i j s.
Proof using Hrnd.
  unfold hitBullet. destruct s as [this e].
  destruct (enemies this !! i) as [enemy|]; [|reflexivity].
  destruct (bullets this !! j) as [bullet|]; [|reflexivity].
  destruct (Rleb _ _); [|reflexivity].
  now rewrite particleBurst_ext.
Qed.

Lemma scanBullets_ext i s : scanBullets rnd1 i s = scanBullets rnd2 i s.
Proof using Hrnd.
  unfold scanBullets. destruct (enemies (fst s) !! i) as [enemy|]; [|reflexivity].
  destruct (negb (Enemy.ded enemy)); [|reflexivity].
  apply foldl_ext_fun. intros a b. apply hitBullet_ext.
Qed.

Lemma hitPlayer_ext i s : hitPlayer rnd1 i s = hitPlayer rnd2 i s.
Proof using Hrnd.
  unfold hitPlayer. destruct s as [this e].
  destruct (enemies this !! i) as [enemy|]; [|reflexivity].
  destruct (_ && _); [|reflexivity].
  destruct (Rleb _ _); [|reflexivity].
  now rewrite particleBurst_ext.
Qed.

Lemma collisions_ext s : collisions rnd1 s = collisions rnd2 s.
Proof using Hrnd.
  unfold collisions. apply foldl_ext_fun. intros a b.
  now rewrite scanBullets_ext, hitPlayer_ext.
Qed.

Lemma spawnStep_ext dt g e : spawnStep rnd1 dt g e = spawnStep rnd2 dt g e.
Proof using Hrnd.
  unfold spawnStep, spawnEnemy. destruct (JsVal.loose_eq _ _); [|reflexivity].
  destruct (Rleb _ _); [|reflexivity]. now rewrite randomAngle_ext.
Qed.

Lemma simulate_ext now_ms dt g e :
  simulate rnd1 coarse now_ms dt g e = simulate rnd2 coarse now_ms dt g e.
Proof using Hrnd.
  unfold simulate. destruct (keysVelocity _) as [vel moved].
  destruct (if moved then _ else _) as [g1 e1].
  destruct (if Player.shooting _ then _ else _) as [g2 e2].
  now rewrite collisions_ext.
Qed.

Lemma update_ext now_ms dt g e :
  update rnd1 coarse now_ms dt g e = update rnd2 coarse now_ms dt g e.
Proof using Hrnd.
  unfold update. destruct (paused g); [reflexivity|]. rewrite simulate_ext.
  destruct (simulate rnd2 coarse now_ms dt g e) as [[dt1 g1] e1]. apply spawnStep_ext.
Qed.

Lemma step_ext s ev : step rnd1 coarse s ev = step rnd2 coarse s ev.
Proof using Hrnd.
  unfold step, handle. destruct s as [g e]. destruct ev; try reflexivity.
  now rewrite update_ext.
Qed.

Lemma run_ext evs s : run rnd1 coarse evs s = run rnd2 coarse evs s.
Proof using Hrnd. unfold run. apply foldl_ext_fun. apply step_ext. Qed.

End TwoRuns.

(** [update] reads the clock only when the player is shooting. *)
Lemma update_clock rnd coarse now1 now2 dt g e :
  Player.shooting (player g) = false ->
  update rnd coarse now1 dt g e = update rnd coarse now2 dt g e.
Proof.
  intros Hs. unfold update. destruct (paused g); [reflexivity|].
  assert (H : simulate rnd coarse now1 dt g e = simulate rnd coarse now2 dt g e);
    [|now rewrite H].
  unfold simulate. destruct (keysVelocity _) as [vel moved].
  match goal with
  | |- context [if moved then ?a else ?b] =>
      assert (Hm : Player.shooting (player (fst (if moved then a else b))) = false);
      [ destruct moved; [destruct (Tutorial.playerMoved _ _) as [tut e1]|]; exact Hs
      | destruct (if moved then a else b) as [g1 e1] ]
  end.
  cbn [fst] in Hm. cbn [player set_player Player.shooting Player.update].
  now rewrite Hm.
Qed.


(** A new game on a canvas of 800 by 600, first session. *)
Definition env0 : Env.t := Env.mk None 0.
Definition game0 : t := new false (Canvas2D (Renderer2D.new 800 600)) env0.

(** The claim on a new game paused by the key [Space]. *)
Lemma update_paused_witness :
  update (fun _ => 0) false 0 (1 / 60) (togglePause game0) env0
  = (set_renderer (RendererI.set_grayness 1 (renderer (togglePause game0)))
       (togglePause game0), env0).
Proof.
  apply (update_paused (fun _ => 0) false 0 (1 / 60) (togglePause game0) env0).
  reflexivity.
Defined.

(** The game after a press of the mouse button at (10, 10): not paused,
    the player shooting. *)
Definition game_shooting : t :=
  set_player
    (Player.set_shooting true
       (Player.set_target
          (Renderer2D.screenToWorld (V2.mk 10 10) (Renderer2D.new 800 600))
          (player game0)))
    game0.

Lemma mouseDown_game0 : mouseDown 10 10 game0 = Ok game_shooting.
Proof.
  unfold mouseDown. cbn [paused game0 new restart_fields player Player.health Player.new].
  unfold PLAYER_MAX_HEALTH. Rdecide. reflexivity.
Qed.

Lemma reachable_game_shooting rnd coarse :
  coarse = false -> reachable rnd coarse (game_shooting, env0).
Proof.
  intros ->.
  replace (game_shooting, env0)
    with (step rnd false (game0, env0) (MouseDown 10 10)).
  - apply reachable_step. apply (reachable_new rnd false _ None).
  - unfold step, handle. now rewrite mouseDown_game0.
Qed.

(** The claim on that game: a move of the pointer to (20, 20) raises. *)
Lemma mouseMove_faults_witness :
  mouseMove 20 20 game_shooting
  = Throw (TypeError "Cannot read properties of undefined (reading 'screenToWorld')") /\
  step (fun _ => 0) false (game_shooting, env0) (MouseMove 20 20) = (game_shooting, env0).
Proof.
  apply (mouseMove_faults (fun _ => 0) false (game_shooting, env0) 20 20
           (reachable_game_shooting _ _ eq_refl));
    reflexivity.
Defined.

(** A game with one enemy and one bullet at the same place, away from
    the player; and the same with the player dead. *)
Definition enemy_at : Enemy.t := Enemy.new (V2.mk 500 0).
Definition bullet_at : Bullet.t := Bullet.new (V2.mk 500 0) (V2.mk 0 0).
Definition game_hit : t := set_bullets [bullet_at] (set_enemies [enemy_at] game0).
Definition game_dead : t := set_player (Player.set_health 0 (player game_hit)) game_hit.


Lemma inRange_at : inRange enemy_at bullet_at = true.
Proof.
  apply Rleb_true. cbn [enemy_at bullet_at Enemy.new Bullet.new Enemy.pos Bullet.pos].
  rewrite dist_self. unfold BULLET_RADIUS, ENEMY_RADIUS, PLAYER_RADIUS. lra.
Qed.


(** A new game in a session that finds the tutorial finished. *)
Definition env_finished : Env.t := Env.mk (Some "2"%string) 0.
Definition game_finished : t := new false (Canvas2D (Renderer2D.new 800 600)) env_finished.

Lemma spawns_game_finished :
  spawns (fun _ => 0) false 0 1 game_finished env_finished = true.
Proof.
  unfold spawns. cbn [paused game_finished new restart_fields negb andb].
  unfold simulate. evaluate. reflexivity.
Qed.

Lemma spawnLog_game_finished :
  spawnLog (fun _ => 0) false [Update 0 1] (game_finished, env_finished) [] !! 0%nat
  = Some ENEMY_SPAWN_COOLDOWN.
Proof.
  cbn [spawnLog restarts fst snd]. rewrite spawns_game_finished.
  pose proof (update_spawn (fun _ => 0) false 0 1 game_finished env_finished) as Hu.
  cbv zeta in Hu. rewrite spawns_game_finished in Hu. destruct Hu as [Hcd _].
  change (step (fun _ => 0) false (game_finished, env_finished) (Update 0 1))
    with (update (fun _ => 0) false 0 1 game_finished env_finished).
  cbn [app lookup list_lookup]. now rewrite Hcd.
Qed.





(** *** What every call keeps *)

Lemma foldl_inv {A B : Type} (P : A -> Prop) (f : A -> B -> A) (l : list B) (a : A) :
  (forall a b, P a -> P (f a b)) -> P a -> P (foldl f a l).
Proof.
  intros Hf. revert a. induction l as [|b l IH]; intros a Ha; [exact Ha|].
  cbn [foldl]. apply IH, Hf, Ha.
Qed.

(** The class of a renderer. *)
Definition is_webgl (r : Renderer) : bool :=
  match r with
  | Canvas2D _ => false
  | WebGL _ => true
  end.

Lemma is_webgl_fillCircle center radius color r :
  is_webgl (RendererI.fillCircle center radius color r) = is_webgl r.
Proof. now destruct r. Qed.

Lemma is_webgl_Trail_render r t : is_webgl (Trail.render r t) = is_webgl r.
Proof.
  unfold Trail.render. apply (foldl_keeps _ is_webgl). intros a b. apply is_webgl_fillCircle.
Qed.

Lemma is_webgl_render g g' : render g = Ok g' -> is_webgl (renderer g') = is_webgl (renderer g).
Proof.
  unfold render.
  set (r0 := RendererI.background (RendererI.clear (renderer g))).
  assert (H0 : is_webgl r0 = is_webgl (renderer g)) by (subst r0; now destruct (renderer g)).
  set (r1 := Player.render r0 (player g)).
  assert (H1 : is_webgl r1 = is_webgl r0).
  { subst r1. unfold Player.render. destruct (Rltb _ _).
    - now rewrite is_webgl_fillCircle, is_webgl_Trail_render.
    - apply is_webgl_Trail_render. }
  set (r2 := foldl Bullet.render r1 (bullets g)).
  assert (H2 : is_webgl r2 = is_webgl r1).
  { subst r2. apply (foldl_keeps _ is_webgl). intros a b. apply is_webgl_fillCircle. }
  set (r3 := foldl Particle.render r2 (particles g)).
  assert (H3 : is_webgl r3 = is_webgl r2).
  { subst r3. apply (foldl_keeps _ is_webgl). intros a b. apply is_webgl_fillCircle. }
  set (r4 := foldl Enemy.render r3 (enemies g)).
  assert (H4 : is_webgl r4 = is_webgl r3).
  { subst r4. apply (foldl_keeps _ is_webgl). intros a b. unfold Enemy.render.
    now rewrite is_webgl_fillCircle, is_webgl_Trail_render. }
  assert (Hm : forall text color r, RendererI.fillMessage text color r4 = Ok r ->
                                    is_webgl r = is_webgl r4).
  { intros text color r. unfold RendererI.fillMessage. destruct r4 as [c|w].
    - destruct (Renderer2D.fillMessage text color c); [|discriminate]. now intros [= <-].
    - now intros [= <-]. }
  clearbody r4 r3 r2 r1 r0.
  destruct (if paused g then _ else _) as [r|] eqn:E; [|discriminate].
  intros [= <-]. cbn [renderer set_renderer].
  rewrite <- H0, <- H1, <- H2, <- H3, <- H4.
  destruct (paused g); [now apply Hm in E|].
  destruct (Rleb _ _); [now apply Hm in E|].
  unfold Tutorial.render, TutorialPopup.render in E. now apply Hm in E.
Qed.

Section Invariants.

Variable rnd : nat -> R.
Variable coarse : bool.

Lemma collisions_inv (P : t * Env.t -> Prop) :
  (forall i j s, P s -> P (hitBullet rnd i j s)) ->
  (forall i s, P s -> P (hitPlayer rnd i s)) ->
  forall s, P s -> P (collisions rnd s).
Proof.
  intros Hb Hp s Hs. unfold collisions. apply foldl_inv; [|exact Hs].
  intros a i Ha. apply Hp. unfold scanBullets.
  destruct (enemies (fst a) !! i) as [enemy|]; [|exact Ha].
  destruct (negb (Enemy.ded enemy)); [|exact Ha].
  apply foldl_inv; [|exact Ha]. intros a' j. apply Hb.
Qed.

(** A property of the game and the environment that every part of
    [update] keeps (it is then kept by [update]): the assignments to
    the renderer, which stays of its class, the two calls on the
    tutorial, the update of the player, the shot, the test of a bullet
    and of the player against an enemy, the pruning and the spawn. *)
Record kept (P : t * Env.t -> Prop) : Prop := {
  kept_renderer : forall g e r,
      P (g, e) -> is_webgl r = is_webgl (renderer g) -> P (set_renderer r g, e);
  kept_playerMoved : forall g e,
      P (g, e) ->
      P (set_tutorial (fst (Tutorial.playerMoved (tutorial g) e)) g,
         snd (Tutorial.playerMoved (tutorial g) e));
  kept_player_update : forall g e dt vel,
      P (g, e) -> P (set_player (Player.update dt vel (player g)) g, e);
  kept_shootStep : forall g e now_ms,
      P (g, e) -> Player.shooting (player g) = true -> P (shootStep now_ms g e);
  kept_tutorial_update : forall g e dt,
      P (g, e) -> P (set_tutorial (Tutorial.update coarse dt (tutorial g)) g, e);
  kept_hitBullet : forall i j s, P s -> P (hitBullet rnd i j s);
  kept_hitPlayer : forall i s, P s -> P (hitPlayer rnd i s);
  kept_prune : forall g e dt, P (g, e) -> P (prune dt g, e);
  kept_spawnStep : forall g e dt, P (g, e) -> P (spawnStep rnd dt g e);
}.

Section Kept.

Context (P : t * Env.t -> Prop) (HP : kept P).

Lemma collisions_kept s : P s -> P (collisions rnd s).
Proof using HP.
  apply collisions_inv; [apply (kept_hitBullet P HP) | apply (kept_hitPlayer P HP)].
Qed.

Lemma simulate_kept now_ms dt g e :
  P (g, e) ->
  P (snd (fst (simulate rnd coarse now_ms dt g e)), snd (simulate rnd coarse now_ms dt g e)).
Proof using HP.
  intros H0. unfold simulate.
  set (g1 := set_renderer _ g).
  assert (H1 : P (g1, e)).
  { apply (kept_renderer P HP); [exact H0 | now destruct (renderer g)]. }
  clearbody g1. clear H0.
  set (dt1 := if Rleb _ _ then dt / 50 else dt). clearbody dt1.
  set (g2 := set_renderer _ g1).
  assert (H2 : P (g2, e)).
  { apply (kept_renderer P HP); [exact H1 | now destruct (renderer g1)]. }
  clearbody g2. clear H1 g1.
  destruct (keysVelocity g2) as [vel moved].
  set (vel1 := V2.scale _ PLAYER_SPEED). clearbody vel1.
  match goal with
  | |- context [if moved then ?a else ?b] =>
      assert (H3 : P (if moved then a else b));
      [ destruct moved;
        [ pose proof (kept_playerMoved P HP g2 e H2) as Hm;
          destruct (Tutorial.playerMoved (tutorial g2) e) as [tut e1]; exact Hm
        | exact H2 ]
      | destruct (if moved then a else b) as [g3 e3] ]
  end.
  clear H2.
  set (g4 := set_player _ g3).
  assert (H4 : P (g4, e3)) by apply (kept_player_update P HP), H3.
  clearbody g4. clear H3.
  match goal with
  | |- context [if ?c then ?a else ?b] =>
      assert (H5 : P (if c then a else b));
      [ destruct c eqn:Hsh; [apply (kept_shootStep P HP); assumption | exact H4]
      | destruct (if c then a else b) as [g5 e5] ]
  end.
  clear H4.
  set (g6 := set_tutorial _ g5).
  assert (H6 : P (g6, e5)) by apply (kept_tutorial_update P HP), H5.
  clearbody g6. clear H5.
  pose proof (collisions_kept (g6, e5) H6) as H7.
  destruct (collisions rnd (g6, e5)) as [g7 e7]. cbn [fst snd].
  apply (kept_prune P HP), H7.
Qed.

Lemma update_kept now_ms dt g e :
  P (g, e) -> P (update rnd coarse now_ms dt g e).
Proof using HP.
  intros H0. unfold update. destruct (paused g).
  - apply (kept_renderer P HP); [exact H0 | now destruct (renderer g)].
  - pose proof (simulate_kept now_ms dt g e H0) as Hs.
    destruct (simulate rnd coarse now_ms dt g e) as [[dt1 g1] e1]. cbn [fst snd] in Hs.
    apply (kept_spawnStep P HP), Hs.
Qed.

End Kept.

(** A property that the assignments of the listeners keep, too, holds
    in every state of a session it holds at the start of. *)
Record handled (P : t * Env.t -> Prop) : Prop := {
  handled_update : forall g e now_ms dt, P (g, e) -> P (update rnd coarse now_ms dt g e);
  handled_renderer : forall g e r,
      P (g, e) -> is_webgl r = is_webgl (renderer g) -> P (set_renderer r g, e);
  handled_playerMoved : forall g e,
      P (g, e) ->
      P (set_tutorial (fst (Tutorial.playerMoved (tutorial g) e)) g,
         snd (Tutorial.playerMoved (tutorial g) e));
  handled_restart : forall g e,
      P (g, e) -> Player.health (player g) <= 0 -> P (restart coarse g e, e);
  handled_paused : forall g e v, P (g, e) -> P (set_paused v g, e);
  handled_pressedKeys_add : forall g e code,
      P (g, e) -> P (set_pressedKeys (Set_add code (pressedKeys g)) g, e);
  handled_pressedKeys_delete : forall g e code,
      P (g, e) -> P (set_pressedKeys (Set_delete code (pressedKeys g)) g, e);
  handled_target : forall g e p,
      P (g, e) -> P (set_player (Player.set_target p (player g)) g, e);
  handled_shooting : forall g e v,
      P (g, e) -> P (set_player (Player.set_shooting v (player g)) g, e);
  handled_movingTouch : forall g e id start direction,
      P (g, e) -> P (set_movingTouch id start direction g, e);
  handled_shootingTouch : forall g e id start direction,
      P (g, e) -> P (set_shootingTouch id start direction g, e);
}.

Section Handled.

Context (P : t * Env.t -> Prop) (HH : handled P).

Lemma step_kept s ev : P s -> P (step rnd coarse s ev).
Proof using HH.
  destruct s as [g e]. intros H0. unfold step, handle. destruct ev.
  - apply (handled_update P HH), H0.
  - destruct (render g) as [g'|] eqn:Hr; [|exact H0].
    pose proof (is_webgl_render g g' Hr) as Hk. revert Hr Hk. unfold render.
    destruct (if paused g then _ else _) as [r|]; [|discriminate].
    intros [= <-]. cbn [renderer set_renderer]. intros Hk.
    apply (handled_renderer P HH); [exact H0 | exact Hk].
  - apply (handled_renderer P HH); [exact H0 | now destruct (renderer g)].
  - unfold keyDown. destruct (_ && _) eqn:Hk.
    + apply andb_true_iff in Hk. destruct Hk as [Hk _]. apply Rleb_true in Hk.
      apply (handled_restart P HH); [exact H0 | exact Hk].
    + destruct (String.eqb code "Space").
      * unfold togglePause.
        apply (handled_pressedKeys_add P HH (set_paused (negb (paused g)) g) e code).
        apply (handled_paused P HH), H0.
      * apply (handled_pressedKeys_add P HH), H0.
  - apply (handled_pressedKeys_delete P HH), H0.
  - unfold mouseMove. destruct (_ && _); [|exact H0].
    destruct (camera g) as [c|]; [|exact H0].
    destruct (RendererI.screenToWorld _ c); [|exact H0].
    apply (handled_target P HH), H0.
  - unfold mouseDown. destruct (paused g); [apply (handled_paused P HH), H0|].
    destruct (Rleb _ _); [exact H0|].
    destruct (RendererI.screenToWorld _ _) as [p|]; [|exact H0].
    apply (handled_shooting P HH (set_player (Player.set_target p (player g)) g)).
    apply (handled_target P HH), H0.
  - apply (handled_shooting P HH), H0.
  - unfold touchMove. apply (foldl_inv (fun g => P (g, e))); [|exact H0].
    intros a b Ha.
    assert (H1 : P (if same_touch b (movingTouchId a)
                    then set_movingTouch (movingTouchId a) (movingTouchStart a)
                           (V2.sub (V2.mk (clientX b) (clientY b)) (movingTouchStart a)) a
                    else a, e)).
    { destruct (same_touch b (movingTouchId a)); [apply (handled_movingTouch P HH)|]; exact Ha. }
    revert H1. generalize (if same_touch b (movingTouchId a)
                           then set_movingTouch (movingTouchId a) (movingTouchStart a)
                                  (V2.sub (V2.mk (clientX b) (clientY b)) (movingTouchStart a)) a
                           else a).
    intros a1 H1. destruct (same_touch b (shootingTouchId a1)); [|exact H1].
    match goal with
    | |- P (set_player (Player.set_shooting true (player ?x)) ?x, e) =>
        apply (handled_shooting P HH x)
    end.
    match goal with
    | |- P (set_player (Player.set_target ?p (player ?x)) ?x, e) =>
        apply (handled_target P HH x)
    end.
    apply (handled_shootingTouch P HH), H1.
  - unfold touchDown. destruct (paused g); [apply (handled_paused P HH), H0|].
    destruct (Rleb _ _) eqn:Hk;
      [apply Rleb_true in Hk; apply (handled_restart P HH); [exact H0 | exact Hk]|].
    pose proof (handled_playerMoved P HH g e H0) as Hm.
    destruct (Tutorial.playerMoved (tutorial g) e) as [tut e1]. cbn [fst snd] in Hm.
    apply (foldl_inv (fun g => P (g, e1))); [|exact Hm].
    intros a b Ha. destruct (Rltb _ _).
    + destruct (movingTouchId a); [exact Ha | apply (handled_movingTouch P HH), Ha].
    + destruct (shootingTouchId a); [exact Ha | apply (handled_shootingTouch P HH), Ha].
  - unfold touchUp. apply (foldl_inv (fun g => P (g, e))); [|exact H0].
    intros a b Ha.
    assert (H1 : P (if same_touch b (movingTouchId a)
                    then set_movingTouch None (movingTouchStart a) (V2.mk 0 0) a
                    else a, e)).
    { destruct (same_touch b (movingTouchId a)); [apply (handled_movingTouch P HH)|]; exact Ha. }
    revert H1. generalize (if same_touch b (movingTouchId a)
                           then set_movingTouch None (movingTouchStart a) (V2.mk 0 0) a
                           else a).
    intros a1 H1. destruct (same_touch b (shootingTouchId a1)); [|exact H1].
    match goal with
    | |- P (set_player (Player.set_shooting false (player ?x)) ?x, e) =>
        apply (handled_shooting P HH x)
    end.
    apply (handled_shootingTouch P HH), H1.
  - unfold blur. destruct (Rltb _ _); [apply (handled_paused P HH)|]; exact H0.
Qed.

Lemma run_kept evs s : P s -> P (run rnd coarse evs s).
Proof using HH.
  unfold run. apply foldl_inv. intros a b. apply step_kept.
Qed.

Lemma reachable_kept s :
  (forall renderer storage, P (new coarse renderer (Env.mk storage 0), Env.mk storage 0)) ->
  reachable rnd coarse s -> P s.
Proof using HH.
  intros Hnew. induction 1 as [renderer storage | s ev _ IH]; [apply Hnew|].
  now apply step_kept.
Qed.

End Handled.

End Invariants.

Section Vitals.

Variable rnd : nat -> R.
Variable coarse : bool.

(** The health is between 0 and the maximum, and the score is the
    award of one kill times the count of hits. *)
Definition vitals (s : t * Env.t) : Prop :=
  0 <= Player.health (player (fst s)) <= PLAYER_MAX_HEALTH /\
  score (fst s) = (ENEMY_KILL_SCORE * Player.accuracy (player (fst s)))%Z /\
  (0 <= Player.accuracy (player (fst s)))%Z.

Lemma heal_range value p :
  0 <= value ->
  0 <= Player.health p <= PLAYER_MAX_HEALTH ->
  0 <= Player.health (Player.heal value p) <= PLAYER_MAX_HEALTH.
Proof.
  intros Hv Hp. unfold Player.heal. destruct (Rltb 0 (Player.health p)) eqn:E; [|exact Hp].
  cbn [Player.health Player.set_health]. unfold Rmin.
  destruct (Rle_dec _ _); unfold PLAYER_MAX_HEALTH in *; lra.
Qed.

Lemma damage_range value p :
  0 <= value ->
  0 <= Player.health p <= PLAYER_MAX_HEALTH ->
  0 <= Player.health (Player.damage value p) <= PLAYER_MAX_HEALTH.
Proof.
  intros Hv Hp. unfold Player.damage. cbn [Player.health Player.set_health]. unfold Rmax.
  destruct (Rle_dec _ _); lra.
Qed.

Lemma heal_accuracy value p : Player.accuracy (Player.heal value p) = Player.accuracy p.
Proof. unfold Player.heal. now destruct (Rltb _ _). Qed.

Lemma vitals_kept : kept rnd coarse vitals.
Proof.
  split.
  - intros g e r H _. exact H.
  - intros g e H. exact H.
  - intros g e dt vel H. exact H.
  - intros g e now_ms H _. unfold shootStep. destruct (Rltb _ _); [|exact H].
    destruct (Tutorial.playerShot _ _) as [tut e1]. exact H.
  - intros g e dt H. exact H.
  - intros i j [g e] (Hh & Hs & Ha). unfold hitBullet. cbn [fst] in *.
    destruct (enemies g !! i) as [enemy|]; [|now split].
    destruct (bullets g !! j) as [bullet|]; [|now split].
    destruct (Rleb _ _); [|now split].
    destruct (particleBurst _ _ _ _ _) as [ps e1]. unfold vitals.
    cbn [fst player score set_particles set_enemies set_bullets set_player set_score
           Player.health Player.accuracy Player.set_accuracy].
    rewrite heal_accuracy. split.
    + apply heal_range; [|exact Hh]. unfold ENEMY_KILL_HEAL, PLAYER_MAX_HEALTH. lra.
    + rewrite Hs. lia.
  - intros i [g e] (Hh & Hs & Ha). unfold hitPlayer. cbn [fst] in *.
    destruct (enemies g !! i) as [enemy|]; [|now split].
    destruct (_ && _); [|now split].
    destruct (Rleb _ _); [|now split].
    destruct (particleBurst _ _ _ _ _) as [ps e1]. unfold vitals.
    assert (Hd : 0 <= Player.health (Player.damage ENEMY_DAMAGE (player g)) <= PLAYER_MAX_HEALTH).
    { apply damage_range; [|exact Hh]. unfold ENEMY_DAMAGE, PLAYER_MAX_HEALTH. lra. }
    destruct (Rleb _ _);
      cbn [fst player score set_particles set_enemies set_player
             Player.health Player.accuracy Player.set_trail Player.damage Player.set_health] in *;
      now split.
  - intros g e dt H. exact H.
  - intros g e dt H. unfold spawnStep. destruct (JsVal.loose_eq _ _); [|exact H].
    destruct (Rleb _ _); [|exact H]. unfold spawnEnemy. destruct (randomAngle _ _). exact H.
Qed.

Lemma vitals_handled : handled rnd coarse vitals.
Proof.
  split; try (intros; assumption).
  - intros g e now_ms dt. apply update_kept, vitals_kept.
  - intros g e _ _. unfold vitals. cbn. unfold PLAYER_MAX_HEALTH. split; [lra | now split].
Qed.

Lemma reachable_vitals s : reachable rnd coarse s -> vitals s.
Proof.
  apply (reachable_kept rnd coarse vitals vitals_handled s).
  intros renderer storage. unfold vitals. cbn. unfold PLAYER_MAX_HEALTH. split; [lra | now split].
Qed.

(** X16. In every state of a session the health of the player is
    between 0 and [PLAYER_MAX_HEALTH]: damage stops at 0 and healing at
    the maximum. *)
Theorem health_in_range s :
  reachable rnd coarse s ->
  0 <= Player.health (player (fst s)) <= PLAYER_MAX_HEALTH.
Proof. intros Hr. apply (reachable_vitals s Hr). Qed.

(** X17. In every state of a session the score is [ENEMY_KILL_SCORE]
    times the count of hits that the accuracy is computed from
    ([player.accuracy]); it is never negative. *)
Theorem score_counts_hits s :
  reachable rnd coarse s ->
  score (fst s) = (ENEMY_KILL_SCORE * Player.accuracy (player (fst s)))%Z /\
  (0 <= score (fst s))%Z.
Proof.
  intros Hr. destruct (reachable_vitals s Hr) as (_ & Hs & Ha).
  split; [exact Hs|]. rewrite Hs. unfold ENEMY_KILL_SCORE. lia.
Qed.

(** X18. Death lasts until the game is restarted: on a player whose
    health is 0 or less, no call changes the health unless it restarts
    the game (a key-down of [Space], or a touch-start on a game that is
    not paused). *)
Theorem dead_until_restart s ev :
  Player.health (player (fst s)) <= 0 ->
  restarts ev (fst s) = false ->
  Player.health (player (fst (step rnd coarse s ev))) = Player.health (player (fst s)).
Proof.
  destruct s as [g e]. cbn [fst]. intros Hd Hr. unfold step, handle. destruct ev; cbn [fst].
  - now apply update_dead.
  - unfold render. now destruct (if paused g then _ else _).
  - reflexivity.
  - unfold keyDown. cbn [restarts] in Hr. rewrite Hr. now destruct (String.eqb _ _).
  - reflexivity.
  - unfold mouseMove. destruct (_ && _); [|reflexivity].
    destruct (camera g) as [c|]; [|reflexivity].
    now destruct (RendererI.screenToWorld _ c).
  - unfold mouseDown. destruct (paused g); [reflexivity|].
    destruct (Rleb _ _); [reflexivity|]. now destruct (RendererI.screenToWorld _ _).
  - reflexivity.
  - unfold touchMove. apply (foldl_keeps _ (fun g => Player.health (player g))). intros a b.
    destruct (same_touch b (movingTouchId a)); now destruct (same_touch b _).
  - unfold touchDown. cbn [restarts] in Hr. destruct (paused g); [reflexivity|].
    cbn [negb andb] in Hr. rewrite Hr.
    destruct (Tutorial.playerMoved _ _) as [tut e1]. cbn [fst].
    rewrite (foldl_keeps _ (fun g => Player.health (player g))); [reflexivity|].
    intros a b. destruct (Rltb _ _); [now destruct (movingTouchId a) | now destruct (shootingTouchId a)].
  - unfold touchUp. apply (foldl_keeps _ (fun g => Player.health (player g))). intros a b.
    destruct (same_touch b (movingTouchId a)); now destruct (same_touch b _).
  - unfold blur. now destruct (Rltb _ _).
Qed.

End Vitals.

Section Entities.

Variable rnd : nat -> R.
Variable coarse : bool.

(** No enemy of the list is dead or beyond the distance at which
    enemies are dropped, and no bullet or particle has run out of
    lifetime. *)
Definition live (s : t * Env.t) : Prop :=
  Forall (fun enemy =>
            Enemy.ded enemy = false /\
            V2.dist (Enemy.pos enemy) (Player.pos (player (fst s))) < ENEMY_DESPAWN_DISTANCE)
         (enemies (fst s)) /\
  Forall (fun bullet => 0 < Bullet.lifetime bullet) (bullets (fst s)) /\
  Forall (fun particle => 0 < Particle.lifetime particle) (particles (fst s)).

Lemma simulate_prune now_ms dt g e :
  exists g1,
    snd (fst (simulate rnd coarse now_ms dt g e))
    = prune (fst (fst (simulate rnd coarse now_ms dt g e))) g1.
Proof.
  unfold simulate. destruct (keysVelocity _) as [vel moved].
  destruct (if moved then _ else _) as [g3 e3].
  destruct (if Player.shooting _ then _ else _) as [g5 e5].
  destruct (collisions rnd _) as [g7 e7]. cbn [fst snd]. now exists g7.
Qed.

Lemma Forall_filter_1 {A} (f : A -> bool) (l : list A) :
  Forall (fun x => f x = true) (List.filter f l).
Proof.
  apply Forall_forall. intros x Hx. apply list_elem_of_In, List.filter_In in Hx. apply Hx.
Qed.

Lemma prune_live dt g e : live (prune dt g, e).
Proof.
  unfold live, prune. cbn [fst bullets particles enemies player set_bullets set_particles set_enemies].
  split; [|split].
  - eapply Forall_impl; [apply Forall_filter_1|]. cbn beta. intros enemy H.
    apply andb_true_iff in H. destruct H as [Hd Hn].
    apply negb_true_iff in Hd. apply Rltb_true in Hn. now split.
  - eapply Forall_impl; [apply Forall_filter_1|]. cbn beta. intros b H. now apply Rltb_true in H.
  - eapply Forall_impl; [apply Forall_filter_1|]. cbn beta. intros p H. now apply Rltb_true in H.
Qed.

Lemma spawnEnemy_live g e : live (g, e) -> live (spawnEnemy rnd g e).
Proof.
  intros (He & Hb & Hp). unfold spawnEnemy, randomAngle, randomBetween. unfold live.
  cbn [fst enemies bullets particles player set_enemies]. split; [|now split].
  apply Forall_app. split; [exact He|]. constructor; [|constructor].
  split; [reflexivity|]. cbn [Enemy.pos Enemy.new].
  rewrite V2Facts.dist_add, V2Facts.len_polar. unfold ENEMY_DESPAWN_DISTANCE, ENEMY_SPAWN_DISTANCE.
  rewrite Rabs_pos_eq; lra.
Qed.

Lemma spawnStep_live dt g e : live (g, e) -> live (spawnStep rnd dt g e).
Proof.
  intros H. unfold spawnStep. destruct (JsVal.loose_eq _ _); [|exact H].
  destruct (Rleb _ _); [|exact H].
  pose proof (spawnEnemy_live (set_enemySpawnCooldown (enemySpawnCooldown g - dt) g) e H) as Hs.
  destruct (spawnEnemy rnd _ e) as [g1 e1]. exact Hs.
Qed.

Lemma live_handled : handled rnd coarse live.
Proof.
  split; try (intros; assumption).
  - intros g e now_ms dt H. unfold update. destruct (paused g); [exact H|].
    destruct (simulate_prune now_ms dt g e) as [g1 Hg1].
    destruct (simulate rnd coarse now_ms dt g e) as [[dt1 g2] e2]. cbn [fst snd] in Hg1.
    subst g2. apply spawnStep_live, prune_live.
  - intros g e _ _. unfold live. cbn. now repeat split.
Qed.

(** X19. In every state of a session the lists hold live entities
    only: no enemy of [enemies] is dead or as far from the player as
    [ENEMY_DESPAWN_DISTANCE], and every bullet and every particle has a
    lifetime above 0. *)
Theorem entities_live s :
  reachable rnd coarse s ->
  Forall (fun enemy =>
            Enemy.ded enemy = false /\
            V2.dist (Enemy.pos enemy) (Player.pos (player (fst s))) < ENEMY_DESPAWN_DISTANCE)
         (enemies (fst s)) /\
  Forall (fun bullet => 0 < Bullet.lifetime bullet) (bullets (fst s)) /\
  Forall (fun particle => 0 < Particle.lifetime particle) (particles (fst s)).
Proof.
  intros Hr. apply (reachable_kept rnd coarse live live_handled s); [|exact Hr].
  intros renderer storage. unfold live. cbn. now repeat split.
Qed.

End Entities.

Section Trails.

Variable rnd : nat -> R.
Variable coarse : bool.

(** A trail built by the methods of the class, of the given rate. *)
Definition trail_of (rate : R) (t : Trail.t) : Prop :=
  TrailFacts.built t /\ Trail.rate t = rate.

Lemma trail_of_push rate p t : trail_of rate t -> trail_of rate (Trail.push p t).
Proof.
  intros [Hb Hr]. split; [now constructor|].
  unfold Trail.push. now destruct (_ && _).
Qed.

Lemma trail_of_update rate dt t : trail_of rate t -> trail_of rate (Trail.update dt t).
Proof. intros [Hb Hr]. split; [now constructor | exact Hr]. Qed.

Lemma trail_of_set_disabled rate d t :
  trail_of rate t -> trail_of rate (Trail.set_disabled d t).
Proof. intros [Hb Hr]. split; [now constructor | exact Hr]. Qed.

Definition trails (s : t * Env.t) : Prop :=
  trail_of PLAYER_TRAIL_RATE (Player.trail (player (fst s))) /\
  Forall (fun enemy => trail_of ENEMY_TRAIL_RATE (Enemy.trail enemy)) (enemies (fst s)).

Lemma heal_trail value p : Player.trail (Player.heal value p) = Player.trail p.
Proof. unfold Player.heal. now destruct (Rltb _ _). Qed.

Lemma Forall_alter_same {A} (P : A -> Prop) (f : A -> A) i (l : list A) :
  (forall x, P x -> P (f x)) -> Forall P l -> Forall P (alter f i l).
Proof.
  intros Hf Hl. revert i. induction Hl as [|x l Hx Hl IH]; intros [|i]; cbn.
  - constructor.
  - constructor.
  - constructor; [now apply Hf | exact Hl].
  - constructor; [exact Hx | apply IH].
Qed.

Lemma trails_kept : kept rnd coarse trails.
Proof.
  split.
  - intros g e r H _. exact H.
  - intros g e H. exact H.
  - intros g e dt vel [Hp He]. split; [|exact He].
    cbn [fst player set_player Player.update Player.trail].
    now apply trail_of_update, trail_of_push.
  - intros g e now_ms H _. unfold shootStep. destruct (Rltb _ _); [|exact H].
    destruct (Tutorial.playerShot _ _) as [tut e1]. exact H.
  - intros g e dt H. exact H.
  - intros i j [g e] [Hp He]. unfold hitBullet. cbn [fst] in *.
    destruct (enemies g !! i) as [enemy|]; [|now split].
    destruct (bullets g !! j) as [bullet|]; [|now split].
    destruct (Rleb _ _); [|now split].
    destruct (particleBurst _ _ _ _ _) as [ps e1]. unfold trails.
    cbn [fst player enemies set_particles set_enemies set_bullets set_player set_score
           Player.trail Player.set_accuracy].
    rewrite heal_trail. split; [exact Hp|].
    apply Forall_alter_same; [|exact He]. intros x Hx. exact Hx.
  - intros i [g e] [Hp He]. unfold hitPlayer. cbn [fst] in *.
    destruct (enemies g !! i) as [enemy|]; [|now split].
    destruct (_ && _); [|now split].
    destruct (Rleb _ _); [|now split].
    destruct (particleBurst _ _ _ _ _) as [ps e1]. unfold trails.
    destruct (Rleb _ _);
      cbn [fst player enemies set_particles set_enemies set_player
             Player.trail Player.set_trail Player.damage Player.set_health].
    + split; [now apply trail_of_set_disabled|].
      apply Forall_alter_same; [intros x Hx; exact Hx|].
      apply Forall_map. eapply Forall_impl; [exact He|]. cbn beta. intros x Hx.
      now apply trail_of_set_disabled.
    + split; [exact Hp|]. apply Forall_alter_same; [intros x Hx; exact Hx | exact He].
  - intros g e dt [Hp He]. split; [exact Hp|]. unfold prune.
    cbn [fst enemies set_enemies set_bullets set_particles player].
    apply Forall_forall. intros x Hx. apply list_elem_of_In, List.filter_In in Hx.
    destruct Hx as [Hx _]. apply List.in_map_iff in Hx. destruct Hx as (y & <- & Hy).
    rewrite Forall_forall in He. apply list_elem_of_In, He in Hy.
    cbn [Enemy.update Enemy.trail]. now apply trail_of_update, trail_of_push.
  - intros g e dt H. unfold spawnStep. destruct (JsVal.loose_eq _ _); [|exact H].
    destruct (Rleb _ _); [|exact H]. unfold spawnEnemy. destruct (randomAngle _ _).
    destruct H as [Hp He]. split; [exact Hp|].
    cbn [fst enemies set_enemies set_enemySpawnCooldown set_enemySpawnRate].
    apply Forall_app. split; [exact He|]. constructor; [|constructor].
    split; [|reflexivity]. constructor. unfold ENEMY_TRAIL_RATE. lra.
Qed.

Lemma trails_new renderer camera e : trails (restart_fields coarse renderer camera e, e).
Proof.
  split; [|constructor]. split; [|reflexivity]. constructor. unfold PLAYER_TRAIL_RATE. lra.
Qed.

Lemma trails_handled : handled rnd coarse trails.
Proof.
  split; try (intros; assumption).
  - intros g e now_ms dt. apply update_kept, trails_kept.
  - intros g e _ _. apply trails_new.
Qed.


End Trails.

Section Keys.

Variable rnd : nat -> R.
Variable coarse : bool.

Lemma existsb_eqb_In code (keys : list string) :
  existsb (String.eqb code) keys = true <-> In code keys.
Proof.
  rewrite existsb_exists. split.
  - intros (k & Hk & He). apply String.eqb_eq in He. now subst.
  - intros H. exists code. split; [exact H | apply String.eqb_refl].
Qed.

Lemma Set_add_NoDup code keys : NoDup keys -> NoDup (Set_add code keys).
Proof.
  intros Hn. unfold Set_add. destruct (existsb (String.eqb code) keys) eqn:E; [exact Hn|].
  apply NoDup_app. split; [exact Hn|]. split.
  - intros x Hx Hc. apply list_elem_of_singleton in Hc. subst x.
    apply list_elem_of_In, existsb_eqb_In in Hx. congruence.
  - apply NoDup_singleton.
Qed.

Lemma Set_add_In code keys : In code (Set_add code keys).
Proof.
  unfold Set_add. destruct (existsb (String.eqb code) keys) eqn:E.
  - now apply existsb_eqb_In.
  - apply in_or_app. right. now left.
Qed.

Lemma Set_delete_In code k keys : In k (Set_delete code keys) <-> In k keys /\ k <> code.
Proof.
  unfold Set_delete. rewrite List.filter_In, negb_true_iff, String.eqb_neq.
  split; intros [H1 H2]; split; auto.
Qed.

Definition keys_distinct (s : t * Env.t) : Prop := NoDup (pressedKeys (fst s)).

Lemma keys_distinct_kept : kept rnd coarse keys_distinct.
Proof.
  split; try (intros; assumption).
  - intros g e now_ms H _. unfold shootStep. destruct (Rltb _ _); [|exact H].
    destruct (Tutorial.playerShot _ _) as [tut e1]. exact H.
  - intros i j [g e] H. unfold hitBullet.
    destruct (enemies g !! i) as [enemy|]; [|exact H].
    destruct (bullets g !! j) as [bullet|]; [|exact H].
    destruct (Rleb _ _); [|exact H].
    destruct (particleBurst _ _ _ _ _) as [ps e1]. exact H.
  - intros i [g e] H. unfold hitPlayer.
    destruct (enemies g !! i) as [enemy|]; [|exact H].
    destruct (_ && _); [|exact H].
    destruct (Rleb _ _); [|exact H].
    destruct (particleBurst _ _ _ _ _) as [ps e1]. destruct (Rleb _ _); exact H.
  - intros g e dt H. unfold spawnStep. destruct (JsVal.loose_eq _ _); [|exact H].
    destruct (Rleb _ _); [|exact H]. unfold spawnEnemy. destruct (randomAngle _ _). exact H.
Qed.

Lemma keys_distinct_handled : handled rnd coarse keys_distinct.
Proof.
  split; try (intros; assumption).
  - intros g e now_ms dt. apply update_kept, keys_distinct_kept.
  - intros g e _ _. constructor.
  - intros g e code H. now apply Set_add_NoDup.
  - intros g e code H. unfold keys_distinct, Set_delete. cbn [fst pressedKeys set_pressedKeys].
    apply NoDup_ListNoDup, List.NoDup_filter, NoDup_ListNoDup, H.
Qed.

(** X21. [pressedKeys] is a set in every state of a session: no code
    is in it twice; a key-down that does not restart the game puts its
    code in; a key-up takes its code out and no other. *)
Theorem pressedKeys_is_set s code :
  reachable rnd coarse s ->
  NoDup (pressedKeys (fst s)) /\
  (restarts (KeyDown code) (fst s) = false ->
   In code (pressedKeys (keyDown coarse code (fst s) (snd s)))) /\
  ~ In code (pressedKeys (keyUp code (fst s))) /\
  (forall k, k <> code ->
             (In k (pressedKeys (keyUp code (fst s))) <-> In k (pressedKeys (fst s)))).
Proof.
  intros Hr. split; [|split; [|split]].
  - apply (reachable_kept rnd coarse keys_distinct keys_distinct_handled s); [|exact Hr].
    intros renderer storage. constructor.
  - cbn [restarts]. intros Hre. unfold keyDown. rewrite Hre.
    cbn [pressedKeys set_pressedKeys]. apply Set_add_In.
  - unfold keyUp. cbn [pressedKeys set_pressedKeys]. rewrite Set_delete_In. tauto.
  - intros k Hk. unfold keyUp. cbn [pressedKeys set_pressedKeys]. rewrite Set_delete_In. tauto.
Qed.

End Keys.

Section TutorialSessions.

Variable rnd : nat -> R.
Variable coarse : bool.

(** A session: a game created on [renderer] when the storage holds
    [storage], then the calls [evs]. *)
Definition session (renderer : Renderer) (storage : option string) (evs : list event)
    : t * Env.t :=
  run rnd coarse evs (new coarse renderer (Env.mk storage 0), Env.mk storage 0).

Lemma particleBurst_loop_storage n ps center color e :
  Env.localStorage (snd (particleBurst_loop rnd n ps center color e)) = Env.localStorage e.
Proof.
  revert ps e. induction n as [|n IH]; intros ps e; [reflexivity|].
  cbn [particleBurst_loop]. unfold randomAngle, randomBetween. now rewrite IH.
Qed.

Lemma particleBurst_storage ps center color e :
  Env.localStorage (snd (particleBurst rnd ps center color e)) = Env.localStorage e.
Proof.
  unfold particleBurst, randomBetween. now rewrite particleBurst_loop_storage.
Qed.

(** The part of a state that the tutorial and the spawn of enemies
    depend on. *)
Record progress : Type := mkProgress {
  p_state : jsval;
  p_storage : option string;
  p_enemies : list Enemy.t;
  p_health : R;
}.

Definition progress_of (s : t * Env.t) : progress :=
  mkProgress (Tutorial.state (tutorial (fst s))) (Env.localStorage (snd s))
             (enemies (fst s)) (Player.health (player (fst s))).

(** The three stages of a session that starts with nothing stored. *)
Definition learning_movement (p : progress) : Prop :=
  p_state p = VNum 0 /\ p_storage p = None /\ p_enemies p = [] /\ p_health p = PLAYER_MAX_HEALTH.

Definition learning_shooting (p : progress) : Prop :=
  p_state p = VNum 1 /\ p_storage p = Some "1"%string /\ p_enemies p = [] /\
  p_health p = PLAYER_MAX_HEALTH.

Definition finished (p : progress) : Prop :=
  (p_state p = VNum 2 \/ p_state p = VStr "2") /\ p_storage p = Some "2"%string.

Definition fresh (s : t * Env.t) : Prop :=
  learning_movement (progress_of s) \/ learning_shooting (progress_of s)
  \/ finished (progress_of s).

Lemma hitBullet_progress i j s :
  enemies (fst s) = [] \/
  (Tutorial.state (tutorial (fst (hitBullet rnd i j s))) = Tutorial.state (tutorial (fst s)) /\
   Env.localStorage (snd (hitBullet rnd i j s)) = Env.localStorage (snd s)).
Proof.
  destruct s as [g e]. cbn [fst snd]. unfold hitBullet.
  destruct (enemies g !! i) as [enemy|] eqn:Hi; [|now right].
  destruct (bullets g !! j) as [bullet|]; [|now right].
  destruct (Rleb _ _); [|now right].
  pose proof (particleBurst_storage
                (particles (set_enemies (alter (Enemy.set_ded true) i (enemies g)) g))
                (Enemy.pos enemy) ENEMY_COLOR e) as Hs.
  right. cbn [particles set_enemies set_bullets set_player set_score] in *.
  destruct (particleBurst _ _ _ _ _) as [ps e1]. now split.
Qed.

Lemma hitBullet_empty i j s : enemies (fst s) = [] -> hitBullet rnd i j s = s.
Proof.
  destruct s as [g e]. cbn [fst]. intros He. unfold hitBullet. now rewrite He.
Qed.

Lemma hitPlayer_empty i s : enemies (fst s) = [] -> hitPlayer rnd i s = s.
Proof.
  destruct s as [g e]. cbn [fst]. intros He. unfold hitPlayer. now rewrite He.
Qed.

Lemma hitPlayer_progress i s :
  Tutorial.state (tutorial (fst (hitPlayer rnd i s))) = Tutorial.state (tutorial (fst s)) /\
  Env.localStorage (snd (hitPlayer rnd i s)) = Env.localStorage (snd s).
Proof.
  destruct s as [g e]. cbn [fst snd]. unfold hitPlayer.
  destruct (enemies g !! i) as [enemy|] eqn:Hi; [|now split].
  destruct (_ && _); [|now split].
  destruct (Rleb _ _); [|now split].
  match goal with
  | |- context [particleBurst rnd ?ps ?c ?col e] =>
      pose proof (particleBurst_storage ps c col e) as Hs;
      destruct (particleBurst rnd ps c col e) as [ps1 e1]
  end.
  cbn [fst snd] in *. split; [|exact Hs]. now destruct (Rleb _ _).
Qed.

Lemma spawnStep_progress dt g e :
  Tutorial.state (tutorial (fst (spawnStep rnd dt g e))) = Tutorial.state (tutorial g) /\
  Env.localStorage (snd (spawnStep rnd dt g e)) = Env.localStorage e /\
  Player.health (player (fst (spawnStep rnd dt g e))) = Player.health (player g) /\
  (JsVal.loose_eq (Tutorial.state (tutorial g)) TutorialState.Finished = false ->
   enemies (fst (spawnStep rnd dt g e)) = enemies g).
Proof.
  unfold spawnStep. destruct (JsVal.loose_eq _ _); [|now repeat split].
  destruct (Rleb _ _); [|now repeat split].
  unfold spawnEnemy, randomAngle, randomBetween. cbn. now repeat split.
Qed.

Lemma fresh_kept : kept rnd coarse fresh.
Proof.
  split.
  - intros g e r H _. exact H.
  - intros g e [(Hs & Ho & He & Hh) | [(Hs & Ho & He & Hh) | [Hs Ho]]];
      unfold Tutorial.playerMoved; cbn [progress_of p_state p_storage fst snd] in *.
    + right; left. rewrite Hs. cbn. now repeat split.
    + right; left. rewrite Hs. cbn. now repeat split.
    + right; right. destruct Hs as [Hs|Hs]; rewrite Hs; cbn; split; auto.
  - intros g e dt vel H. exact H.
  - intros g e now_ms H _. unfold shootStep. destruct (Rltb _ _); [|exact H].
    destruct H as [(Hs & Ho & He & Hh) | [(Hs & Ho & He & Hh) | [Hs Ho]]];
      unfold Tutorial.playerShot; cbn [progress_of p_state p_storage fst snd tutorial set_player] in *.
    + left. rewrite Hs. cbn. now repeat split.
    + right; right. rewrite Hs. cbn. split; auto.
    + right; right. destruct Hs as [Hs|Hs]; rewrite Hs; cbn; split; auto.
  - intros g e dt H. exact H.
  - intros i j s H.
    destruct (hitBullet_progress i j s) as [He | [Hs Ho]];
      [now rewrite (hitBullet_empty i j s He)|].
    destruct H as [(Hs' & Ho' & He & Hh) | [(Hs' & Ho' & He & Hh) | [Hs' Ho']]];
      cbn [progress_of p_state p_storage p_enemies] in *.
    + now rewrite (hitBullet_empty i j s He); left.
    + now rewrite (hitBullet_empty i j s He); right; left.
    + right; right. split; cbn [progress_of p_state p_storage]; congruence.
  - intros i s H. destruct (hitPlayer_progress i s) as [Hs Ho].
    destruct H as [(Hs' & Ho' & He & Hh) | [(Hs' & Ho' & He & Hh) | [Hs' Ho']]];
      cbn [progress_of p_state p_storage p_enemies] in *.
    + now rewrite (hitPlayer_empty i s He); left.
    + now rewrite (hitPlayer_empty i s He); right; left.
    + right; right. split; cbn [progress_of p_state p_storage]; congruence.
  - intros g e dt [(Hs & Ho & He & Hh) | [(Hs & Ho & He & Hh) | [Hs Ho]]];
      cbn [progress_of p_state p_storage p_enemies p_health fst snd] in *.
    + left. unfold prune. cbn [progress_of p_state p_storage p_enemies p_health fst snd
        enemies set_enemies set_particles set_bullets tutorial player]. rewrite He. now repeat split.
    + right; left. unfold prune. cbn [progress_of p_state p_storage p_enemies p_health fst snd
        enemies set_enemies set_particles set_bullets tutorial player]. rewrite He. now repeat split.
    + right; right. now split.
  - intros g e dt H. destruct (spawnStep_progress dt g e) as (Hs & Ho & Hh & He).
    destruct H as [(Hs' & Ho' & He' & Hh') | [(Hs' & Ho' & He' & Hh') | [Hs' Ho']]];
      cbn [progress_of p_state p_storage p_enemies p_health fst snd] in *.
    + left. unfold learning_movement. cbn [progress_of p_state p_storage p_enemies p_health].
      rewrite Hs, Ho, Hh, He; [now repeat split | now rewrite Hs'].
    + right; left. unfold learning_shooting.
      cbn [progress_of p_state p_storage p_enemies p_health].
      rewrite Hs, Ho, Hh, He; [now repeat split | now rewrite Hs'].
    + right; right. unfold finished. cbn [progress_of p_state p_storage]. rewrite Hs, Ho.
      now split.
Qed.

Lemma fresh_handled : handled rnd coarse fresh.
Proof.
  split; try (intros; assumption).
  - intros g e now_ms dt. apply update_kept, fresh_kept.
  - apply (kept_playerMoved rnd coarse fresh fresh_kept).
  - intros g e [(Hs & Ho & He & Hh) | [(Hs & Ho & He & Hh) | [Hs Ho]]] Hd;
      cbn [progress_of p_health p_storage fst snd] in *.
    + rewrite Hh in Hd. unfold PLAYER_MAX_HEALTH in Hd. lra.
    + rewrite Hh in Hd. unfold PLAYER_MAX_HEALTH in Hd. lra.
    + right; right. unfold finished, restart, restart_fields, Tutorial.new, Env.getItem.
      cbn [progress_of p_state p_storage fst snd tutorial Tutorial.state]. rewrite Ho. now split; [right|].
Qed.

(** The stages of a session that starts with ["1"] stored: the state is
    a string, and shooting appends a character to it. *)
Definition stuck (s : t * Env.t) : Prop :=
  ((Tutorial.state (tutorial (fst s)) = VStr "1" /\ Env.localStorage (snd s) = Some "1"%string)
   \/ (Tutorial.state (tutorial (fst s)) = VStr "11"
       /\ Env.localStorage (snd s) = Some "11"%string))
  /\ enemies (fst s) = [].

Lemma stuck_kept : kept rnd coarse stuck.
Proof.
  split.
  - intros g e r H _. exact H.
  - intros g e [[[Hs Ho] | [Hs Ho]] He]; unfold Tutorial.playerMoved, stuck;
      cbn [fst snd] in *; rewrite Hs; cbn; (split; [|exact He]); [left | right]; now split.
  - intros g e dt vel H. exact H.
  - intros g e now_ms H _. unfold shootStep. destruct (Rltb _ _); [|exact H].
    destruct H as [[[Hs Ho] | [Hs Ho]] He]; unfold Tutorial.playerShot, stuck;
      cbn [fst snd tutorial set_player] in *; rewrite Hs; cbn; (split; [|exact He]); right; now split.
  - intros g e dt H. exact H.
  - intros i j s [H He]. rewrite (hitBullet_empty i j s He). now split.
  - intros i s [H He]. rewrite (hitPlayer_empty i s He). now split.
  - intros g e dt [H He]. split; [exact H|]. unfold prune. cbn [fst] in He.
    cbn [fst enemies set_enemies set_particles set_bullets]. now rewrite He.
  - intros g e dt [H He]. destruct (spawnStep_progress dt g e) as (Hs & Ho & _ & Hen).
    cbn [fst snd] in H, He. unfold stuck. rewrite Hs, Ho, Hen; [now split|].
    now destruct H as [[-> _] | [-> _]].
Qed.

Lemma stuck_handled : handled rnd coarse stuck.
Proof.
  split; try (intros; assumption).
  - intros g e now_ms dt. apply update_kept, stuck_kept.
  - apply (kept_playerMoved rnd coarse stuck stuck_kept).
  - intros g e [[[Hs Ho] | [Hs Ho]] He] _; cbn [fst snd] in *;
      unfold stuck, restart, restart_fields, Tutorial.new, Env.getItem;
      cbn [fst snd tutorial Tutorial.state enemies]; rewrite Ho;
      (split; [|reflexivity]); [left | right]; now split.
Qed.

(** The stage of a session that starts with ["2"] stored. *)
Definition resumed (s : t * Env.t) : Prop :=
  Tutorial.state (tutorial (fst s)) = VStr "2" /\ Env.localStorage (snd s) = Some "2"%string.

Lemma resumed_kept : kept rnd coarse resumed.
Proof.
  split.
  - intros g e r H _. exact H.
  - intros g e [Hs Ho]. unfold Tutorial.playerMoved, resumed. cbn [fst snd] in *.
    rewrite Hs. cbn. now split.
  - intros g e dt vel H. exact H.
  - intros g e now_ms H _. unfold shootStep. destruct (Rltb _ _); [|exact H].
    destruct H as [Hs Ho]. unfold Tutorial.playerShot, resumed.
    cbn [fst snd tutorial set_player] in *. rewrite Hs. cbn. now split.
  - intros g e dt H. exact H.
  - intros i j s [Hs Ho]. destruct (hitBullet_progress i j s) as [He | [Hs' Ho']].
    + rewrite (hitBullet_empty i j s He). now split.
    + split; congruence.
  - intros i s [Hs Ho]. destruct (hitPlayer_progress i s) as [Hs' Ho']. split; congruence.
  - intros g e dt H. exact H.
  - intros g e dt [Hs Ho]. destruct (spawnStep_progress dt g e) as (Hs' & Ho' & _).
    split; cbn [fst snd] in *; congruence.
Qed.

Lemma resumed_handled : handled rnd coarse resumed.
Proof.
  split; try (intros; assumption).
  - intros g e now_ms dt. apply update_kept, resumed_kept.
  - apply (kept_playerMoved rnd coarse resumed resumed_kept).
  - intros g e [Hs Ho] _. cbn [fst snd] in *.
    unfold resumed, restart, restart_fields, Tutorial.new, Env.getItem.
    cbn [fst snd tutorial Tutorial.state]. rewrite Ho. now split.
Qed.

(** X22. In a session that starts with nothing stored, whatever the
    calls, the state of the tutorial is the number 0, 1 or 2 (or the
    string ["2"], after a restart) and the storage holds what was last
    written: nothing, ["1"] or ["2"].  Until the tutorial is finished
    there is no enemy and the player has full health. *)
Theorem tutorial_fresh_session renderer evs :
  let s := session renderer None evs in
  let state := Tutorial.state (tutorial (fst s)) in
  let stored := Env.localStorage (snd s) in
  (state = VNum 0 /\ stored = None \/
   state = VNum 1 /\ stored = Some "1"%string \/
   (state = VNum 2 \/ state = VStr "2") /\ stored = Some "2"%string) /\
  (JsVal.loose_eq state TutorialState.Finished = false ->
   enemies (fst s) = [] /\ Player.health (player (fst s)) = PLAYER_MAX_HEALTH).
Proof.
  cbv zeta.
  assert (H : fresh (session renderer None evs)).
  { unfold session. apply (run_kept rnd coarse fresh fresh_handled).
    left. now repeat split. }
  destruct H as [(Hs & Ho & He & Hh) | [(Hs & Ho & He & Hh) | [Hs Ho]]];
    cbn [progress_of p_state p_storage p_enemies p_health] in *.
  - split; [now left | now split].
  - split; [right; now left | now split].
  - split; [right; right; now split|]. intros Hf. destruct Hs as [Hs|Hs]; rewrite Hs in Hf;
      discriminate Hf.
Qed.

(** X23. In a session that starts with ["2"] stored, the tutorial is
    finished from the start and stays so: the state stays the string
    ["2"], which [==] takes for [TutorialState.Finished], and the
    storage is not rewritten. *)
Theorem tutorial_resumed_finished renderer evs :
  let s := session renderer (Some "2"%string) evs in
  Tutorial.state (tutorial (fst s)) = VStr "2" /\
  Env.localStorage (snd s) = Some "2"%string /\
  JsVal.loose_eq (Tutorial.state (tutorial (fst s))) TutorialState.Finished = true.
Proof.
  cbv zeta.
  assert (H : resumed (session renderer (Some "2"%string) evs)).
  { unfold session. apply (run_kept rnd coarse resumed resumed_handled). now split. }
  destruct H as [Hs Ho]. rewrite Hs. now repeat split.
Qed.

(** X24. In a session that starts with ["1"] stored (the page was
    left after the player moved and before the first shot), the state
    is the string ["1"]; [state += 1] then appends a character, so the
    first shot makes it ["11"] and stores that, and a session that
    starts with ["11"] stored keeps it.  In both the state never
    compares equal to [TutorialState.Finished]: whatever the calls, no
    enemy is ever spawned. *)
Theorem tutorial_resumed_half_way renderer stored evs :
  stored = "1"%string \/ stored = "11"%string ->
  let s := session renderer (Some stored) evs in
  let state := Tutorial.state (tutorial (fst s)) in
  (state = VStr "1" /\ Env.localStorage (snd s) = Some "1"%string \/
   state = VStr "11" /\ Env.localStorage (snd s) = Some "11"%string) /\
  JsVal.loose_eq state TutorialState.Finished = false /\
  enemies (fst s) = [].
Proof.
  intros Hstored. cbv zeta.
  assert (H : stuck (session renderer (Some stored) evs)).
  { unfold session. apply (run_kept rnd coarse stuck stuck_handled).
    destruct Hstored as [-> | ->]; (split; [|reflexivity]); [left | right]; now split. }
  destruct H as [H He]. split; [exact H|]. split; [|exact He].
  now destruct H as [[-> _] | [-> _]].
Qed.

End TutorialSessions.

Section WebGLSessions.

Variable rnd : nat -> R.
Variable coarse : bool.

(** The calls that a mouse and a keyboard can cause. *)
Definition no_touch (ev : event) : bool :=
  match ev with
  | TouchMove _ | TouchDown _ _ | TouchUp _ => false
  | _ => true
  end.

Definition unarmed (s : t * Env.t) : Prop :=
  is_webgl (renderer (fst s)) = true /\
  Player.shooting (player (fst s)) = false /\
  bullets (fst s) = [] /\
  score (fst s) = 0%Z.

Lemma unarmed_kept : kept rnd coarse unarmed.
Proof.
  split.
  - intros g e r (Hw & H) Hk. split; [|exact H]. cbn [fst renderer set_renderer] in *. congruence.
  - intros g e H. exact H.
  - intros g e dt vel H. exact H.
  - intros g e now_ms (_ & Hs & _) Hsh. cbn [fst] in Hs. congruence.
  - intros g e dt H. exact H.
  - intros i j [g e] (Hw & Hs & Hb & Hsc). unfold hitBullet. cbn [fst] in Hb.
    destruct (enemies g !! i) as [enemy|]; [|now repeat split].
    rewrite Hb. now repeat split.
  - intros i [g e] (Hw & Hs & Hb & Hsc). unfold hitPlayer. cbn [fst] in *.
    destruct (enemies g !! i) as [enemy|]; [|now repeat split].
    destruct (_ && _); [|now repeat split].
    destruct (Rleb _ _); [|now repeat split].
    destruct (particleBurst _ _ _ _ _) as [ps e1]. destruct (Rleb _ _); now repeat split.
  - intros g e dt (Hw & Hs & Hb & Hsc). cbn [fst] in *. unfold unarmed, prune.
    cbn [fst renderer player bullets score set_enemies set_particles set_bullets].
    rewrite Hb. now repeat split.
  - intros g e dt H. unfold spawnStep. destruct (JsVal.loose_eq _ _); [|exact H].
    destruct (Rleb _ _); [|exact H]. unfold spawnEnemy. destruct (randomAngle _ _). exact H.
Qed.

Lemma mouseDown_webgl offsetX offsetY g :
  is_webgl (renderer g) = true -> paused g = false -> 0 < Player.health (player g) ->
  mouseDown offsetX offsetY g
  = Throw (TypeError "this.renderer.screenToWorld is not a function").
Proof.
  intros Hw Hp Hh. unfold mouseDown. rewrite Hp.
  apply Rleb_false in Hh. rewrite Hh.
  destruct (renderer g) as [c|w]; [discriminate Hw | reflexivity].
Qed.

Lemma unarmed_step s ev : no_touch ev = true -> unarmed s -> unarmed (step rnd coarse s ev).
Proof.
  destruct s as [g e]. intros Hev H0. unfold step, handle.
  destruct ev; try discriminate Hev.
  - now apply update_kept; [apply unarmed_kept|].
  - destruct (render g) as [g'|] eqn:Hr; [|exact H0].
    pose proof (is_webgl_render g g' Hr) as Hk. revert Hr Hk. unfold render.
    destruct (if paused g then _ else _) as [r|]; [|discriminate].
    intros [= <-]. cbn [renderer set_renderer]. intros Hk.
    apply (kept_renderer rnd coarse unarmed unarmed_kept); [exact H0 | exact Hk].
  - apply (kept_renderer rnd coarse unarmed unarmed_kept); [exact H0 | now destruct (renderer g)].
  - destruct H0 as (Hw & Hs & Hb & Hsc). cbn [fst] in *.
    unfold keyDown. destruct (_ && _).
    + unfold unarmed. cbn. split; [|now repeat split]. now destruct (renderer g).
    + destruct (String.eqb code "Space"); repeat split; assumption.
  - exact H0.
  - destruct H0 as (Hw & Hs & Hb & Hsc). cbn [fst] in *.
    unfold mouseMove. rewrite Hs, andb_false_r. now repeat split.
  - destruct H0 as (Hw & Hs & Hb & Hsc). cbn [fst] in *.
    unfold mouseDown. destruct (paused g); [now repeat split|].
    destruct (Rleb _ _); [now repeat split|].
    destruct (renderer g) as [c|w] eqn:Hren; [discriminate Hw|].
    cbn [RendererI.screenToWorld]. repeat split; try assumption. cbn [fst]. now rewrite Hren.
  - destruct H0 as (Hw & Hs & Hb & Hsc). now repeat split.
  - unfold blur. now destruct (Rltb _ _).
Qed.

(** X25. With the WebGL renderer the mouse cannot shoot:
    [RendererWebGL] has no method [screenToWorld], so [mouseDown] on a
    game that is neither paused nor over raises a [TypeError] before it
    sets [player.shooting].  In a session on that renderer with calls
    from the mouse, the keyboard and the frame loop only, the player
    never shoots, there is never a bullet, and the score stays 0. *)
Theorem webgl_never_shoots r storage evs :
  Forall (fun ev => no_touch ev = true) evs ->
  let s := run rnd coarse evs (new coarse (WebGL r) (Env.mk storage 0), Env.mk storage 0) in
  Player.shooting (player (fst s)) = false /\
  bullets (fst s) = [] /\
  score (fst s) = 0%Z /\
  forall offsetX offsetY,
    paused (fst s) = false -> 0 < Player.health (player (fst s)) ->
    mouseDown offsetX offsetY (fst s)
    = Throw (TypeError "this.renderer.screenToWorld is not a function") /\
    step rnd coarse s (MouseDown offsetX offsetY) = s.
Proof.
  intros Hevs. cbv zeta.
  assert (H : unarmed (run rnd coarse evs
                         (new coarse (WebGL r) (Env.mk storage 0), Env.mk storage 0))).
  { unfold run.
    assert (H0 : unarmed (new coarse (WebGL r) (Env.mk storage 0), Env.mk storage 0))
      by now repeat split.
    revert H0. generalize (new coarse (WebGL r) (Env.mk storage 0), Env.mk storage 0).
    induction Hevs as [|ev evs Hev _ IH]; intros s Hs; [exact Hs|].
    cbn [foldl]. apply IH. now apply unarmed_step. }
  destruct H as (Hw & Hs & Hb & Hsc). repeat split; try assumption.
  - now apply mouseDown_webgl.
  - destruct (run _ _ _ _) as [g e]. unfold step, handle. cbn [fst] in *.
    now rewrite mouseDown_webgl.
Qed.

End WebGLSessions.

(** *** Pause and game over *)

Section Pauses.

Variable rnd : nat -> R.
Variable coarse : bool.

Lemma update_keeps_paused now_ms dt g e :
  paused (fst (update rnd coarse now_ms dt g e)) = paused g.
Proof.
  unfold update. destruct (paused g) eqn:Hp; [exact Hp|].
  pose proof (simulate_keeps rnd coarse paused unwritten_paused now_ms dt g e) as Hs.
  destruct (simulate _ _ _ _ _ _) as [[dt1 g1] e1]. cbn [fst snd] in Hs.
  rewrite <- Hp, <- Hs. unfold spawnStep. destruct (JsVal.loose_eq _ _); [|reflexivity].
  destruct (Rleb _ _); [|reflexivity]. unfold spawnEnemy. now destruct (randomAngle _ _).
Qed.

(** A game that is paused is not over. *)
Definition pause_alive (s : t * Env.t) : Prop :=
  paused (fst s) = true -> 0 < Player.health (player (fst s)).

Lemma pause_alive_step s ev : pause_alive s -> pause_alive (step rnd coarse s ev).
Proof.
  destruct s as [g e]. unfold pause_alive. cbn [fst]. intros H0.
  unfold step, handle. destruct ev; cbn [fst].
  - destruct (paused g) eqn:Hp.
    + unfold update. rewrite Hp. cbn [fst]. intros _. now apply H0.
    + rewrite update_keeps_paused, Hp. discriminate.
  - unfold render. now destruct (if paused g then _ else _).
  - cbn [fst snd]; exact H0.
  - unfold keyDown. destruct (Rleb (Player.health (player g)) 0) eqn:Hh; cbn [andb].
    + destruct (String.eqb code "Space"); [cbn [fst snd]; discriminate | cbn [fst snd]; exact H0].
    + apply Rleb_false in Hh. now destruct (String.eqb code "Space").
  - cbn [fst snd]; exact H0.
  - unfold mouseMove. destruct (_ && _); [|cbn [fst snd]; exact H0].
    destruct (camera g) as [c|]; [|cbn [fst snd]; exact H0].
    now destruct (RendererI.screenToWorld _ c).
  - unfold mouseDown. destruct (paused g) eqn:Hp; [cbn [fst snd]; discriminate|].
    destruct (Rleb _ _); [cbn [fst snd]; rewrite Hp; discriminate|].
    destruct (RendererI.screenToWorld _ _); cbn [fst snd]; intros Hq;
      change (paused g = true) in Hq; congruence.
  - cbn [fst snd]; exact H0.
  - unfold touchMove.
    apply (foldl_inv (fun g => paused g = true -> 0 < Player.health (player g)));
      [|cbn [fst snd]; exact H0].
    intros a b Ha. destruct (same_touch b (movingTouchId a)); now destruct (same_touch b _).
  - unfold touchDown. destruct (paused g) eqn:Hp; [cbn [fst snd]; discriminate|].
    destruct (Rleb _ _); [cbn [fst snd]; discriminate|].
    destruct (Tutorial.playerMoved _ _) as [tut e1]. cbn [fst].
    intros Hq. exfalso. revert Hq.
    match goal with |- paused (foldl ?f ?a ?l) = true -> False =>
      assert (Hf : paused (foldl f a l) = false) end.
    { apply (foldl_inv (fun g => paused g = false)); [|exact Hp].
      intros a b Ha.
      destruct (Rltb _ _); [now destruct (movingTouchId a) | now destruct (shootingTouchId a)]. }
    rewrite Hf. discriminate.
  - unfold touchUp.
    apply (foldl_inv (fun g => paused g = true -> 0 < Player.health (player g)));
      [|cbn [fst snd]; exact H0].
    intros a b Ha. destruct (same_touch b (movingTouchId a)); now destruct (same_touch b _).
  - unfold blur. destruct (Rltb 0 (Player.health (player g))) eqn:Hh; [|cbn [fst snd]; exact H0].
    intros _. now apply Rltb_true in Hh.
Qed.

(** X27. In every state of a session a paused game is not over: while
    [paused] holds the health of the player is positive, and once the
    health is 0 or less [paused] is false.  [update] does not write
    [paused]; the Space key and the loss of focus pause only a living
    player; a restart and a press on a paused game clear the flag. *)
Theorem paused_game_not_over s :
  reachable rnd coarse s ->
  (paused (fst s) = true -> 0 < Player.health (player (fst s))) /\
  (Player.health (player (fst s)) <= 0 -> paused (fst s) = false).
Proof.
  intros Hr.
  assert (H : pause_alive s).
  { induction Hr as [renderer storage | s ev _ IH]; [discriminate|].
    now apply pause_alive_step. }
  split; [exact H|]. intros Hd. destruct (paused (fst s)) eqn:Hp; [|reflexivity].
  specialize (H Hp). lra.
Qed.

End Pauses.

Section Movement.

Variable rnd : nat -> R.
Variable coarse : bool.

Lemma heal_pos value p : Player.pos (Player.heal value p) = Player.pos p.
Proof. unfold Player.heal. now destruct (Rltb _ _). Qed.

Lemma hitBullet_pos i j s :
  Player.pos (player (fst (hitBullet rnd i j s))) = Player.pos (player (fst s)).
Proof.
  destruct s as [g e]. unfold hitBullet.
  destruct (enemies g !! i) as [enemy|]; [|reflexivity].
  destruct (bullets g !! j) as [bullet|]; [|reflexivity].
  destruct (Rleb _ _); [|reflexivity].
  destruct (particleBurst _ _ _ _ _) as [ps e1].
  cbn [fst player set_particles set_enemies set_bullets set_player set_score
         Player.pos Player.set_accuracy].
  apply heal_pos.
Qed.

Lemma hitPlayer_pos i s :
  Player.pos (player (fst (hitPlayer rnd i s))) = Player.pos (player (fst s)).
Proof.
  destruct s as [g e]. unfold hitPlayer.
  destruct (enemies g !! i) as [enemy|]; [|reflexivity].
  destruct (_ && _); [|reflexivity].
  destruct (Rleb _ _); [|reflexivity].
  destruct (particleBurst _ _ _ _ _) as [ps e1]. now destruct (Rleb _ _).
Qed.

Lemma collisions_pos s :
  Player.pos (player (fst (collisions rnd s))) = Player.pos (player (fst s)).
Proof.
  apply (collisions_inv rnd (fun s' => Player.pos (player (fst s')) = Player.pos (player (fst s)))).
  - intros i j s' H. now rewrite hitBullet_pos.
  - intros i s' H. now rewrite hitPlayer_pos.
  - reflexivity.
Qed.

Lemma spawnStep_player dt g e : player (fst (spawnStep rnd dt g e)) = player g.
Proof.
  unfold spawnStep. destruct (JsVal.loose_eq _ _); [|reflexivity].
  destruct (Rleb _ _); [|reflexivity]. unfold spawnEnemy. now destruct (randomAngle _ _).
Qed.

(** The frame time that [update] uses, and the velocity it gives to the
    player (lines 820-822 and 827-835). *)
Definition frame_time (dt : R) (g : t) : R :=
  if Rleb (Player.health (player g)) 0 then dt / 50 else dt.

Definition velocity (g : t) : V2.t :=
  V2.scale (V2.normalize (V2.add (fst (keysVelocity g)) (movingTouchDirection g))) PLAYER_SPEED.

Lemma simulate_pos now_ms dt g e :
  Player.pos (player (snd (fst (simulate rnd coarse now_ms dt g e))))
  = V2.add (Player.pos (player g)) (V2.scale (velocity g) (frame_time dt g)).
Proof.
  assert (Hkv : forall r g0, keysVelocity (set_renderer r g0) = keysVelocity g0) by reflexivity.
  unfold simulate, velocity, frame_time. rewrite !Hkv.
  destruct (keysVelocity g) as [vel moved]. cbn [fst].
  match goal with
  | |- context [if moved then ?a else ?b] =>
      assert (Hm : player (fst (if moved then a else b)) = player g);
      [ destruct moved; [destruct (Tutorial.playerMoved _ _) as [tut e1]|]; reflexivity
      | destruct (if moved then a else b) as [g3 e3] ]
  end.
  cbn [fst] in Hm.
  match goal with
  | |- context [if ?c then ?a else ?b] =>
      assert (Hs : Player.pos (player (fst (if c then a else b)))
                   = V2.add (Player.pos (player g))
                       (V2.scale (V2.scale (V2.normalize (V2.add vel (movingTouchDirection g)))
                                           PLAYER_SPEED)
                                 (if Rleb (Player.health (player g)) 0 then dt / 50 else dt)));
      [ destruct c;
        [ unfold shootStep; destruct (Rltb _ _);
          [ destruct (Tutorial.playerShot _ _) as [tut e2] |] |];
        cbn [fst player set_player set_bullets set_tutorial Player.shoot Player.pos
               Player.update Player.set_lastShoot];
        now rewrite Hm
      | destruct (if c then a else b) as [g5 e5] ]
  end.
  cbn [fst] in Hs.
  match goal with
  | |- context [collisions rnd ?s] =>
      pose proof (collisions_pos s) as Hc; destruct (collisions rnd s) as [g7 e7]
  end.
  cbn [fst snd player set_tutorial] in *. unfold prune.
  cbn [player set_enemies set_particles set_bullets]. now rewrite Hc.
Qed.

Lemma velocity_len g : V2.len (velocity g) = PLAYER_SPEED \/ velocity g = V2.mk 0 0.
Proof.
  unfold velocity.
  set (v := V2.add (fst (keysVelocity g)) (movingTouchDirection g)).
  destruct (Req_dec_T (V2.len v) 0) as [H0|Hn].
  - right. rewrite (V2Facts.normalize_zero_len v H0). unfold V2.scale. cbn [V2.x V2.y].
    f_equal; ring.
  - left.
    assert (Hv : v <> V2.mk 0 0).
    { intros Hz. apply Hn. rewrite Hz. unfold V2.len. cbn [V2.x V2.y].
      replace (0 * 0 + 0 * 0) with 0 by ring. apply sqrt_0. }
    rewrite V2Facts.len_scale, (V2Facts.len_normalize v Hv).
    unfold PLAYER_SPEED. rewrite Rabs_pos_eq; lra.
Qed.


(** [spawnEnemy] appends one enemy and draws one random number:
    the enemy is at the distance [ENEMY_SPAWN_DISTANCE] from the player,
    in the direction of the draw, alive, of radius 0 and with an empty
    trail. *)
Lemma spawnEnemy_at_distance g e :
  exists enemy,
    spawnEnemy rnd g e = (set_enemies (enemies g ++ [enemy]) g, Env.drawn e) /\
    V2.dist (Enemy.pos enemy) (Player.pos (player g)) = ENEMY_SPAWN_DISTANCE /\
    Enemy.pos enemy
    = V2.add (Player.pos (player g))
             (V2.polar ENEMY_SPAWN_DISTANCE (rnd (Env.draws e) * (2 * PI))) /\
    Enemy.ded enemy = false /\ Enemy.radius enemy = 0 /\
    Trail.trail (Enemy.trail enemy) = [].
Proof.
  unfold spawnEnemy, randomAngle, randomBetween. cbn [fst snd]. eexists. split; [reflexivity|].
  cbn [Enemy.pos Enemy.new Enemy.ded Enemy.radius Enemy.trail Trail.new Trail.trail].
  repeat split.
  - rewrite V2Facts.dist_add, V2Facts.len_polar. unfold ENEMY_SPAWN_DISTANCE. rewrite Rabs_pos_eq; lra.
  - do 3 f_equal. ring.
Qed.

End Movement.




(** The circles that a frame asks for: the samples of the trail of the
    player, the player while alive, the bullets, the particles, and for
    every enemy the samples of its trail and the enemy. *)
Definition circles (g : t) : nat :=
  (length (Trail.trail (Player.trail (player g)))
   + (if Rltb 0 (Player.health (player g)) then 1 else 0)
   + length (bullets g)
   + length (particles g)
   + list_sum (map (fun enemy => length (Trail.trail (Enemy.trail enemy)) + 1) (enemies g)))%nat.

(** [f] asks a WebGL renderer for [k] circles: the instance counter goes
    up by [k] or stops at the capacity, and the camera is left alone. *)
Definition asks (k : nat) (f : Renderer -> Renderer) : Prop :=
  forall w,
    (RendererWebGL.circlesCount w <= CIRCLE_BATCH_CAPACITY)%nat ->
    exists w',
      f (WebGL w) = WebGL w' /\
      RendererWebGL.circlesCount w'
      = Nat.min (RendererWebGL.circlesCount w + k) CIRCLE_BATCH_CAPACITY /\
      RendererWebGL.cameraPos w' = RendererWebGL.cameraPos w /\
      RendererWebGL.cameraVel w' = RendererWebGL.cameraVel w /\
      RendererWebGL.grayness w' = RendererWebGL.grayness w.

Lemma asks_id : asks 0 (fun r => r).
Proof. intros w Hw. exists w. repeat split. lia. Qed.

Lemma asks_comp a b f h : asks a f -> asks b h -> asks (a + b) (fun r => h (f r)).
Proof.
  intros Hf Hh w Hw. destruct (Hf w Hw) as (w1 & E1 & C1 & P1 & V1 & G1).
  assert (Hw1 : (RendererWebGL.circlesCount w1 <= CIRCLE_BATCH_CAPACITY)%nat) by lia.
  destruct (Hh w1 Hw1) as (w2 & E2 & C2 & P2 & V2 & G2).
  exists w2. rewrite E1, E2. repeat split; try congruence. lia.
Qed.

Lemma asks_fillCircle center radius color :
  asks 1 (RendererI.fillCircle center radius color).
Proof.
  intros w Hw. eexists. split; [reflexivity|]. unfold RendererWebGL.fillCircle.
  destruct (RendererWebGL.circlesCount w <? CIRCLE_BATCH_CAPACITY)%nat eqn:E.
  - apply Nat.ltb_lt in E. cbn [RendererWebGL.circlesCount RendererWebGL.cameraPos
      RendererWebGL.cameraVel RendererWebGL.grayness]. repeat split. lia.
  - apply Nat.ltb_ge in E. repeat split. lia.
Qed.

Lemma asks_foldl {A} (k : A -> nat) (f : Renderer -> A -> Renderer) (l : list A) :
  (forall x, asks (k x) (fun r => f r x)) ->
  asks (list_sum (map k l)) (fun r => foldl f r l).
Proof.
  intros Hf. induction l as [|x l IH]; cbn [map list_sum foldl fold_right].
  - apply asks_id.
  - apply (asks_comp (k x) (list_sum (map k l)) (fun r => f r x) (fun r => foldl f r l));
      [apply Hf | exact IH].
Qed.

Lemma list_sum_ones {A} (l : list A) : list_sum (map (fun _ => 1%nat) l) = length l.
Proof.
  induction l as [|x l IH]; [reflexivity|].
  cbn [map list_sum fold_right length]. unfold list_sum in IH. now rewrite IH.
Qed.

Lemma asks_Trail_render t :
  asks (length (Trail.trail t)) (fun r => Trail.render r t).
Proof.
  unfold Trail.render. rewrite <- (list_sum_ones (Trail.trail t)).
  apply (asks_foldl (fun _ => 1%nat)). intros d. apply asks_fillCircle.
Qed.

Lemma asks_Player_render p :
  asks (length (Trail.trail (Player.trail p)) + (if Rltb 0 (Player.health p) then 1 else 0))
       (fun r => Player.render r p).
Proof.
  unfold Player.render. destruct (Rltb 0 (Player.health p)).
  - apply (asks_comp _ 1 (fun r => Trail.render r (Player.trail p))
             (RendererI.fillCircle (Player.pos p) PLAYER_RADIUS PLAYER_COLOR));
      [apply asks_Trail_render | apply asks_fillCircle].
  - rewrite Nat.add_0_r. apply asks_Trail_render.
Qed.

Lemma asks_Enemy_render enemy :
  asks (length (Trail.trail (Enemy.trail enemy)) + 1) (fun r => Enemy.render r enemy).
Proof.
  unfold Enemy.render.
  apply (asks_comp _ 1 (fun r => Trail.render r (Enemy.trail enemy))
           (RendererI.fillCircle (Enemy.pos enemy) (Enemy.radius enemy) ENEMY_COLOR));
    [apply asks_Trail_render | apply asks_fillCircle].
Qed.

Lemma asks_entities g :
  asks (circles g)
       (fun r => foldl Enemy.render
                   (foldl Particle.render
                      (foldl Bullet.render (Player.render r (player g)) (bullets g))
                      (particles g))
                   (enemies g)).
Proof.
  unfold circles.
  apply (asks_comp _ _ (fun r => foldl Particle.render
                                   (foldl Bullet.render (Player.render r (player g)) (bullets g))
                                   (particles g))
           (fun r => foldl Enemy.render r (enemies g))).
  - apply (asks_comp _ _ (fun r => foldl Bullet.render (Player.render r (player g)) (bullets g))
             (fun r => foldl Particle.render r (particles g))).
    + apply (asks_comp _ _ (fun r => Player.render r (player g))
               (fun r => foldl Bullet.render r (bullets g))).
      * apply asks_Player_render.
      * rewrite <- (list_sum_ones (bullets g)). apply (asks_foldl (fun _ => 1%nat)).
        intros b. apply asks_fillCircle.
    + rewrite <- (list_sum_ones (particles g)). apply (asks_foldl (fun _ => 1%nat)).
      intros p. apply asks_fillCircle.
  - apply asks_foldl. intros enemy. apply asks_Enemy_render.
Qed.

(** X28. On the WebGL renderer [render] never raises and changes
    nothing but the renderer: after it the instance counter, which is
    the number of instances of the draw call of [present], is the number
    of circles of the frame or the capacity of the batch if that is
    less, whatever the counter was before; the camera and the grayness
    are as before. *)
Theorem render_webgl_batches g w :
  renderer g = WebGL w ->
  exists w',
    render g = Ok (set_renderer (WebGL w') g) /\
    RendererWebGL.circlesCount w' = Nat.min (circles g) CIRCLE_BATCH_CAPACITY /\
    RendererWebGL.present w'
    = ((TRIANGLE_PAIR * TRIANGLE_VERTICIES)%nat, Nat.min (circles g) CIRCLE_BATCH_CAPACITY) /\
    RendererWebGL.cameraPos w' = RendererWebGL.cameraPos w /\
    RendererWebGL.cameraVel w' = RendererWebGL.cameraVel w /\
    RendererWebGL.grayness w' = RendererWebGL.grayness w.
Proof.
  intros Hr. unfold render. rewrite Hr. cbv zeta.
  cbn [RendererI.clear RendererI.background]. unfold RendererWebGL.background.
  destruct (asks_entities g (RendererWebGL.clear w)) as (w' & E & C & P & V & G).
  { cbn [RendererWebGL.clear RendererWebGL.circlesCount]. lia. }
  cbv beta in E. rewrite E. exists w'.
  assert (Hm : forall text color,
             RendererI.fillMessage text color (WebGL w') = Ok (WebGL w')) by reflexivity.
  split.
  - destruct (paused g); [now rewrite Hm|]. destruct (Rleb _ _); [now rewrite Hm|].
    unfold Tutorial.render, TutorialPopup.render. now rewrite Hm.
  - unfold RendererWebGL.present. rewrite C.
    cbn [RendererWebGL.clear RendererWebGL.circlesCount RendererWebGL.cameraPos
           RendererWebGL.cameraVel RendererWebGL.grayness] in *.
    rewrite Nat.add_0_l. now repeat split.
Qed.



(** *** The properties on given states *)

(** The session in which the first call is a press of the mouse. *)
Lemma health_in_range_witness :
  0 <= Player.health (player (fst (game_shooting, env0))) <= PLAYER_MAX_HEALTH.
Proof.
  apply (health_in_range (fun _ => 0) false (game_shooting, env0)).
  apply reachable_game_shooting. reflexivity.
Defined.

Lemma score_counts_hits_witness :
  score (fst (game_shooting, env0))
  = (ENEMY_KILL_SCORE * Player.accuracy (player (fst (game_shooting, env0))))%Z /\
  (0 <= score (fst (game_shooting, env0)))%Z.
Proof.
  apply (score_counts_hits (fun _ => 0) false (game_shooting, env0)).
  apply reachable_game_shooting. reflexivity.
Defined.

(** A frame on a game whose player is dead. *)
Lemma dead_until_restart_witness :
  Player.health
    (player (fst (step (fun _ => 0) false (game_dead, env0) (Update 0 (1 / 60)))))
  = Player.health (player (fst (game_dead, env0))).
Proof.
  apply (dead_until_restart (fun _ => 0) false (game_dead, env0) (Update 0 (1 / 60))).
  - cbn [fst game_dead player set_player Player.health Player.set_health]. lra.
  - reflexivity.
Defined.

Lemma entities_live_witness :
  Forall (fun enemy =>
            Enemy.ded enemy = false /\
            V2.dist (Enemy.pos enemy) (Player.pos (player (fst (game_shooting, env0))))
            < ENEMY_DESPAWN_DISTANCE)
         (enemies (fst (game_shooting, env0))) /\
  Forall (fun bullet => 0 < Bullet.lifetime bullet) (bullets (fst (game_shooting, env0))) /\
  Forall (fun particle => 0 < Particle.lifetime particle)
         (particles (fst (game_shooting, env0))).
Proof.
  apply (entities_live (fun _ => 0) false (game_shooting, env0)).
  apply reachable_game_shooting. reflexivity.
Defined.


Lemma pressedKeys_is_set_witness :
  NoDup (pressedKeys (fst (game_shooting, env0))) /\
  (restarts (KeyDown "KeyW") (fst (game_shooting, env0)) = false ->
   In "KeyW"%string
      (pressedKeys (keyDown false "KeyW" (fst (game_shooting, env0))
                            (snd (game_shooting, env0))))) /\
  ~ In "KeyW"%string (pressedKeys (keyUp "KeyW" (fst (game_shooting, env0)))) /\
  (forall k, k <> "KeyW"%string ->
             (In k (pressedKeys (keyUp "KeyW" (fst (game_shooting, env0))))
              <-> In k (pressedKeys (fst (game_shooting, env0))))).
Proof.
  apply (pressedKeys_is_set (fun _ => 0) false (game_shooting, env0) "KeyW").
  apply reachable_game_shooting. reflexivity.
Defined.

(** A session resumed half way through the tutorial: a key is held,
    the mouse is pressed, and a frame passes. *)
Lemma tutorial_resumed_half_way_witness :
  let s := session (fun _ => 0) false (Canvas2D (Renderer2D.new 800 600)) (Some "1"%string)
             [KeyDown "KeyW"; MouseDown 10 10; Update 1000 (1 / 60)] in
  let state := Tutorial.state (tutorial (fst s)) in
  (state = VStr "1" /\ Env.localStorage (snd s) = Some "1"%string \/
   state = VStr "11" /\ Env.localStorage (snd s) = Some "11"%string) /\
  JsVal.loose_eq state TutorialState.Finished = false /\
  enemies (fst s) = [].
Proof.
  apply (tutorial_resumed_half_way (fun _ => 0) false (Canvas2D (Renderer2D.new 800 600)) "1"
           [KeyDown "KeyW"; MouseDown 10 10; Update 1000 (1 / 60)]).
  now left.
Defined.

(** The window loses the focus after the first press of the mouse. *)
Lemma paused_game_not_over_witness :
  let s := step (fun _ => 0) false (game_shooting, env0) Blur in
  (paused (fst s) = true -> 0 < Player.health (player (fst s))) /\
  (Player.health (player (fst s)) <= 0 -> paused (fst s) = false).
Proof.
  apply (paused_game_not_over (fun _ => 0) false
           (step (fun _ => 0) false (game_shooting, env0) Blur)).
  apply reachable_step, reachable_game_shooting. reflexivity.
Defined.

(** A press of the mouse, a frame and the release, on the WebGL
    renderer. *)
Lemma webgl_never_shoots_witness :
  let s := run (fun _ => 0) false [MouseDown 10 10; Update 0 (1 / 60); MouseUp]
               (new false (WebGL RendererWebGL.new) (Env.mk None 0), Env.mk None 0) in
  Player.shooting (player (fst s)) = false /\
  bullets (fst s) = [] /\
  score (fst s) = 0%Z /\
  forall offsetX offsetY,
    paused (fst s) = false -> 0 < Player.health (player (fst s)) ->
    mouseDown offsetX offsetY (fst s)
    = Throw (TypeError "this.renderer.screenToWorld is not a function") /\
    step (fun _ => 0) false s (MouseDown offsetX offsetY) = s.
Proof.
  apply (webgl_never_shoots (fun _ => 0) false RendererWebGL.new None
           [MouseDown 10 10; Update 0 (1 / 60); MouseUp]).
  repeat constructor.
Defined.

(** A new game on the WebGL renderer. *)
Lemma render_webgl_batches_witness :
  let g := new false (WebGL RendererWebGL.new) env0 in
  exists w',
    render g = Ok (set_renderer (WebGL w') g) /\
    RendererWebGL.circlesCount w' = Nat.min (circles g) CIRCLE_BATCH_CAPACITY /\
    RendererWebGL.present w'
    = ((TRIANGLE_PAIR * TRIANGLE_VERTICIES)%nat, Nat.min (circles g) CIRCLE_BATCH_CAPACITY) /\
    RendererWebGL.cameraPos w' = V2.mk 0 0 /\
    RendererWebGL.cameraVel w' = V2.mk 0 0 /\
    RendererWebGL.grayness w' = None.
Proof.
  exact (render_webgl_batches (new false (WebGL RendererWebGL.new) env0)
           (RendererWebGL.set_cameraVel (V2.mk 0 0)
              (RendererWebGL.set_cameraPos (V2.mk 0 0) RendererWebGL.new))
           eq_refl).
Defined.

End GameFacts.

(** ** The frame loop *)

Module LoopFacts.
Import Loop.

Section Sessions.

Variable rnd : nat -> R.
Variable coarse : bool.

Lemma listener_reachable ev l :
  GameFacts.reachable rnd coarse (game l, env l) ->
  GameFacts.reachable rnd coarse
    (game (listener rnd coarse ev l), env (listener rnd coarse ev l)).
Proof.
  intros H. unfold listener.
  pose proof (GameFacts.reachable_step rnd coarse _ ev H) as Hs.
  destruct (Game.step rnd coarse (game l, env l) ev) as [g e]. exact Hs.
Qed.

(** A frame is, for the game, the calls [update] and [render], after
    the change of viewport if the window was resized. *)
Lemma step_events timestamp now_ms innerWidth innerHeight l :
  let l' := step rnd coarse timestamp now_ms innerWidth innerHeight l in
  (game l', env l')
  = Game.run rnd coarse
      ((if windowWasResized l then [Game.Resize innerWidth innerHeight] else [])
         ++ [Game.Update now_ms (dt timestamp l); Game.Render])
      (game l, env l) /\
  start l' = Some timestamp /\
  windowWasResized l' = false.
Proof.
  cbv zeta. unfold step, Game.run.
  rewrite foldl_app.
  assert (Hr : foldl (Game.step rnd coarse) (game l, env l)
                 (if windowWasResized l then [Game.Resize innerWidth innerHeight] else [])
               = (if windowWasResized l
                  then Game.set_renderer
                         (RendererI.setViewport innerWidth innerHeight
                            (Game.renderer (game l))) (game l)
                  else game l, env l)).
  { now destruct (windowWasResized l). }
  rewrite Hr. cbn [foldl]. unfold Game.step at 2. cbn [Game.handle].
  destruct (Game.update rnd coarse now_ms (dt timestamp l) _ (env l)) as [g e].
  unfold Game.step, Game.handle.
  destruct (Game.render g) as [g'|err]; now repeat split.
Qed.

Lemma run_reachable evs s :
  GameFacts.reachable rnd coarse s -> GameFacts.reachable rnd coarse (Game.run rnd coarse evs s).
Proof.
  unfold Game.run. revert s. induction evs as [|ev evs IH]; intros s Hs; [exact Hs|].
  cbn [foldl]. apply IH. now constructor.
Qed.

Lemma handle_reachable l i :
  GameFacts.reachable rnd coarse (game l, env l) ->
  GameFacts.reachable rnd coarse (game (handle rnd coarse l i), env (handle rnd coarse l i)).
Proof.
  intros H. destruct i; cbn [handle game env]; try (now apply listener_reachable); try exact H.
  destruct (scheduled l); [|exact H].
  destruct (step_events timestamp now_ms innerWidth innerHeight l) as [-> _].
  now apply run_reachable.
Qed.


End Sessions.

End LoopFacts.
